(** * phosphor-plugins: the extension / plugin lifecycle engine

    A shallow embedding of [src/extension.ts] and [src/plugin.ts].

    The program is written against ES6 promises.  Every arrow function that
    the source hands to [then] or [catch] becomes a constructor of [Cont]
    (a defunctionalised closure carrying its captured variables) and the body
    of that arrow function becomes one equation of [run_cont].  The promise
    runtime itself (promise cells, reactions, the microtask queue) is part of
    the state, so that interleavings of pending operations are explicit.

    The environment (the module loader behind [System.import] and the user
    code living in the loaded modules) is not part of the program: it acts
    through [Settle] events and through the [Member]s of the modules it
    provides. *)

From stdpp Require Import base option list strings gmap.
From Stdlib Require Import Lia.

Open Scope string_scope.
Open Scope list_scope.
Open Scope nat_scope.

(** ** JSON declarations ([IExtensionPointJSON], [IExtensionJSON], [IPluginJSON]) *)

(** An optional string field: [None] is an absent property. *)
Definition truthy (s : option string) : bool :=
  match s with
  | Some s => negb (String.eqb s "")
  | None => false
  end.

(** String conversion as done by [+] on a possibly absent property. *)
Definition to_str (s : option string) : string :=
  match s with
  | Some s => s
  | None => "undefined"
  end.

Record IExtensionPointJSON := mkPointJSON {
  pj_id : string;
  pj_receiver : string;
  pj_module : option string;
  pj_initializer : option string }.

(** The [config] field is arbitrary JSON that the engine never inspects. *)
Record IExtensionJSON := mkExtJSON {
  ej_point : string;
  ej_loader : option string;
  ej_data : option string;
  ej_config : nat;
  ej_module : option string;
  ej_initializer : option string }.

Record IPluginJSON := mkPluginJSON {
  gj_module : option string;
  gj_initializer : option string;
  gj_extensionPoints : option (list IExtensionPointJSON);
  gj_extensions : option (list IExtensionJSON) }.

(** ** Values *)

(** A [Member] is what [mod[name]] evaluates to, described by what happens
    when it is called: it is not callable, it raises, it returns a plain
    value, or it returns a promise that the environment settles later. *)
Inductive Value : Type :=
| VUndefined
| VNull
| VData (tag : nat)
| VDisposable (tag : nat)
| VError (msg : string)
| VModule (members : list (string * Member))
| VPackage (main : option string) (plugin : option IPluginJSON)
| VPromise (p : nat)
| VPoint (r : nat)
| VExtension (r : nat)
| VContribution (config : nat) (data object : Value)
| VBoundInitialize (pl : nat)
| VArray
with Member : Type :=
| MAbsent
| MThrows (e : Value)
| MReturns (v : Value)
| MAsync.

Definition TypeError : Value := VError "TypeError".

(** [IExtension<T>]: the object stored in [Extension._extension]. *)
Record Contribution := mkContribution {
  c_config : nat;
  c_data : Value;
  c_object : Value }.

Definition contribution_value (c : option Contribution) : Value :=
  match c with
  | Some c => VContribution (c_config c) (c_data c) (c_object c)
  | None => VNull
  end.

(** ** Objects *)

(** Modelled from the spec: [DisposableSet] of the phosphor-disposable
    package, "an ordered collection of cleanup handles that can be disposed
    exactly once". *)
Record DisposableSet := mkDisposableSet {
  ds_items : list Value;
  ds_disposed : bool }.

Definition new_DisposableSet : DisposableSet := mkDisposableSet [] false.

Record ExtensionPoint := mkExtensionPoint {
  ep_id : string;
  ep_receiver : string;
  ep_module : option string;
  ep_initializer : option string;
  ep_initialized : bool;
  ep_receiverFunc : option Member;
  ep_disposables : DisposableSet }.

Record Extension := mkExtension {
  ex_point : string;
  ex_loader : option string;
  ex_module : option string;
  ex_data : option string;
  ex_initializer : option string;
  ex_extension : option Contribution;
  ex_disposables : DisposableSet }.

Record Plugin := mkPlugin {
  pl_name : string;
  pl_module : string;
  pl_initializer : option string;
  pl_extensionPoints : option (list IExtensionPointJSON);
  pl_extensions : option (list IExtensionJSON);
  pl_disposables : DisposableSet }.

#[global] Instance ExtensionPoint_inhabited : Inhabited ExtensionPoint :=
  populate (mkExtensionPoint "" "" None None false None new_DisposableSet).
#[global] Instance Extension_inhabited : Inhabited Extension :=
  populate (mkExtension "" None None None None None new_DisposableSet).
#[global] Instance Plugin_inhabited : Inhabited Plugin :=
  populate (mkPlugin "" "" None None None new_DisposableSet).

(** ** The promise runtime *)

Inductive Outcome :=
| Fulfilled (v : Value)
| Rejected (e : Value).

(** The arrow functions of the source, each with its captured variables. *)
Inductive Cont :=
| KConnect (p e : nat)
| KLoad (p : nat)
| KPointInit (p : nat)
| KPointInitDone (p : nat)
| KReceive (p e : nat) (receiver : option Member)
| KExtInit (e : nat)
| KExtInitDone (e : nat)
| KLoadDone (e : nat)
| KSetData (e : nat)
| KLoadObject (e : nat)
| KSetObject (e : nat)
| KReturn (v : Value)
| KPluginLoaded (pl : nat)
| KAddDisposable (pl : nat)
| KLogError
| KPluginInit (pl : nat)
| KGatherPlugins
| KAddPackage (name : string).

(** What a promise does to a dependent promise once it settles. *)
Inductive Reaction :=
| RThen (k : Cont) (child : nat)
| RCatch (k : Cont) (child : nat)
| RForward (child : nat)
| RAll (agg : nat).

Record PromiseCell := mkCell {
  p_state : option Outcome;
  p_reactions : list Reaction;
  p_external : bool;
  p_remaining : nat }.

Inductive Microtask :=
| MReaction (r : Reaction) (o : Outcome)
| MAdopt (child src : nat).

(** ** Observable events *)

Inductive TraceEvent :=
| TrImport (path : option string) (p : nat)
| TrSystemDelete (path : string)
| TrConnect (point ext : nat)
| TrPointInitializer (point : nat)
| TrReceiver (point ext : nat) (arg : Value)
| TrExtInitializer (ext : nat)
| TrLoader (ext : nat)
| TrPluginInitializer (pl : nat)
| TrConsoleError (e : Value)
| TrDisposeItem (v : Value).

(** ** Plain objects used as maps

    [availablePlugins] and [loadedPlugins] are object literals, so a property
    read that finds no own property continues in [Object.prototype]. *)
Inductive Slot :=
| SlotPlugin (r : nat)
| SlotBuiltin (name : string).

Definition object_prototype : list string :=
  [ "constructor"; "hasOwnProperty"; "isPrototypeOf"; "propertyIsEnumerable";
    "toLocaleString"; "toString"; "valueOf" ].

(** [o[k]] *)
Definition js_get (o : gmap string Slot) (k : string) : option Slot :=
  match o !! k with
  | Some s => Some s
  | None => if bool_decide (k ∈ object_prototype) then Some (SlotBuiltin k) else None
  end.

(** [k in o] *)
Definition js_in (k : string) (o : gmap string Slot) : bool :=
  bool_decide (is_Some (o !! k)) || bool_decide (k ∈ object_prototype).

Record NpmPackage := mkNpm {
  npm_name : string;
  npm_fileUrl : string }.

(** ** Program state *)

Record State := mkState {
  points : list ExtensionPoint;
  extensions : list Extension;
  plugins : list Plugin;
  allExtensionPoints : gmap string nat;
  allExtensions : gmap string (list nat);
  availablePlugins : gmap string Slot;
  loadedPlugins : gmap string Slot;
  npm : list (string * NpmPackage);
  windowName : string;
  promises : list PromiseCell;
  microtasks : list Microtask;
  trace : list TraceEvent }.

(** The state at program start; [System.npm] and the global [name] belong to
    the host page. *)
Definition start (pkgs : list (string * NpmPackage)) (name : string) : State :=
  mkState [] [] [] ∅ ∅ ∅ ∅ pkgs name [] [] [].

Definition init_state : State := start [] "".

Definition with_points (f : list ExtensionPoint → list ExtensionPoint) (s : State) : State :=
  mkState (f (points s)) (extensions s) (plugins s) (allExtensionPoints s)
    (allExtensions s) (availablePlugins s) (loadedPlugins s) (npm s)
    (windowName s) (promises s) (microtasks s) (trace s).
Definition with_extensions (f : list Extension → list Extension) (s : State) : State :=
  mkState (points s) (f (extensions s)) (plugins s) (allExtensionPoints s)
    (allExtensions s) (availablePlugins s) (loadedPlugins s) (npm s)
    (windowName s) (promises s) (microtasks s) (trace s).
Definition with_plugins (f : list Plugin → list Plugin) (s : State) : State :=
  mkState (points s) (extensions s) (f (plugins s)) (allExtensionPoints s)
    (allExtensions s) (availablePlugins s) (loadedPlugins s) (npm s)
    (windowName s) (promises s) (microtasks s) (trace s).
Definition with_allExtensionPoints (f : gmap string nat → gmap string nat) (s : State) : State :=
  mkState (points s) (extensions s) (plugins s) (f (allExtensionPoints s))
    (allExtensions s) (availablePlugins s) (loadedPlugins s) (npm s)
    (windowName s) (promises s) (microtasks s) (trace s).
Definition with_allExtensions (f : gmap string (list nat) → gmap string (list nat)) (s : State) : State :=
  mkState (points s) (extensions s) (plugins s) (allExtensionPoints s)
    (f (allExtensions s)) (availablePlugins s) (loadedPlugins s) (npm s)
    (windowName s) (promises s) (microtasks s) (trace s).
Definition with_availablePlugins (f : gmap string Slot → gmap string Slot) (s : State) : State :=
  mkState (points s) (extensions s) (plugins s) (allExtensionPoints s)
    (allExtensions s) (f (availablePlugins s)) (loadedPlugins s) (npm s)
    (windowName s) (promises s) (microtasks s) (trace s).
Definition with_loadedPlugins (f : gmap string Slot → gmap string Slot) (s : State) : State :=
  mkState (points s) (extensions s) (plugins s) (allExtensionPoints s)
    (allExtensions s) (availablePlugins s) (f (loadedPlugins s)) (npm s)
    (windowName s) (promises s) (microtasks s) (trace s).
Definition with_promises (f : list PromiseCell → list PromiseCell) (s : State) : State :=
  mkState (points s) (extensions s) (plugins s) (allExtensionPoints s)
    (allExtensions s) (availablePlugins s) (loadedPlugins s) (npm s)
    (windowName s) (f (promises s)) (microtasks s) (trace s).
Definition with_microtasks (f : list Microtask → list Microtask) (s : State) : State :=
  mkState (points s) (extensions s) (plugins s) (allExtensionPoints s)
    (allExtensions s) (availablePlugins s) (loadedPlugins s) (npm s)
    (windowName s) (promises s) (f (microtasks s)) (trace s).
Definition with_trace (f : list TraceEvent → list TraceEvent) (s : State) : State :=
  mkState (points s) (extensions s) (plugins s) (allExtensionPoints s)
    (allExtensions s) (availablePlugins s) (loadedPlugins s) (npm s)
    (windowName s) (promises s) (microtasks s) (f (trace s)).

(** ** The monad of the embedding: state, and a thrown value *)

Inductive Result (A : Type) :=
| Ret (a : A)
| Throw (e : Value).
Arguments Ret {A} a.
Arguments Throw {A} e.

Definition M (A : Type) : Type := State → Result A * State.

#[global] Instance M_ret : MRet M := λ A a s, (Ret a, s).
#[global] Instance M_bind : MBind M := λ A B f m s,
  match m s with
  | (Ret a, s') => f a s'
  | (Throw e, s') => (Throw e, s')
  end.

Definition throw {A} (e : Value) : M A := λ s, (Throw e, s).
Definition get_state : M State := λ s, (Ret s, s).
Definition modify (f : State → State) : M unit := λ s, (Ret (), f s).
Definition log (ev : TraceEvent) : M unit := modify (with_trace (λ t, t ++ [ev])).

(** ** Promise primitives *)

Definition pending_cell : PromiseCell := mkCell None [] false 0.
Definition external_cell : PromiseCell := mkCell None [] true 0.
Definition settled_cell (o : Outcome) : PromiseCell := mkCell (Some o) [] false 0.

Definition new_promise (c : PromiseCell) : M nat := λ s,
  (Ret (length (promises s)), with_promises (λ ps, ps ++ [c]) s).

Definition enqueue (ms : list Microtask) : M unit :=
  modify (with_microtasks (λ q, q ++ ms)).

(** Register reaction [r] on promise [p]; a settled promise schedules it at once. *)
Definition subscribe (p : nat) (r : Reaction) : M unit := λ s,
  match promises s !! p with
  | Some c =>
      match p_state c with
      | None =>
          modify (with_promises
            <[p := mkCell None (p_reactions c ++ [r]) (p_external c) (p_remaining c)]>) s
      | Some o => enqueue [MReaction r o] s
      end
  | None => (Ret (), s)
  end.

(** Settle a pending promise and schedule its reactions; a settled promise
    stays as it is. *)
Definition settle (p : nat) (o : Outcome) : M unit := λ s,
  match promises s !! p with
  | Some c =>
      match p_state c with
      | None =>
          (modify (with_promises
             <[p := mkCell (Some o) [] (p_external c) (p_remaining c)]>) ;;
           enqueue ((λ r, MReaction r o) <$> p_reactions c)) s
      | Some _ => (Ret (), s)
      end
  | None => (Ret (), s)
  end.

(** Resolve with a value: a promise value is adopted in a later job. *)
Definition resolve (p : nat) (v : Value) : M unit :=
  match v with
  | VPromise src => enqueue [MAdopt p src]
  | _ => settle p (Fulfilled v)
  end.

(** [p.then(k)] *)
Definition then_ (p : nat) (k : Cont) : M nat :=
  c ← new_promise pending_cell;
  subscribe p (RThen k c) ;;
  mret c.

(** [p.catch(k)] *)
Definition catch_ (p : nat) (k : Cont) : M nat :=
  c ← new_promise pending_cell;
  subscribe p (RCatch k c) ;;
  mret c.

(** [Promise.resolve(v)] for a value that is not a promise. *)
Definition promise_resolve (v : Value) : M nat :=
  new_promise (settled_cell (Fulfilled v)).

(** [Promise.all(ps)] *)
Definition promise_all (ps : list nat) : M nat :=
  agg ← new_promise
    (mkCell (if ps is [] then Some (Fulfilled VArray) else None) [] false (length ps));
  mapM (λ p, subscribe p (RAll agg)) ps ;;
  mret agg.

(** [System.import(path)]: a promise that the environment settles. *)
Definition system_import (path : option string) : M nat :=
  p ← new_promise external_cell;
  log (TrImport path p) ;;
  mret p.

(** ** Reading and calling members of loaded modules *)

Fixpoint assoc (name : string) (l : list (string * Member)) : Member :=
  match l with
  | [] => MAbsent
  | (n, m) :: l => if String.eqb n name then m else assoc name l
  end.

(** [mod[name]] *)
Definition get_member (mod_ : Value) (name : string) : M Member :=
  match mod_ with
  | VModule ms => mret (assoc name ms)
  | VUndefined | VNull => throw TypeError
  | _ => mret MAbsent
  end.

(** [f()] for a member [f]; [ev] records that the function was entered. *)
Definition call_member (ev : TraceEvent) (f : Member) : M Value :=
  match f with
  | MAbsent => throw TypeError
  | MThrows e => log ev ;; throw e
  | MReturns v => log ev ;; mret v
  | MAsync => log ev ;; p ← new_promise external_cell; mret (VPromise p)
  end.

(** [v.hasOwnProperty('dispose')].  [dispose] of an [ExtensionPoint], an
    [Extension] or a [Plugin] is a method of the class, not an own property. *)
Definition hasOwnProperty_dispose (v : Value) : M bool :=
  match v with
  | VUndefined | VNull => throw TypeError
  | VDisposable _ => mret true
  | VModule ms => mret (bool_decide ("dispose" ∈ ms.*1))
  | _ => mret false
  end.

(** [v.then(k)] for an arbitrary value [v]. *)
Definition value_then (v : Value) (k : Cont) : M Value :=
  match v with
  | VPromise q => c ← then_ q k; mret (VPromise c)
  | _ => throw TypeError
  end.

(** ** [DisposableSet] *)

Definition ds_add (v : Value) (d : DisposableSet) : Result DisposableSet :=
  if ds_disposed d then Throw (VError "object is disposed")
  else Ret (mkDisposableSet (ds_items d ++ [v]) false).

Definition ds_dispose (d : DisposableSet) : M unit :=
  if ds_disposed d then mret ()
  else mapM (λ v, log (TrDisposeItem v)) (ds_items d) ;; mret ().

Definition ds_after_dispose : DisposableSet := mkDisposableSet [] true.

(** ** Object heap access *)

Definition get_point (p : nat) : M ExtensionPoint := λ s, (Ret (points s !!! p), s).
Definition get_extension (e : nat) : M Extension := λ s, (Ret (extensions s !!! e), s).
Definition get_plugin (pl : nat) : M Plugin := λ s, (Ret (plugins s !!! pl), s).

Definition upd_point (p : nat) (f : ExtensionPoint → ExtensionPoint) : M unit :=
  modify (with_points (alter f p)).
Definition upd_extension (e : nat) (f : Extension → Extension) : M unit :=
  modify (with_extensions (alter f e)).
Definition upd_plugin (pl : nat) (f : Plugin → Plugin) : M unit :=
  modify (with_plugins (alter f pl)).

Definition set_ep_initialized (b : bool) (x : ExtensionPoint) : ExtensionPoint :=
  mkExtensionPoint (ep_id x) (ep_receiver x) (ep_module x) (ep_initializer x)
    b (ep_receiverFunc x) (ep_disposables x).
Definition set_ep_receiverFunc (f : option Member) (x : ExtensionPoint) : ExtensionPoint :=
  mkExtensionPoint (ep_id x) (ep_receiver x) (ep_module x) (ep_initializer x)
    (ep_initialized x) f (ep_disposables x).
Definition set_ep_disposables (d : DisposableSet) (x : ExtensionPoint) : ExtensionPoint :=
  mkExtensionPoint (ep_id x) (ep_receiver x) (ep_module x) (ep_initializer x)
    (ep_initialized x) (ep_receiverFunc x) d.

Definition set_ex_extension (c : option Contribution) (x : Extension) : Extension :=
  mkExtension (ex_point x) (ex_loader x) (ex_module x) (ex_data x)
    (ex_initializer x) c (ex_disposables x).
Definition set_ex_disposables (d : DisposableSet) (x : Extension) : Extension :=
  mkExtension (ex_point x) (ex_loader x) (ex_module x) (ex_data x)
    (ex_initializer x) (ex_extension x) d.

Definition set_pl_extensionPoints (l : option (list IExtensionPointJSON)) (x : Plugin) : Plugin :=
  mkPlugin (pl_name x) (pl_module x) (pl_initializer x) l (pl_extensions x)
    (pl_disposables x).
Definition set_pl_extensions (l : option (list IExtensionJSON)) (x : Plugin) : Plugin :=
  mkPlugin (pl_name x) (pl_module x) (pl_initializer x) (pl_extensionPoints x) l
    (pl_disposables x).
Definition set_pl_disposables (d : DisposableSet) (x : Plugin) : Plugin :=
  mkPlugin (pl_name x) (pl_module x) (pl_initializer x) (pl_extensionPoints x)
    (pl_extensions x) d.

(** [this._disposables.add(v)] on each kind of owner. *)
Definition point_add_disposable (p : nat) (v : Value) : M unit :=
  x ← get_point p;
  match ds_add v (ep_disposables x) with
  | Ret d => upd_point p (set_ep_disposables d)
  | Throw e => throw e
  end.
Definition extension_add_disposable (e : nat) (v : Value) : M unit :=
  x ← get_extension e;
  match ds_add v (ex_disposables x) with
  | Ret d => upd_extension e (set_ex_disposables d)
  | Throw err => throw err
  end.
Definition plugin_add_disposable (pl : nat) (v : Value) : M unit :=
  x ← get_plugin pl;
  match ds_add v (pl_disposables x) with
  | Ret d => upd_plugin pl (set_pl_disposables d)
  | Throw e => throw e
  end.

(** ** [class Extension] *)

(** [new Extension(options)] *)
Definition new_Extension (o : IExtensionJSON) : M nat := λ s,
  (Ret (length (extensions s)),
   with_extensions (λ l, l ++
     [mkExtension (ej_point o) (ej_loader o) (ej_module o) (ej_data o)
        (ej_initializer o)
        (Some (mkContribution (ej_config o) VUndefined VUndefined))
        new_DisposableSet]) s).

Definition Extension_dispose (e : nat) : M unit :=
  upd_extension e (set_ex_extension None) ;;
  x ← get_extension e;
  ds_dispose (ex_disposables x) ;;
  upd_extension e (set_ex_disposables ds_after_dispose).

Definition Extension_initialize (e : nat) : M nat :=
  upd_extension e (set_ex_extension None) ;;
  x ← get_extension e;
  if truthy (ex_initializer x) then
    i ← system_import (ex_module x);
    then_ i (KExtInit e)
  else
    promise_resolve VUndefined.

(** [mod => { var initializer = mod[this._initializer]; return initializer().then(...) }] *)
Definition Extension_initialize_k1 (e : nat) (mod_ : Value) : M Value :=
  x ← get_extension e;
  initializer ← get_member mod_ (to_str (ex_initializer x));
  r ← call_member (TrExtInitializer e) initializer;
  value_then r (KExtInitDone e).

(** [(disposable) => { if (disposable.hasOwnProperty('dispose')) ... }] *)
Definition Extension_initialize_k2 (e : nat) (disposable : Value) : M Value :=
  b ← hasOwnProperty_dispose disposable;
  (if b : bool then extension_add_disposable e disposable else mret ()) ;;
  mret VUndefined.

Definition Extension__loadData (e : nat) : M nat :=
  x ← get_extension e;
  if negb (truthy (ex_data x)) then
    promise_resolve VUndefined
  else
    i ← system_import (ex_data x);
    then_ i (KSetData e).

(** [data => { this._extension.data = data; return void 0; }] *)
Definition Extension__loadData_k (e : nat) (data : Value) : M Value :=
  x ← get_extension e;
  match ex_extension x with
  | None => throw TypeError
  | Some c =>
      upd_extension e (set_ex_extension
        (Some (mkContribution (c_config c) data (c_object c)))) ;;
      mret VUndefined
  end.

Definition Extension__loadObject (e : nat) : M nat :=
  x ← get_extension e;
  if negb (truthy (ex_loader x)) then
    promise_resolve VUndefined
  else
    i ← system_import (ex_module x);
    then_ i (KLoadObject e).

(** [mod => { var loader = mod[this._loader]; return loader().then(...) }] *)
Definition Extension__loadObject_k1 (e : nat) (mod_ : Value) : M Value :=
  x ← get_extension e;
  loader ← get_member mod_ (to_str (ex_loader x));
  r ← call_member (TrLoader e) loader;
  value_then r (KSetObject e).

(** [(result) => { this._extension.object = result; return void 0; }] *)
Definition Extension__loadObject_k2 (e : nat) (result : Value) : M Value :=
  x ← get_extension e;
  match ex_extension x with
  | None => throw TypeError
  | Some c =>
      upd_extension e (set_ex_extension
        (Some (mkContribution (c_config c) (c_data c) result))) ;;
      mret VUndefined
  end.

Definition Extension_load (e : nat) : M nat :=
  d ← Extension__loadData e;
  o ← Extension__loadObject e;
  a ← promise_all [d; o];
  then_ a (KLoadDone e).

(** [() => { return this._extension; }] *)
Definition Extension_load_k (e : nat) : M Value :=
  x ← get_extension e;
  mret (contribution_value (ex_extension x)).

(** ** [class ExtensionPoint] *)

(** [new ExtensionPoint(options)] *)
Definition new_ExtensionPoint (o : IExtensionPointJSON) : M nat := λ s,
  (Ret (length (points s)),
   with_points (λ l, l ++
     [mkExtensionPoint (pj_id o) (pj_receiver o) (pj_module o) (pj_initializer o)
        false None new_DisposableSet]) s).

Definition ExtensionPoint_dispose (p : nat) : M unit :=
  x ← get_point p;
  modify (with_allExtensionPoints (delete (ep_id x))) ;;
  upd_point p (set_ep_receiverFunc None) ;;
  ds_dispose (ep_disposables x) ;;
  upd_point p (set_ep_disposables ds_after_dispose).

Definition ExtensionPoint__initialize (p : nat) : M nat :=
  x ← get_point p;
  if ep_initialized x || negb (truthy (ep_initializer x)) then
    upd_point p (set_ep_initialized true) ;;
    promise_resolve VUndefined
  else
    upd_point p (set_ep_initialized true) ;;
    i ← system_import (ep_module x);
    then_ i (KPointInit p).

(** [mod => { return mod[this._initializer]().then(...) }] *)
Definition ExtensionPoint__initialize_k1 (p : nat) (mod_ : Value) : M Value :=
  x ← get_point p;
  initializer ← get_member mod_ (to_str (ep_initializer x));
  r ← call_member (TrPointInitializer p) initializer;
  value_then r (KPointInitDone p).

(** [(result) => { if (result.hasOwnProperty('dispose')) ... }] *)
Definition ExtensionPoint__initialize_k2 (p : nat) (result : Value) : M Value :=
  b ← hasOwnProperty_dispose result;
  (if b : bool then point_add_disposable p result else mret ()) ;;
  mret VUndefined.

Definition ExtensionPoint__load (p : nat) : M nat :=
  x ← get_point p;
  i ← system_import (ep_module x);
  then_ i (KLoad p).

(** [mod => { this._receiverFunc = mod[this._receiver].bind(this);
             return this._initialize(); }] *)
Definition ExtensionPoint__load_k (p : nat) (mod_ : Value) : M Value :=
  x ← get_point p;
  f ← get_member mod_ (ep_receiver x);
  match f with
  | MAbsent => throw TypeError
  | _ =>
      upd_point p (set_ep_receiverFunc (Some f)) ;;
      r ← ExtensionPoint__initialize p;
      mret (VPromise r)
  end.

Definition ExtensionPoint__connectExtension (p e : nat) : M nat :=
  x ← get_point p;
  let receiver := ep_receiverFunc x in
  l ← Extension_load e;
  then_ l (KReceive p e receiver).

(** [(result) => { var disposable = receiver(result); ...;
                  return extension.initialize(); }] *)
Definition ExtensionPoint__connectExtension_k
    (p e : nat) (receiver : option Member) (result : Value) : M Value :=
  disposable ←
    match receiver with
    | None => throw TypeError
    | Some f => call_member (TrReceiver p e result) f
    end;
  b ← hasOwnProperty_dispose disposable;
  (if b : bool then point_add_disposable p disposable else mret ()) ;;
  r ← Extension_initialize e;
  mret (VPromise r).

Definition ExtensionPoint_connect (p e : nat) : M nat :=
  log (TrConnect p e) ;;
  x ← get_point p;
  if negb (ep_initialized x) then
    l ← ExtensionPoint__load p;
    then_ l (KConnect p e)
  else
    ExtensionPoint__connectExtension p e.

(** ** The two registries *)

Definition loadExtensionPoint (config : IExtensionPointJSON) : M nat :=
  point ← new_ExtensionPoint config;
  modify (with_allExtensionPoints <[pj_id config := point]>) ;;
  s ← get_state;
  match allExtensions s !! pj_id config with
  | None => promise_resolve (VPoint point)
  | Some exts =>
      modify (with_allExtensions (delete (pj_id config))) ;;
      ps ← mapM (ExtensionPoint_connect point) exts;
      a ← promise_all ps;
      then_ a (KReturn (VPoint point))
  end.

Definition loadExtension (config : IExtensionJSON) : M nat :=
  extension ← new_Extension config;
  s ← get_state;
  match allExtensionPoints s !! ej_point config with
  | Some point =>
      c ← ExtensionPoint_connect point extension;
      then_ c (KReturn (VExtension extension))
  | None =>
      let exts := default [] (allExtensions s !! ej_point config) in
      modify (with_allExtensions <[ej_point config := exts ++ [extension]]>) ;;
      promise_resolve (VExtension extension)
  end.

(** ** [class Plugin] *)

(** [new Plugin(name, options)] *)
Definition new_Plugin (name : string) (o : IPluginJSON) : M nat := λ s,
  (Ret (length (plugins s)),
   with_plugins (λ l, l ++
     [mkPlugin name (name +:+ "/" +:+ to_str (gj_module o)) (gj_initializer o)
        (gj_extensionPoints o) (gj_extensions o) new_DisposableSet]) s).

Definition Plugin_dispose (pl : nat) : M unit :=
  upd_plugin pl (set_pl_extensions None) ;;
  upd_plugin pl (set_pl_extensionPoints None) ;;
  x ← get_plugin pl;
  ds_dispose (pl_disposables x) ;;
  upd_plugin pl (set_pl_disposables ds_after_dispose).

(** [(result) => { if (result.hasOwnProperty('dispose')) this._disposables.add(result) }] *)
Definition Plugin_add_k (pl : nat) (result : Value) : M Value :=
  b ← hasOwnProperty_dispose result;
  (if b : bool then plugin_add_disposable pl result else mret ()) ;;
  mret VUndefined.

(** [(error) => { console.error(error); }] *)
Definition log_error_k (error : Value) : M Value :=
  log (TrConsoleError error) ;;
  mret VUndefined.

(** The declaration objects are shared with the plugin's list, so the
    assignment to [point.module] is visible in [this._extensionPoints]:
    the entry is addressed by its index [i]. *)
Definition Plugin__loadExtensionPoint (pl i : nat) : M nat :=
  x ← get_plugin pl;
  match default [] (pl_extensionPoints x) !! i with
  | None => throw TypeError
  | Some point =>
      let point' :=
        mkPointJSON (pj_id point) (pj_receiver point)
          (match pj_module point with
           | Some m => Some (pl_name x +:+ "/" +:+ m)
           | None => Some (pl_module x)
           end)
          (pj_initializer point) in
      upd_plugin pl (λ x, set_pl_extensionPoints
        (option_map <[i := point']> (pl_extensionPoints x)) x) ;;
      r ← loadExtensionPoint point';
      t ← then_ r (KAddDisposable pl);
      catch_ t KLogError
  end.

Definition Plugin__loadExtension (pl i : nat) : M nat :=
  x ← get_plugin pl;
  match default [] (pl_extensions x) !! i with
  | None => throw TypeError
  | Some extension =>
      let extension' :=
        mkExtJSON (ej_point extension) (ej_loader extension)
          (match ej_data extension with
           | Some d => Some (pl_name x +:+ "/" +:+ d)
           | None => None
           end)
          (ej_config extension)
          (match ej_module extension with
           | Some m => Some (pl_name x +:+ "/" +:+ m)
           | None => Some (pl_module x)
           end)
          (ej_initializer extension) in
      upd_plugin pl (λ x, set_pl_extensions
        (option_map <[i := extension']> (pl_extensions x)) x) ;;
      r ← loadExtension extension';
      t ← then_ r (KAddDisposable pl);
      catch_ t KLogError
  end.

Definition Plugin__initialize (pl : nat) : M nat :=
  upd_plugin pl (set_pl_extensionPoints (Some [])) ;;
  upd_plugin pl (set_pl_extensions (Some [])) ;;
  x ← get_plugin pl;
  if truthy (pl_initializer x) then
    i ← system_import (Some (pl_module x));
    t ← then_ i (KPluginInit pl);
    catch_ t KLogError
  else
    promise_resolve VUndefined.

(** [mod => { var initializer = mod[this._initializer];
             var disposable = initializer(); ... }] *)
Definition Plugin__initialize_k (pl : nat) (mod_ : Value) : M Value :=
  x ← get_plugin pl;
  initializer ← get_member mod_ (to_str (pl_initializer x));
  disposable ← call_member (TrPluginInitializer pl) initializer;
  b ← hasOwnProperty_dispose disposable;
  (if b : bool then plugin_add_disposable pl disposable else mret ()) ;;
  mret VUndefined.

Definition Plugin_load (pl : nat) : M nat :=
  x ← get_plugin pl;
  ps1 ← match pl_extensionPoints x with
        | Some l => mapM (Plugin__loadExtensionPoint pl) (seq 0 (length l))
        | None => mret []
        end;
  x ← get_plugin pl;
  ps2 ← match pl_extensions x with
        | Some l => mapM (Plugin__loadExtension pl) (seq 0 (length l))
        | None => mret []
        end;
  a ← promise_all (ps1 ++ ps2);
  then_ a (KPluginLoaded pl).

(** [() => this._initialize.bind(this)]: the callback evaluates to the bound
    method; it does not call it. *)
Definition Plugin_load_k (pl : nat) : M Value :=
  mret (VBoundInitialize pl).

(** ** The plugin manager *)

(** [s.indexOf(needle)], counted from offset [n]; [None] stands for [-1]. *)
Fixpoint index_from (n : nat) (needle s : string) : option nat :=
  if String.prefix needle s then Some n
  else match s with
       | EmptyString => None
       | String _ s' => index_from (S n) needle s'
       end.

(** [s.lastIndexOf(needle)], counted from offset [n]. *)
Fixpoint last_index_from (n : nat) (needle s : string) : option nat :=
  match s with
  | EmptyString => if String.prefix needle s then Some n else None
  | String _ s' =>
      match last_index_from (S n) needle s' with
      | Some i => Some i
      | None => if String.prefix needle s then Some n else None
      end
  end.

(** [index > 0 && index === lastIndex] *)
Definition one_node_modules (fileUrl : string) : bool :=
  match index_from 0 "node_modules" fileUrl, last_index_from 0 "node_modules" fileUrl with
  | Some i, Some j => negb (Nat.eqb i 0) && Nat.eqb i j
  | _, _ => false
  end.

Definition listPlugins : M (list string) :=
  s ← get_state;
  mret (elements (dom (availablePlugins s))).

(** The guard of the loop body reads the variable [name], which is not the
    callback's parameter [key]: it is the global of that name
    ([windowName]). *)
Definition getPluginNames : M (list string) :=
  s ← get_state;
  mret (omap (λ '(key, obj),
    if js_in (windowName s) (availablePlugins s)
       || js_in (windowName s) (loadedPlugins s)
    then None
    else if one_node_modules (npm_fileUrl obj) then Some (npm_name obj)
    else None) (npm s)).

Definition loadPackage (name : string) : M nat :=
  i ← system_import (Some (name +:+ "/package.json"));
  t ← then_ i (KAddPackage name);
  catch_ t KLogError.

Definition addPackage (name : string) (config : Value) : M unit :=
  match config with
  | VUndefined | VNull => throw TypeError
  | VPackage main (Some pconfig) =>
      let pconfig' :=
        mkPluginJSON
          (if truthy (gj_module pconfig) then gj_module pconfig else main)
          (gj_initializer pconfig) (gj_extensionPoints pconfig)
          (gj_extensions pconfig) in
      pl ← new_Plugin name pconfig';
      modify (with_availablePlugins <[name := SlotPlugin pl]>)
  | _ => mret ()
  end.

(** [config => { addPackage(name, config); }] *)
Definition loadPackage_k (name : string) (config : Value) : M Value :=
  addPackage name config ;;
  mret VUndefined.

Definition gatherPlugins : M nat :=
  names ← getPluginNames;
  ps ← mapM loadPackage names;
  a ← promise_all ps;
  then_ a (KReturn VUndefined).

Definition fetchPlugins : M nat :=
  s ← get_state;
  if bool_decide (availablePlugins s ≠ ∅) then
    log (TrSystemDelete "package.json!npm") ;;
    i ← system_import (Some "package.json!npm");
    then_ i KGatherPlugins
  else
    modify (with_availablePlugins (λ _, ∅)) ;;
    gatherPlugins.

Definition loadPlugin (name : string) : M nat :=
  s ← get_state;
  match js_get (availablePlugins s) name with
  | None => throw (VError "Plugin not in registry")
  | Some plugin =>
      modify (with_availablePlugins (delete name)) ;;
      modify (with_loadedPlugins <[name := plugin]>) ;;
      match plugin with
      | SlotPlugin pl => Plugin_load pl
      | SlotBuiltin _ => throw TypeError
      end
  end.

Definition unloadPlugin (name : string) : M unit :=
  s ← get_state;
  match js_get (loadedPlugins s) name with
  | None => mret ()
  | Some (SlotPlugin pl) => Plugin_dispose pl
  | Some (SlotBuiltin _) => throw TypeError
  end.

(** ** Running the callbacks *)

Definition run_cont (k : Cont) (v : Value) : M Value :=
  match k with
  | KConnect p e => r ← ExtensionPoint__connectExtension p e; mret (VPromise r)
  | KLoad p => ExtensionPoint__load_k p v
  | KPointInit p => ExtensionPoint__initialize_k1 p v
  | KPointInitDone p => ExtensionPoint__initialize_k2 p v
  | KReceive p e receiver => ExtensionPoint__connectExtension_k p e receiver v
  | KExtInit e => Extension_initialize_k1 e v
  | KExtInitDone e => Extension_initialize_k2 e v
  | KLoadDone e => Extension_load_k e
  | KSetData e => Extension__loadData_k e v
  | KLoadObject e => Extension__loadObject_k1 e v
  | KSetObject e => Extension__loadObject_k2 e v
  | KReturn w => mret w
  | KPluginLoaded pl => Plugin_load_k pl
  | KAddDisposable pl => Plugin_add_k pl v
  | KLogError => log_error_k v
  | KPluginInit pl => Plugin__initialize_k pl v
  | KGatherPlugins => r ← gatherPlugins; mret (VPromise r)
  | KAddPackage name => loadPackage_k name v
  end.

(** A callback's return value resolves the dependent promise, a thrown value
    rejects it. *)
Definition run_handler (k : Cont) (v : Value) (child : nat) : M unit := λ s,
  match run_cont k v s with
  | (Ret w, s') => resolve child w s'
  | (Throw e, s') => settle child (Rejected e) s'
  end.

Definition all_element_fulfilled (agg : nat) : M unit := λ s,
  match promises s !! agg with
  | Some c =>
      let n := pred (p_remaining c) in
      (modify (with_promises
         <[agg := mkCell (p_state c) (p_reactions c) (p_external c) n]>) ;;
       if Nat.eqb n 0 then settle agg (Fulfilled VArray) else mret ()) s
  | None => (Ret (), s)
  end.

Definition run_microtask (m : Microtask) : M unit :=
  match m with
  | MReaction (RThen k c) (Fulfilled v) => run_handler k v c
  | MReaction (RThen k c) (Rejected e) => settle c (Rejected e)
  | MReaction (RCatch k c) (Fulfilled v) => settle c (Fulfilled v)
  | MReaction (RCatch k c) (Rejected e) => run_handler k e c
  | MReaction (RForward c) o => settle c o
  | MReaction (RAll agg) (Fulfilled _) => all_element_fulfilled agg
  | MReaction (RAll agg) (Rejected e) => settle agg (Rejected e)
  | MAdopt c src => subscribe src (RForward c)
  end.

(** Run the [i]-th queued job ([i = 0] is the order of the real job queue). *)
Definition tick (i : nat) : M unit := λ s,
  match microtasks s !! i with
  | Some m => run_microtask m (with_microtasks (delete i) s)
  | None => (Ret (), s)
  end.

(** The environment settles a pending promise that it owns. *)
Definition env_settle (p : nat) (o : Outcome) : M unit := λ s,
  match promises s !! p with
  | Some c =>
      if p_external c then
        match o with
        | Fulfilled v => resolve p v s
        | Rejected _ => settle p o s
        end
      else (Ret (), s)
  | None => (Ret (), s)
  end.

(** ** Events: calls of the exported functions, jobs, the environment *)

Inductive Event :=
| CallLoadExtensionPoint (config : IExtensionPointJSON)
| CallLoadExtension (config : IExtensionJSON)
| CallConnect (p e : nat)
| CallDisposePoint (p : nat)
| CallDisposeExtension (e : nat)
| CallFetchPlugins
| CallLoadPlugin (name : string)
| CallUnloadPlugin (name : string)
| Tick (i : nat)
| Settle (p : nat) (o : Outcome).

Definition exec (ev : Event) : M Value :=
  match ev with
  | CallLoadExtensionPoint config => r ← loadExtensionPoint config; mret (VPromise r)
  | CallLoadExtension config => r ← loadExtension config; mret (VPromise r)
  | CallConnect p e => r ← ExtensionPoint_connect p e; mret (VPromise r)
  | CallDisposePoint p => ExtensionPoint_dispose p ;; mret VUndefined
  | CallDisposeExtension e => Extension_dispose e ;; mret VUndefined
  | CallFetchPlugins => r ← fetchPlugins; mret (VPromise r)
  | CallLoadPlugin name => r ← loadPlugin name; mret (VPromise r)
  | CallUnloadPlugin name => unloadPlugin name ;; mret VUndefined
  | Tick i => tick i ;; mret VUndefined
  | Settle p o => env_settle p o ;; mret VUndefined
  end.

Definition step (ev : Event) (s : State) : State := (exec ev s).2.

Definition run (evs : list Event) (s : State) : State := foldl (λ s ev, step ev s) s evs.

(** Run queued jobs in queue order until none is left. *)
Fixpoint drain (fuel : nat) (s : State) : State :=
  match fuel with
  | 0 => s
  | S fuel =>
      match microtasks s with
      | [] => s
      | _ => drain fuel (step (Tick 0) s)
      end
  end.

Definition promise_state (s : State) (p : nat) : option Outcome :=
  c ← promises s !! p; p_state c.

(** ** Observations on traces and states *)

Definition is_point_initializer (p : nat) (ev : TraceEvent) : bool :=
  match ev with
  | TrPointInitializer q => Nat.eqb q p
  | _ => false
  end.

(** How often the initializer of point [p] was invoked. *)
Definition inits (p : nat) (t : list TraceEvent) : nat :=
  length (filter (λ ev, is_point_initializer p ev = true) t).

Definition is_plugin_initializer (ev : TraceEvent) : bool :=
  match ev with
  | TrPluginInitializer _ => true
  | _ => false
  end.

(** The [connect] calls of a trace, as pairs (point, extension). *)
Definition connects (t : list TraceEvent) : list (nat * nat) :=
  omap (λ ev, match ev with TrConnect p e => Some (p, e) | _ => None end) t.

(** The paths handed to [System.import]. *)
Definition imports (t : list TraceEvent) : list (option string) :=
  omap (λ ev, match ev with TrImport path _ => Some path | _ => None end) t.

(** The callbacks and trace events that no particular invariant singles
    out. *)
Definition generic_cont (k : Cont) : bool :=
  match k with
  | KPointInit _ | KSetData _ | KLoadObject _ | KSetObject _ => false
  | _ => true
  end.

Definition generic_event (ev : TraceEvent) : bool :=
  match ev with
  | TrConnect _ _ | TrPointInitializer _ => false
  | _ => true
  end.

(** Jobs and environment events, as opposed to calls into the program. *)
Definition is_job (ev : Event) : bool :=
  match ev with
  | Tick _ | Settle _ _ => true
  | _ => false
  end.

Definition pres (I : State → Prop) {A} (m : M A) : Prop :=
  ∀ s, I s → I (m s).2.

(** What registration is about: the object counts, the two registries and
    the [connect] calls made so far. *)
Definition frame (s : State)
    : nat * nat * gmap string nat * gmap string (list nat) * list (nat * nat) :=
  (length (points s), length (extensions s), allExtensionPoints s,
   allExtensions s, connects (trace s)).

Definition returns {A} (m : M A) : Prop :=
  ∀ s, ∃ a, (m s).1 = Ret a.

Definition hoare (P Q : State → Prop) {A} (m : M A) : Prop :=
  ∀ s, P s → Q (m s).2.

(** Callbacks that are still to run and will invoke the initializer of
    point [p]. *)
Definition cont_pend (p : nat) (k : Cont) : nat :=
  match k with
  | KPointInit q => if Nat.eqb q p then 1 else 0
  | _ => 0
  end.

Definition reaction_pend (p : nat) (r : Reaction) : nat :=
  match r with
  | RThen k _ | RCatch k _ => cont_pend p k
  | _ => 0
  end.

Definition cell_pend (p : nat) (c : PromiseCell) : nat :=
  sum_list_with (reaction_pend p) (p_reactions c).

Definition task_pend (p : nat) (m : Microtask) : nat :=
  match m with
  | MReaction r _ => reaction_pend p r
  | MAdopt _ _ => 0
  end.

Definition pend (p : nat) (s : State) : nat :=
  sum_list_with (cell_pend p) (promises s) + sum_list_with (task_pend p) (microtasks s).

Definition flag (p : nat) (s : State) : nat :=
  if ep_initialized (points s !!! p) then 1 else 0.

(** Invocations made, plus invocations still to come, plus [slack p]
    invocations about to be made, are covered by the flag of the point. *)
Definition once_inv (slack : nat → nat) (s : State) : Prop :=
  ∀ p, inits p (trace s) + pend p s + slack p ≤ flag p s.

(** ** Promises that cannot reject

    [closed S s]: the promise heap of [s] is well formed, and every promise
    in the set [S] is settled only by a reaction that fulfils it: a [catch]
    whose handler is the logging callback, or a reaction that passes on the
    fulfilment of another member of [S]. *)

Definition target (r : Reaction) : nat :=
  match r with
  | RThen _ c | RCatch _ c | RForward c | RAll c => c
  end.

Definition catches (r : Reaction) : bool :=
  match r with
  | RCatch KLogError _ => true
  | _ => false
  end.

Definition quiet (r : Reaction) : bool :=
  match r with
  | RThen (KPluginLoaded _) _ | RForward _ | RAll _ => true
  | _ => false
  end.

Definition fulfilled (o : Outcome) : bool :=
  match o with
  | Fulfilled _ => true
  | Rejected _ => false
  end.

Definition reaction_ok (S : nat → bool) (n p : nat) (r : Reaction) : Prop :=
  target r < n ∧
  (S (target r) = true → catches r = true ∨ (quiet r = true ∧ S p = true)).

Definition cell_ok (S : nat → bool) (n p : nat) (c : PromiseCell) : Prop :=
  Forall (reaction_ok S n p) (p_reactions c) ∧
  (S p = true → p_external c = false ∧ ∀ e, p_state c ≠ Some (Rejected e)).

Definition task_ok (S : nat → bool) (n : nat) (m : Microtask) : Prop :=
  match m with
  | MReaction r o =>
      target r < n ∧
      (S (target r) = true →
       catches r = true ∨ (quiet r = true ∧ fulfilled o = true))
  | MAdopt c src => c < n ∧ S c = false
  end.

Definition closed (S : nat → bool) (s : State) : Prop :=
  (∀ q, S q = true → q < length (promises s)) ∧
  (∀ p c, promises s !! p = Some c → cell_ok S (length (promises s)) p c) ∧
  Forall (task_ok S (length (promises s))) (microtasks s).

Definition add_member (S : nat → bool) (c : nat) : nat → bool :=
  λ q, S q || Nat.eqb q c.

(** [S'] has every member of [S]. *)
Definition extends (S S' : nat → bool) : Prop := ∀ q, S q = true → S' q = true.

(** [m] keeps the heap closed for a larger set, which has the promise that
    [m] returns. *)
Definition joins (m : M nat) : Prop :=
  ∀ S s, closed S s →
    ∃ S', extends S S' ∧ closed S' (m s).2 ∧ ∀ c, (m s).1 = Ret c → S' c = true.

Definition joins_all (m : M (list nat)) : Prop :=
  ∀ S s, closed S s →
    ∃ S', extends S S' ∧ closed S' (m s).2 ∧
      ∀ cs, (m s).1 = Ret cs → Forall (λ c, S' c = true) cs.

(** ** What a plugin declares, and where a loaded extension is

    The ids of the extension points that plugin [pl] declares, and the ids
    of the points that its extensions contribute to. *)
Definition point_ids (s : State) (pl : nat) : list string :=
  pj_id <$> default [] (pl_extensionPoints (plugins s !!! pl)).

Definition extension_points (s : State) (pl : nat) : list string :=
  ej_point <$> default [] (pl_extensions (plugins s !!! pl)).

(** Extension [e], a contribution to the point with id [pt], has been passed
    to [connect] of the point registered under that id, or it is on the
    waiting list of that id. *)
Definition placed (s : State) (pt : string) (e : nat) : Prop :=
  (∃ p, allExtensionPoints s !! pt = Some p ∧ (p, e) ∈ connects (trace s)) ∨
  e ∈ default [] (allExtensions s !! pt).

(** The rejection of promise [t] goes to [console.error]: while [t] is
    pending the logging callback of [t.catch(...)], which settles [c], is
    among its reactions; once [t] is rejected, the job that runs the callback
    is queued or the error has been logged. *)
Definition logged (t c : nat) (s : State) : Prop :=
  match promises s !! t with
  | Some cell =>
      match p_state cell with
      | None => RCatch KLogError c ∈ p_reactions cell
      | Some (Fulfilled _) => True
      | Some (Rejected err) =>
          MReaction (RCatch KLogError c) (Rejected err) ∈ microtasks s ∨
          TrConsoleError err ∈ trace s
      end
  | None => False
  end.

(** ** The registration state and its moves

    The part of a state that registration is about, as [frame] gives it: the
    numbers of points and of extensions, the registry of points, the waiting
    lists, and the [connect] calls made. *)
Definition Frame : Type :=
  nat * nat * gmap string nat * gmap string (list nat) * list (nat * nat).

(** The moves of the registration state: [loadExtensionPoint],
    [loadExtension] for an id that has no point and for an id that has one,
    [ExtensionPoint.dispose], and, when [direct] is set, a call of
    [ExtensionPoint.connect] by other means. *)
Inductive reg_step (direct : bool) : Frame → Frame → Prop :=
| reg_point np ne X Q C id :
    reg_step direct (np, ne, X, Q, C)
      (S np, ne, <[id := np]> X, delete id Q,
       C ++ ((λ e, (np, e)) <$> default [] (Q !! id)))
| reg_waiting np ne X Q C id :
    X !! id = None →
    reg_step direct (np, ne, X, Q, C)
      (np, S ne, X, <[id := default [] (Q !! id) ++ [ne]]> Q, C)
| reg_connected np ne X Q C id p :
    X !! id = Some p →
    reg_step direct (np, ne, X, Q, C) (np, S ne, X, Q, C ++ [(p, ne)])
| reg_dispose np ne X Q C id :
    reg_step direct (np, ne, X, Q, C) (np, ne, delete id X, Q, C)
| reg_connect np ne X Q C p e :
    direct = true →
    reg_step direct (np, ne, X, Q, C) (np, ne, X, Q, C ++ [(p, e)]).

(** A call of [ExtensionPoint.connect] that does not come from
    [loadExtensionPoint] or [loadExtension]. *)
Definition is_connect (ev : Event) : bool :=
  match ev with
  | CallConnect _ _ => true
  | _ => false
  end.

(** [m] changes the registration state by moves only. *)
Definition moves (direct : bool) {A} (m : M A) : Prop :=
  ∀ s, rtc (reg_step direct) (frame s) (frame (m s).2).

(** No id has both a registered point and a waiting list. *)
Definition settled_ids (f : Frame) : Prop :=
  match f with
  | (_, _, X, Q, _) => ∀ id, X !! id = None ∨ Q !! id = None
  end.

(** No extension is passed to [connect] twice, no waiting list has an
    extension twice, no two waiting lists share an extension, no connected
    extension waits, and the extensions that are connected or waiting are
    the extensions that exist. *)
Definition well_placed (f : Frame) : Prop :=
  match f with
  | (_, ne, _, Q, C) =>
      NoDup C.*2 ∧
      (∀ id l, Q !! id = Some l → NoDup l) ∧
      (∀ id id' l l' e,
         Q !! id = Some l → Q !! id' = Some l' → e ∈ l → e ∈ l' → id = id') ∧
      (∀ e id l, e ∈ C.*2 → Q !! id = Some l → e ∉ l) ∧
      (∀ e, e < ne ↔ e ∈ C.*2 ∨ ∃ id l, Q !! id = Some l ∧ e ∈ l)
  end.

(** ** Occurrences of a substring *)

(** The suffix of [s] at offset [i]; none beyond the end. *)
Fixpoint string_drop (i : nat) (s : string) : option string :=
  match i, s with
  | 0, _ => Some s
  | S i, String _ s' => string_drop i s'
  | S _, EmptyString => None
  end.

(** [needle] occurs in [s] at offset [i]. *)
Definition occurs_at (needle s : string) (i : nat) : Prop :=
  ∃ t, string_drop i s = Some t ∧ String.prefix needle t = true.

(** [needle] occurs in [s] once, and not at the start. *)
Definition occurs_once_inside (needle s : string) : Prop :=
  ∃ i, 0 < i ∧ occurs_at needle s i ∧ ∀ j, occurs_at needle s j → j = i.

(** Everything in a state except the promise heap and the job queue. *)
Definition objects (s : State) :=
  (points s, extensions s, plugins s, allExtensionPoints s, allExtensions s,
   availablePlugins s, loadedPlugins s, trace s).

(** ** Example declarations *)

Definition foo_npm : list (string * NpmPackage) :=
  [("foo@1.0.0", mkNpm "foo" "http://localhost/node_modules/foo@1.0.0")].

Definition foo_point : IExtensionPointJSON :=
  mkPointJSON "foo:point" "recv" None None.

Definition foo_extension : IExtensionJSON :=
  mkExtJSON "bar:point" None None 7 None None.

(** [package.json] of plugin [foo]: one extension point, one extension and a
    plugin-level initializer. *)
Definition foo_package : Value :=
  VPackage (Some "index")
    (Some (mkPluginJSON None (Some "init") (Some [foo_point]) (Some [foo_extension]))).

(** [foo] has been fetched and is available. *)
Definition foo_fetched : State :=
  drain 10 (run [CallFetchPlugins; Settle 0 (Fulfilled foo_package)] (start foo_npm "")).

(** [foo] has been loaded through the manager and every job has run. *)
Definition foo_loaded : State :=
  drain 20 (run [CallLoadPlugin "foo"] foo_fetched).

(** [foo] is available and [fetchPlugins] is called once more; the loader
    answers both imports. *)
Definition foo_refetched : State :=
  drain 10 (run [Settle 7 (Fulfilled foo_package)]
    (drain 10 (run [CallFetchPlugins; Settle 5 (Fulfilled VUndefined)] foo_fetched))).

(** A module exporting a receiver and an asynchronous initializer. *)
Definition index_module : Value :=
  VModule [("recv", MReturns (VDisposable 1)); ("init", MAsync)].

Definition init_point : IExtensionPointJSON :=
  mkPointJSON "foo:point" "recv" (Some "foo/index") (Some "init").

Definition plain_extension : IExtensionJSON :=
  mkExtJSON "foo:point" None None 7 (Some "bar/index") None.

(** A point with an initializer is registered, an extension connects, the
    module loads, and the promise returned by the initializer rejects. *)
Definition failed_initializer : State :=
  drain 10 (run [Settle 7 (Rejected (VError "boom"))]
    (drain 10 (run [Settle 5 (Fulfilled index_module)]
      (drain 10 (run [CallLoadExtensionPoint init_point;
                      CallLoadExtension plain_extension;
                      Settle 1 (Fulfilled index_module)] init_state))))).

(** A state holding one extension object, as [initialize] leaves it. *)
Definition initialized_extension (loader data : option string) : State :=
  with_extensions (λ _,
    [mkExtension "foo:point" loader (Some "bar/index") data None None
       new_DisposableSet]) init_state.

(** A state holding one extension object, as its constructor leaves it. *)
Definition fresh_object (loader data : option string) : Extension :=
  mkExtension "foo:point" loader (Some "bar/index") data None
    (Some (mkContribution 7 VUndefined VUndefined)) new_DisposableSet.

Definition fresh_extension (loader data : option string) : State :=
  with_extensions (λ _, [fresh_object loader data]) init_state.

(** The point [init_point] is registered and nothing else has happened. *)
Definition point_registered : State :=
  run [CallLoadExtensionPoint init_point] init_state.

(** The events that lead to the invocation of the initializer of
    [init_point]. *)
Definition initializer_started : list Event :=
  [CallLoadExtensionPoint init_point; CallLoadExtension plain_extension;
   Settle 1 (Fulfilled index_module); Tick 0; Tick 0;
   Settle 5 (Fulfilled index_module); Tick 0].

(** Plugin [duo]: one extension point and two contributions to it; the
    first contribution names a data file. *)
Definition duo_npm : list (string * NpmPackage) :=
  [("duo@1.0.0", mkNpm "duo" "http://localhost/node_modules/duo@1.0.0")].

Definition duo_point : IExtensionPointJSON :=
  mkPointJSON "duo:point" "recv" None None.

Definition broken_extension : IExtensionJSON :=
  mkExtJSON "duo:point" None (Some "a.json") 1 None None.

Definition sound_extension : IExtensionJSON :=
  mkExtJSON "duo:point" None None 2 None None.

Definition duo_package : Value :=
  VPackage (Some "index")
    (Some (mkPluginJSON None None (Some [duo_point])
       (Some [broken_extension; sound_extension]))).

Definition duo_module : Value := VModule [("recv", MReturns (VDisposable 1))].

(** [duo] is fetched and becomes available. *)
Definition duo_fetched_events : list Event :=
  [CallFetchPlugins; Settle 0 (Fulfilled duo_package)] ++ replicate 10 (Tick 0).

(** [duo] is loaded; the module of the point arrives; the data file of the
    first contribution cannot be loaded. *)
Definition duo_events : list Event :=
  duo_fetched_events ++ [CallLoadPlugin "duo"] ++ replicate 10 (Tick 0) ++
  [Settle 8 (Fulfilled duo_module); Settle 14 (Fulfilled duo_module)] ++
  replicate 30 (Tick 0) ++
  [Settle 24 (Rejected (VError "404"))] ++ replicate 10 (Tick 0).

Definition duo_settled : State := run duo_events (start duo_npm "").

(** One extension that waits for [bar:point], and the point [foo:point]. *)
Definition waiting_pair : State :=
  run [CallLoadExtension foo_extension;
       CallLoadExtensionPoint (mkPointJSON "foo:point" "recv" (Some "foo/index") None)]
    init_state.

(** An extension with an initializer has been loaded and waits for its
    point. *)
Definition waiting_initializer : State :=
  run [CallLoadExtension
         (mkExtJSON "bar:point" None None 7 (Some "bar/index") (Some "start"))]
    init_state.

(** * Properties *)

(** ** The plugin manager *)

Lemma loadPlugin_unknown (s : State) (name : string) :
  availablePlugins s !! name = None →
  name ∉ object_prototype →
  loadPlugin name s = (Throw (VError "Plugin not in registry"), s).
Proof.
  intros Hnone Hproto. unfold loadPlugin, js_get.
  unfold mbind, M_bind, get_state. rewrite Hnone.
  by rewrite bool_decide_eq_false_2.
Qed.

Lemma unloadPlugin_unknown (s : State) (name : string) :
  loadedPlugins s !! name = None →
  name ∉ object_prototype →
  unloadPlugin name s = (Ret (), s).
Proof.
  intros Hnone Hproto. unfold unloadPlugin, js_get.
  unfold mbind, M_bind, get_state. rewrite Hnone.
  by rewrite bool_decide_eq_false_2.
Qed.

(** C7 (code at the failing input): the name ["constructor"] is in neither
    map, yet [loadPlugin] finds the inherited [Object.prototype.constructor],
    records it in [loadedPlugins] and fails with a [TypeError] instead of the
    unknown-plugin error, and [unloadPlugin] raises a [TypeError] instead of
    doing nothing. *)
Theorem loadPlugin_inherited_name :
  availablePlugins init_state !! "constructor" = None ∧
  loadedPlugins init_state !! "constructor" = None ∧
  (loadPlugin "constructor" init_state).1 = Throw TypeError ∧
  loadedPlugins (loadPlugin "constructor" init_state).2 !! "constructor"
    = Some (SlotBuiltin "constructor") ∧
  (unloadPlugin "constructor" init_state).1 = Throw TypeError.
Proof. repeat split; vm_compute; reflexivity. Qed.

(** C9 (code at the failing input): plugin [foo] is available with the
    [Plugin] object 0; a second [fetchPlugins] does not skip it, but
    imports its [package.json] again and replaces the entry by a newly
    constructed [Plugin] object 1. *)
Theorem fetchPlugins_replaces_available :
  availablePlugins foo_fetched !! "foo" = Some (SlotPlugin 0) ∧
  (getPluginNames foo_fetched).1 = Ret ["foo"] ∧
  imports (trace foo_refetched)
    = [Some "foo/package.json"; Some "package.json!npm"; Some "foo/package.json"] ∧
  availablePlugins foo_refetched !! "foo" = Some (SlotPlugin 1) ∧
  length (plugins foo_refetched) = 2.
Proof. repeat split; vm_compute; reflexivity. Qed.

(** ** [Plugin.load] *)

(** C3 (code at the failing input): plugin [foo] declares an initializer;
    once [load] has run to completion its promise is fulfilled with the bound
    [_initialize] method, which was never called: no module was imported, the
    initializer was not invoked, and the declared lists are still there. *)
Theorem Plugin_load_skips_initialize :
  microtasks foo_loaded = [] ∧
  promise_state foo_loaded 12 = Some (Fulfilled (VBoundInitialize 0)) ∧
  filter (λ ev, is_plugin_initializer ev = true) (trace foo_loaded) = [] ∧
  imports (trace foo_loaded) = [Some "foo/package.json"] ∧
  pl_initializer (plugins foo_loaded !!! 0) = Some "init" ∧
  length <$> pl_extensionPoints (plugins foo_loaded !!! 0) = Some 1 ∧
  length <$> pl_extensions (plugins foo_loaded !!! 0) = Some 1.
Proof. repeat split; vm_compute; reflexivity. Qed.

(** C4 (code at the failing input): after [load] has completed the declared
    lists are not empty, and a second [load] registers everything again: a
    second extension point object replaces the first under ["foo:point"] and
    a second extension object is queued for ["bar:point"]. *)
Theorem Plugin_load_twice :
  length <$> pl_extensionPoints (plugins foo_loaded !!! 0) = Some 1 ∧
  length <$> pl_extensions (plugins foo_loaded !!! 0) = Some 1 ∧
  allExtensionPoints foo_loaded !! "foo:point" = Some 0 ∧
  allExtensions foo_loaded !! "bar:point" = Some [0] ∧
  allExtensionPoints (Plugin_load 0 foo_loaded).2 !! "foo:point" = Some 1 ∧
  allExtensions (Plugin_load 0 foo_loaded).2 !! "bar:point" = Some [0; 1] ∧
  length (points (Plugin_load 0 foo_loaded).2) = 2 ∧
  length (extensions (Plugin_load 0 foo_loaded).2) = 2.
Proof. repeat split; vm_compute; reflexivity. Qed.

(** ** [ExtensionPoint.connect] after a failure *)


(** ** Invariants of the monadic code

    [pres I m]: running [m] keeps the state inside [I], whether [m] returns or
    throws. *)

Lemma pres_ret (I : State → Prop) {A} (a : A) : pres I (mret a).
Proof. by intros s. Qed.

Lemma pres_throw (I : State → Prop) {A} (e : Value) : pres I (@throw A e).
Proof. by intros s. Qed.

Lemma pres_bind (I : State → Prop) {A B} (m : M A) (f : A → M B) :
  pres I m → (∀ a, pres I (f a)) → pres I (m ≫= f).
Proof.
  intros Hm Hf s Hs. unfold mbind, M_bind.
  specialize (Hm s Hs). destruct (m s) as [[a|e] s']; simpl in *; [|done].
  by apply Hf.
Qed.

Lemma pres_mapM (I : State → Prop) {A B} (f : A → M B) (l : list A) :
  (∀ a, pres I (f a)) → pres I (mapM f l).
Proof.
  intros Hf. induction l as [|a l IH]; simpl.
  - apply pres_ret.
  - apply pres_bind; [done|]. intros b.
    apply pres_bind; [done|]. intros k. apply pres_ret.
Qed.

Lemma pres_get_state (I : State → Prop) : pres I get_state.
Proof. by intros s. Qed.

Lemma pres_get_point (I : State → Prop) p : pres I (get_point p).
Proof. by intros s. Qed.

Lemma pres_get_extension (I : State → Prop) e : pres I (get_extension e).
Proof. by intros s. Qed.

Lemma pres_get_plugin (I : State → Prop) pl : pres I (get_plugin pl).
Proof. by intros s. Qed.

Lemma pres_get_member (I : State → Prop) v name : pres I (get_member v name).
Proof. by destruct v; intros s. Qed.

Lemma pres_hasOwnProperty_dispose (I : State → Prop) v :
  pres I (hasOwnProperty_dispose v).
Proof. by destruct v; intros s. Qed.

Ltac pres_step :=
  match goal with
  | |- pres _ (mret _) => apply pres_ret
  | |- pres _ (throw _) => apply pres_throw
  | |- pres _ get_state => apply pres_get_state
  | |- pres _ (get_point _) => apply pres_get_point
  | |- pres _ (get_extension _) => apply pres_get_extension
  | |- pres _ (get_plugin _) => apply pres_get_plugin
  | |- pres _ (get_member _ _) => apply pres_get_member
  | |- pres _ (hasOwnProperty_dispose _) => apply pres_hasOwnProperty_dispose
  | |- pres _ (_ ≫= _) => apply pres_bind; [|intros ?]
  | |- pres _ (mapM _ _) => apply pres_mapM; intros ?
  | |- pres _ (match ?x with _ => _ end) => destruct x
  | |- pres _ _ => progress cbv zeta
  end.

Ltac pres_go := repeat first [ pres_step | solve [auto] ].

(** Functions that register [KPointInit], [KSetData], [KLoadObject] or
    [KSetObject], and functions that log [TrConnect] or
    [TrPointInitializer], are the ones particular invariants speak about;
    everything else is covered once and for all. *)
Section generic.
Variable I : State → Prop.

Hypothesis I_then : ∀ p k, generic_cont k = true → pres I (then_ p k).
Hypothesis I_catch : ∀ p k, generic_cont k = true → pres I (catch_ p k).
Hypothesis I_all : ∀ ps, pres I (promise_all ps).
Hypothesis I_resolved : ∀ v, pres I (promise_resolve v).
Hypothesis I_external : pres I (new_promise external_cell).
Hypothesis I_log : ∀ ev, generic_event ev = true → pres I (log ev).
Hypothesis I_receiverFunc : ∀ p f, pres I (upd_point p (set_ep_receiverFunc f)).
Hypothesis I_point_disposables : ∀ p d, pres I (upd_point p (set_ep_disposables d)).
Hypothesis I_extension : ∀ e, pres I (upd_extension e (set_ex_extension None)).
Hypothesis I_extension_disposables :
  ∀ e d, pres I (upd_extension e (set_ex_disposables d)).
Hypothesis I_plugin : ∀ pl f, pres I (upd_plugin pl f).
Hypothesis I_new_Plugin : ∀ name o, pres I (new_Plugin name o).
Hypothesis I_available : ∀ f, pres I (modify (with_availablePlugins f)).
Hypothesis I_loaded : ∀ f, pres I (modify (with_loadedPlugins f)).

Hypothesis I_loadData : ∀ e, pres I (Extension__loadData e).
Hypothesis I_loadObject : ∀ e, pres I (Extension__loadObject e).
Hypothesis I_initialize : ∀ p, pres I (ExtensionPoint__initialize p).

Lemma pres_system_import path : pres I (system_import path).
Proof. unfold system_import. pres_go. Qed.

Lemma pres_call_member ev f :
  generic_event ev = true → pres I (call_member ev f).
Proof. intros. unfold call_member. pres_go. Qed.

Lemma pres_value_then v k : generic_cont k = true → pres I (value_then v k).
Proof. intros. unfold value_then. pres_go. Qed.

Lemma pres_ds_dispose d : pres I (ds_dispose d).
Proof. unfold ds_dispose. pres_go. Qed.

Lemma pres_point_add_disposable p v : pres I (point_add_disposable p v).
Proof. unfold point_add_disposable. pres_go. Qed.

Lemma pres_extension_add_disposable e v : pres I (extension_add_disposable e v).
Proof. unfold extension_add_disposable. pres_go. Qed.

Lemma pres_plugin_add_disposable pl v : pres I (plugin_add_disposable pl v).
Proof. unfold plugin_add_disposable. pres_go. Qed.

Hint Resolve pres_system_import pres_call_member pres_value_then
  pres_ds_dispose pres_point_add_disposable pres_extension_add_disposable
  pres_plugin_add_disposable : core.

Lemma pres_Extension_dispose e : pres I (Extension_dispose e).
Proof. unfold Extension_dispose. pres_go. Qed.

Lemma pres_Extension_initialize e : pres I (Extension_initialize e).
Proof. unfold Extension_initialize. pres_go. Qed.

Lemma pres_Extension_load e : pres I (Extension_load e).
Proof. unfold Extension_load. pres_go. Qed.

Hint Resolve pres_Extension_initialize pres_Extension_load : core.

Lemma pres_connectExtension p e : pres I (ExtensionPoint__connectExtension p e).
Proof. unfold ExtensionPoint__connectExtension. pres_go. Qed.

Lemma pres_load p : pres I (ExtensionPoint__load p).
Proof. unfold ExtensionPoint__load. pres_go. Qed.

Lemma pres_Plugin_dispose pl : pres I (Plugin_dispose pl).
Proof. unfold Plugin_dispose. pres_go. Qed.

Lemma pres_getPluginNames : pres I getPluginNames.
Proof. unfold getPluginNames. pres_go. Qed.

Lemma pres_loadPackage name : pres I (loadPackage name).
Proof. unfold loadPackage. pres_go. Qed.

Hint Resolve pres_getPluginNames pres_loadPackage : core.

Lemma pres_gatherPlugins : pres I gatherPlugins.
Proof. unfold gatherPlugins. pres_go. Qed.

Lemma pres_addPackage name config : pres I (addPackage name config).
Proof. unfold addPackage. pres_go. Qed.

Hint Resolve pres_connectExtension pres_load pres_Plugin_dispose
  pres_gatherPlugins pres_addPackage : core.

(** Every callback except the four particular ones. *)
Lemma pres_run_cont k v : generic_cont k = true → pres I (run_cont k v).
Proof.
  intros Hk. destruct k; try discriminate Hk; simpl;
    unfold ExtensionPoint__load_k, ExtensionPoint__initialize_k2,
      ExtensionPoint__connectExtension_k, Extension_initialize_k1,
      Extension_initialize_k2, Extension_load_k, Plugin_load_k, Plugin_add_k,
      log_error_k, Plugin__initialize_k, loadPackage_k;
    pres_go.
Qed.

(** The exported functions, given the parts that construct objects and
    touch the two registries. *)
Hypothesis I_connect_log : ∀ p e, pres I (log (TrConnect p e)).
Hypothesis I_new_ExtensionPoint : ∀ o, pres I (new_ExtensionPoint o).
Hypothesis I_new_Extension : ∀ o, pres I (new_Extension o).
Hypothesis I_points_registry : ∀ f, pres I (modify (with_allExtensionPoints f)).
Hypothesis I_extensions_registry : ∀ f, pres I (modify (with_allExtensions f)).

Lemma pres_connect p e : pres I (ExtensionPoint_connect p e).
Proof. unfold ExtensionPoint_connect. pres_go. Qed.

Hint Resolve pres_connect : core.

Lemma pres_ExtensionPoint_dispose p : pres I (ExtensionPoint_dispose p).
Proof. unfold ExtensionPoint_dispose. pres_go. Qed.

Lemma pres_loadExtensionPoint o : pres I (loadExtensionPoint o).
Proof. unfold loadExtensionPoint. pres_go. Qed.

Lemma pres_loadExtension o : pres I (loadExtension o).
Proof. unfold loadExtension. pres_go. Qed.

Hint Resolve pres_loadExtensionPoint pres_loadExtension : core.

Lemma pres_Plugin__loadExtensionPoint pl i : pres I (Plugin__loadExtensionPoint pl i).
Proof. unfold Plugin__loadExtensionPoint. pres_go. Qed.

Lemma pres_Plugin__loadExtension pl i : pres I (Plugin__loadExtension pl i).
Proof. unfold Plugin__loadExtension. pres_go. Qed.

Hint Resolve pres_Plugin__loadExtensionPoint pres_Plugin__loadExtension : core.

Lemma pres_Plugin_load pl : pres I (Plugin_load pl).
Proof. unfold Plugin_load. pres_go. Qed.

Hint Resolve pres_Plugin_load pres_ExtensionPoint_dispose
  pres_Extension_dispose : core.

Lemma pres_fetchPlugins : pres I fetchPlugins.
Proof. unfold fetchPlugins. pres_go. Qed.

Lemma pres_loadPlugin name : pres I (loadPlugin name).
Proof. unfold loadPlugin. pres_go. Qed.

Lemma pres_unloadPlugin name : pres I (unloadPlugin name).
Proof. unfold unloadPlugin. pres_go. Qed.

Hint Resolve pres_fetchPlugins pres_loadPlugin pres_unloadPlugin : core.

(** Every call of an exported function (and of [connect]). *)
Lemma pres_exec_call ev : is_job ev = false → pres I (exec ev).
Proof. intros Hev. destruct ev; try discriminate Hev; simpl; pres_go. Qed.
End generic.

(** Invariants that do not look at the promise runtime: they survive every
    job and every environment event as soon as they survive the writes to the
    object heaps and to the trace. *)
Section insensitive.
Variable I : State → Prop.

Hypothesis I_promises : ∀ f s, I s → I (with_promises f s).
Hypothesis I_microtasks : ∀ f s, I s → I (with_microtasks f s).
Hypothesis I_trace : ∀ ev s,
  (∀ p e, ev ≠ TrConnect p e) → I s → I (with_trace (λ t, t ++ [ev]) s).
Hypothesis I_init : ∀ p s, I s → I (with_points (alter (set_ep_initialized true) p) s).
Hypothesis I_recv : ∀ p f s, I s → I (with_points (alter (set_ep_receiverFunc f) p) s).
Hypothesis I_pdisp : ∀ p d s, I s → I (with_points (alter (set_ep_disposables d) p) s).
Hypothesis I_exts : ∀ e f s, I s → I (with_extensions (alter f e) s).
Hypothesis I_plugins : ∀ f s, I s → I (with_plugins f s).
Hypothesis I_avail : ∀ f s, I s → I (with_availablePlugins f s).
Hypothesis I_load : ∀ f s, I s → I (with_loadedPlugins f s).

Lemma ins_new_promise c : pres I (new_promise c).
Proof. intros s Hs. by apply I_promises. Qed.

Lemma ins_enqueue ms : pres I (enqueue ms).
Proof. intros s Hs. by apply I_microtasks. Qed.

Lemma ins_subscribe p r : pres I (subscribe p r).
Proof.
  intros s Hs. unfold subscribe.
  destruct (promises s !! p) as [c|]; [|done].
  destruct (p_state c); [by apply I_microtasks|by apply I_promises].
Qed.

Lemma ins_settle p o : pres I (settle p o).
Proof.
  intros s Hs. unfold settle.
  destruct (promises s !! p) as [c|]; [|done].
  destruct (p_state c); [done|]. simpl.
  by apply I_microtasks, I_promises.
Qed.

Lemma ins_resolve p v : pres I (resolve p v).
Proof.
  destruct v; simpl; first [apply ins_settle | apply ins_enqueue].
Qed.

Lemma ins_log ev : (∀ p e, ev ≠ TrConnect p e) → pres I (log ev).
Proof. intros Hev s Hs. by apply I_trace. Qed.

Hint Resolve ins_new_promise ins_enqueue ins_subscribe ins_settle ins_resolve : core.

Lemma ins_then p k : pres I (then_ p k).
Proof. unfold then_. pres_go. Qed.

Lemma ins_catch p k : pres I (catch_ p k).
Proof. unfold catch_. pres_go. Qed.

Lemma ins_all ps : pres I (promise_all ps).
Proof. unfold promise_all. pres_go. Qed.

Lemma ins_generic_log ev : generic_event ev = true → pres I (log ev).
Proof. intros Hev. apply ins_log. by destruct ev. Qed.

Lemma ins_upd_extension e f : pres I (upd_extension e f).
Proof. intros s Hs. by apply I_exts. Qed.

Lemma ins_upd_plugin pl f : pres I (upd_plugin pl f).
Proof. intros s Hs. by apply I_plugins. Qed.

Lemma ins_new_Plugin name o : pres I (new_Plugin name o).
Proof. intros s Hs. by apply I_plugins. Qed.

Hint Resolve ins_then ins_catch ins_all ins_generic_log ins_upd_extension
  ins_upd_plugin ins_new_Plugin : core.

Lemma ins_system_import path : pres I (system_import path).
Proof. unfold system_import. pres_go. Qed.

Hint Resolve ins_system_import : core.

Lemma ins_resolved v : pres I (promise_resolve v).
Proof. unfold promise_resolve. auto. Qed.

Hint Resolve ins_resolved : core.

Lemma ins_loadData e : pres I (Extension__loadData e).
Proof. unfold Extension__loadData. pres_go. Qed.

Lemma ins_loadObject e : pres I (Extension__loadObject e).
Proof. unfold Extension__loadObject. pres_go. Qed.

Lemma ins_initialize p : pres I (ExtensionPoint__initialize p).
Proof.
  unfold ExtensionPoint__initialize.
  assert (pres I (upd_point p (set_ep_initialized true)))
    by (intros s Hs; by apply I_init).
  pres_go.
Qed.

Lemma ins_receiverFunc p f : pres I (upd_point p (set_ep_receiverFunc f)).
Proof. intros s Hs. by apply I_recv. Qed.

Lemma ins_point_disposables p d : pres I (upd_point p (set_ep_disposables d)).
Proof. intros s Hs. by apply I_pdisp. Qed.

Lemma ins_available f : pres I (modify (with_availablePlugins f)).
Proof. intros s Hs. by apply I_avail. Qed.

Lemma ins_loaded f : pres I (modify (with_loadedPlugins f)).
Proof. intros s Hs. by apply I_load. Qed.

Hint Resolve ins_loadData ins_loadObject ins_initialize ins_receiverFunc
  ins_point_disposables ins_available ins_loaded : core.

Lemma ins_connectExtension p e : pres I (ExtensionPoint__connectExtension p e).
Proof. apply pres_connectExtension; auto. Qed.

Lemma ins_load p : pres I (ExtensionPoint__load p).
Proof. apply pres_load; auto. Qed.

Lemma ins_run_cont k v : pres I (run_cont k v).
Proof.
  destruct (generic_cont k) eqn:Hk.
  - apply pres_run_cont; auto.
  - destruct k; try discriminate Hk; simpl;
      unfold ExtensionPoint__initialize_k1, Extension__loadData_k,
        Extension__loadObject_k1, Extension__loadObject_k2,
        call_member, value_then;
      pres_go; apply ins_log; discriminate.
Qed.

Lemma ins_run_handler k v c : pres I (run_handler k v c).
Proof.
  intros s Hs. unfold run_handler.
  pose proof (ins_run_cont k v s Hs) as Hk.
  destruct (run_cont k v s) as [[w|e] s']; simpl in Hk.
  - by apply ins_resolve.
  - by apply ins_settle.
Qed.

Lemma ins_all_element_fulfilled agg : pres I (all_element_fulfilled agg).
Proof.
  intros s Hs. unfold all_element_fulfilled.
  destruct (promises s !! agg) as [c|]; [|done].
  unfold mbind, M_bind, modify. destruct (Nat.eqb _ 0).
  - apply ins_settle. by apply I_promises.
  - by apply I_promises.
Qed.

Lemma ins_run_microtask m : pres I (run_microtask m).
Proof.
  destruct m as [[k c|k c|c|agg] [v|e]|c src]; simpl;
    auto using ins_run_handler, ins_all_element_fulfilled.
Qed.

Lemma ins_tick i : pres I (tick i).
Proof.
  intros s Hs. unfold tick. destruct (microtasks s !! i) as [m|]; [|done].
  apply ins_run_microtask. by apply I_microtasks.
Qed.

Lemma ins_env_settle p o : pres I (env_settle p o).
Proof.
  intros s Hs. unfold env_settle.
  destruct (promises s !! p) as [c|]; [|done].
  destruct (p_external c); [|done].
  destruct o; [by apply ins_resolve|by apply ins_settle].
Qed.

(** Jobs and environment events keep the invariant. *)
Lemma ins_job ev : is_job ev = true → ∀ s, I s → I (step ev s).
Proof.
  intros Hev s Hs. unfold step.
  destruct ev; try discriminate Hev; simpl; unfold mbind, M_bind.
  - pose proof (ins_tick i s Hs). by destruct (tick i s) as [[[]|?] ?].
  - pose proof (ins_env_settle p o s Hs). by destruct (env_settle p o s) as [[[]|?] ?].
Qed.

(** With the writes of the exported functions, every event keeps it. *)
Hypothesis I_connect : ∀ p e s, I s → I (with_trace (λ t, t ++ [TrConnect p e]) s).
Hypothesis I_new_point : ∀ o, pres I (new_ExtensionPoint o).
Hypothesis I_new_extension : ∀ o, pres I (new_Extension o).
Hypothesis I_point_registry : ∀ f s, I s → I (with_allExtensionPoints f s).
Hypothesis I_extension_registry : ∀ f s, I s → I (with_allExtensions f s).

Lemma ins_step ev : ∀ s, I s → I (step ev s).
Proof.
  destruct (is_job ev) eqn:Hev; [by apply ins_job|].
  intros s Hs. unfold step.
  apply pres_exec_call; auto; intros ? **; auto.
Qed.

Lemma ins_run evs s : I s → I (run evs s).
Proof.
  revert s. induction evs as [|ev evs IH]; intros s Hs; [done|].
  simpl. apply IH. by apply ins_step.
Qed.
End insensitive.

(** ** Registration: the frame of a state *)

Lemma connects_snoc t ev :
  connects (t ++ [ev]) =
  connects t ++ match ev with TrConnect p e => [(p, e)] | _ => [] end.
Proof.
  unfold connects. rewrite omap_app. f_equal. by destruct ev.
Qed.

Section frame_facts.
Variable x : nat * nat * gmap string nat * gmap string (list nat) * list (nat * nat).

Lemma frame_promises f s : frame s = x → frame (with_promises f s) = x.
Proof. done. Qed.

Lemma frame_microtasks f s : frame s = x → frame (with_microtasks f s) = x.
Proof. done. Qed.

Lemma frame_trace ev s :
  (∀ p e, ev ≠ TrConnect p e) → frame s = x →
  frame (with_trace (λ t, t ++ [ev]) s) = x.
Proof.
  intros Hev <-. unfold frame. simpl. rewrite connects_snoc.
  destruct ev; rewrite ?app_nil_r; try done. by destruct (Hev point ext).
Qed.

Lemma frame_points f p s : frame s = x → frame (with_points (alter f p) s) = x.
Proof. intros <-. unfold frame. simpl. by rewrite length_alter. Qed.

Lemma frame_extensions e f s :
  frame s = x → frame (with_extensions (alter f e) s) = x.
Proof. intros <-. unfold frame. simpl. by rewrite length_alter. Qed.

Lemma frame_plugins f s : frame s = x → frame (with_plugins f s) = x.
Proof. done. Qed.

Lemma frame_available f s : frame s = x → frame (with_availablePlugins f s) = x.
Proof. done. Qed.

Lemma frame_loaded f s : frame s = x → frame (with_loadedPlugins f s) = x.
Proof. done. Qed.
End frame_facts.

Create HintDb frame.

#[local] Hint Resolve frame_promises frame_microtasks frame_trace frame_points
  frame_extensions frame_plugins frame_available frame_loaded : frame.

(** Jobs and environment events leave the frame alone. *)
Lemma frame_job ev s : is_job ev = true → frame (step ev s) = frame s.
Proof.
  intros Hev. apply (ins_job (λ s', frame s' = frame s)); auto with frame.
Qed.

Lemma frame_connectExtension x p e :
  pres (λ s, frame s = x) (ExtensionPoint__connectExtension p e).
Proof. apply ins_connectExtension; auto with frame. Qed.

Lemma frame_load x p : pres (λ s, frame s = x) (ExtensionPoint__load p).
Proof. apply ins_load; auto with frame. Qed.

Lemma frame_then x p k : pres (λ s, frame s = x) (then_ p k).
Proof. apply ins_then; auto with frame. Qed.

Lemma frame_promise_all x ps : pres (λ s, frame s = x) (promise_all ps).
Proof. apply ins_all; auto with frame. Qed.

Lemma frame_promise_resolve x v : pres (λ s, frame s = x) (promise_resolve v).
Proof. apply ins_resolved; auto with frame. Qed.

(** ** Calls that cannot throw *)

Lemma returns_ret {A} (a : A) : returns (mret a).
Proof. intros s. by exists a. Qed.

Lemma returns_bind {A B} (m : M A) (f : A → M B) :
  returns m → (∀ a, returns (f a)) → returns (m ≫= f).
Proof.
  intros Hm Hf s. unfold mbind, M_bind.
  destruct (Hm s) as [a Ha]. destruct (m s) as [[a'|e] s']; simpl in *; [|done].
  apply Hf.
Qed.

Lemma returns_mapM {A B} (f : A → M B) (l : list A) :
  (∀ a, returns (f a)) → returns (mapM f l).
Proof.
  intros Hf. induction l as [|a l IH]; simpl.
  - apply returns_ret.
  - apply returns_bind; [done|]. intros b.
    apply returns_bind; [done|]. intros k. apply returns_ret.
Qed.

Lemma returns_fun {A} (f : State → A) (g : State → State) :
  returns (λ s, (Ret (f s), g s)).
Proof. intros s. by eexists. Qed.

Lemma returns_subscribe p r : returns (subscribe p r).
Proof.
  intros s. unfold subscribe. destruct (promises s !! p) as [c|]; [|by eexists].
  destruct (p_state c); by eexists.
Qed.

Ltac returns_step :=
  match goal with
  | |- returns (mret _) => apply returns_ret
  | |- returns (_ ≫= _) => apply returns_bind; [|intros ?]
  | |- returns (mapM _ _) => apply returns_mapM; intros ?
  | |- returns (subscribe _ _) => apply returns_subscribe
  | |- returns get_state => apply returns_fun
  | |- returns (get_point _) => apply returns_fun
  | |- returns (get_extension _) => apply returns_fun
  | |- returns (get_plugin _) => apply returns_fun
  | |- returns (modify _) => apply (returns_fun (λ _, ()))
  | |- returns (log _) => apply (returns_fun (λ _, ()))
  | |- returns (upd_point _ _) => apply (returns_fun (λ _, ()))
  | |- returns (upd_extension _ _) => apply (returns_fun (λ _, ()))
  | |- returns (upd_plugin _ _) => apply (returns_fun (λ _, ()))
  | |- returns (new_promise _) => apply returns_fun
  | |- returns (new_Extension _) => apply returns_fun
  | |- returns (new_ExtensionPoint _) => apply returns_fun
  | |- returns (new_Plugin _ _) => apply returns_fun
  | |- returns (match ?x with _ => _ end) => destruct x
  | |- returns _ => progress cbv zeta
  end.

Create HintDb returns.

Ltac returns_go := repeat first [ returns_step | solve [auto with returns] ].

Lemma returns_then p k : returns (then_ p k).
Proof. unfold then_. returns_go. Qed.

Lemma returns_catch p k : returns (catch_ p k).
Proof. unfold catch_. returns_go. Qed.

Lemma returns_promise_all ps : returns (promise_all ps).
Proof. unfold promise_all. returns_go. Qed.

Lemma returns_promise_resolve v : returns (promise_resolve v).
Proof. unfold promise_resolve. returns_go. Qed.

Lemma returns_system_import path : returns (system_import path).
Proof. unfold system_import. returns_go. Qed.

#[local] Hint Resolve returns_then returns_catch returns_promise_all
  returns_promise_resolve returns_system_import : returns.

Lemma returns_Extension_load e : returns (Extension_load e).
Proof.
  unfold Extension_load, Extension__loadData, Extension__loadObject.
  returns_go.
Qed.

#[local] Hint Resolve returns_Extension_load : returns.

Lemma returns_connect p e : returns (ExtensionPoint_connect p e).
Proof.
  unfold ExtensionPoint_connect, ExtensionPoint__load,
    ExtensionPoint__connectExtension.
  returns_go.
Qed.

#[local] Hint Resolve returns_connect : returns.

Lemma returns_loadExtensionPoint o : returns (loadExtensionPoint o).
Proof. unfold loadExtensionPoint. returns_go. Qed.

Lemma returns_loadExtension o : returns (loadExtension o).
Proof. unfold loadExtension. returns_go. Qed.

#[local] Hint Resolve returns_loadExtensionPoint returns_loadExtension : returns.

(** ** Stepping through a bind *)

Lemma bind_run {A B} (m : M A) (f : A → M B) s a s' :
  m s = (Ret a, s') → (m ≫= f) s = f a s'.
Proof. intros Hm. unfold mbind, M_bind. by rewrite Hm. Qed.

Lemma bind_throw {A B} (m : M A) (f : A → M B) s e s' :
  m s = (Throw e, s') → (m ≫= f) s = (Throw e, s').
Proof. intros Hm. unfold mbind, M_bind. by rewrite Hm. Qed.

Lemma mapM_cons {A B} (f : A → M B) (a : A) (l : list A) :
  mapM f (a :: l) = (y ← f a; k ← mapM f l; mret (y :: k)).
Proof. done. Qed.

(** ** The effect of the registration calls on the frame *)

Lemma connect_frame p e s :
  frame (ExtensionPoint_connect p e s).2 =
  (length (points s), length (extensions s), allExtensionPoints s,
   allExtensions s, connects (trace s) ++ [(p, e)]).
Proof.
  set (x := (_, _, _, _, _)).
  assert (pres (λ s', frame s' = x)
    (x ← get_point p;
     if negb (ep_initialized x)
     then l ← ExtensionPoint__load p; then_ l (KConnect p e)
     else ExtensionPoint__connectExtension p e)) as Hrest.
  { pose proof (frame_load x). pose proof (frame_then x).
    pose proof (frame_connectExtension x). pres_go. }
  unfold ExtensionPoint_connect, mbind at 1, M_bind at 1, log, modify.
  apply Hrest. unfold frame, x. simpl. by rewrite connects_snoc.
Qed.

Lemma mapM_connect_frame p exts s :
  ∃ rs, (mapM (ExtensionPoint_connect p) exts s).1 = Ret rs ∧
  frame (mapM (ExtensionPoint_connect p) exts s).2 =
  (length (points s), length (extensions s), allExtensionPoints s,
   allExtensions s, connects (trace s) ++ ((λ e, (p, e)) <$> exts)).
Proof.
  revert s. induction exts as [|e exts IH]; intros s.
  - exists []. split; [done|]. simpl. by rewrite app_nil_r.
  - rewrite mapM_cons.
    destruct (returns_connect p e s) as [r Hr].
    pose proof (connect_frame p e s) as Hf.
    destruct (ExtensionPoint_connect p e s) as [[r'|?] s1] eqn:E1; [|done].
    rewrite (bind_run _ _ _ _ _ E1).
    destruct (IH s1) as (rs & Hrs & Hfs).
    destruct (mapM (ExtensionPoint_connect p) exts s1) as [[rs'|?] s2] eqn:E2;
      [|done].
    rewrite (bind_run _ _ _ _ _ E2).
    exists (r' :: rs'). split; [done|]. simpl in *.
    rewrite Hfs. unfold frame in Hf.
    injection Hf as -> -> -> -> ->. by rewrite <-app_assoc.
Qed.

Lemma loadExtension_pending s o :
  allExtensionPoints s !! ej_point o = None →
  loadExtension o s =
  (Ret (length (promises s)),
   with_promises (λ ps, ps ++ [settled_cell (Fulfilled (VExtension (length (extensions s))))])
     (with_allExtensions
        <[ej_point o := default [] (allExtensions s !! ej_point o) ++ [length (extensions s)]]>
        (with_extensions (λ l, l ++
           [mkExtension (ej_point o) (ej_loader o) (ej_module o) (ej_data o)
              (ej_initializer o)
              (Some (mkContribution (ej_config o) VUndefined VUndefined))
              new_DisposableSet]) s))).
Proof.
  intros Hnone. unfold loadExtension, mbind, M_bind, new_Extension, get_state.
  simpl. by rewrite Hnone.
Qed.

Lemma loadExtension_frame_pending s o :
  allExtensionPoints s !! ej_point o = None →
  frame (loadExtension o s).2 =
  (length (points s), S (length (extensions s)), allExtensionPoints s,
   <[ej_point o := default [] (allExtensions s !! ej_point o) ++ [length (extensions s)]]>
     (allExtensions s),
   connects (trace s)).
Proof.
  intros Hnone. rewrite (loadExtension_pending _ _ Hnone).
  unfold frame. simpl. rewrite length_app. simpl. repeat f_equal. lia.
Qed.

Lemma loadExtension_frame_registered s o p :
  allExtensionPoints s !! ej_point o = Some p →
  frame (loadExtension o s).2 =
  (length (points s), S (length (extensions s)), allExtensionPoints s,
   allExtensions s, connects (trace s) ++ [(p, length (extensions s))]).
Proof.
  intros Hsome. unfold loadExtension, mbind at 1 2, M_bind at 1 2,
    new_Extension, get_state.
  simpl. rewrite Hsome.
  set (s1 := with_extensions _ s).
  pose proof (connect_frame p (length (extensions s)) s1) as Hf.
  destruct (returns_connect p (length (extensions s)) s1) as [r Hr].
  destruct (ExtensionPoint_connect _ _ s1) as [[r'|?] s2] eqn:E; [|done].
  rewrite (bind_run _ _ _ _ _ E).
  rewrite (frame_then (frame s2)); [|done].
  simpl in Hf. rewrite Hf. unfold s1. simpl. rewrite length_app. simpl.
  repeat f_equal. lia.
Qed.

Lemma loadExtensionPoint_frame s o :
  frame (loadExtensionPoint o s).2 =
  (S (length (points s)), length (extensions s),
   <[pj_id o := length (points s)]> (allExtensionPoints s),
   delete (pj_id o) (allExtensions s),
   connects (trace s) ++
     ((λ e, (length (points s), e)) <$> default [] (allExtensions s !! pj_id o))).
Proof.
  unfold loadExtensionPoint, mbind at 1 2 3, M_bind at 1 2 3,
    new_ExtensionPoint, get_state, modify.
  simpl. destruct (allExtensions s !! pj_id o) as [exts|] eqn:Hq; simpl.
  - unfold mbind at 1, M_bind at 1. simpl.
    set (s1 := with_allExtensions _ _).
    destruct (mapM_connect_frame (length (points s)) exts s1) as (rs & Hrs & Hf).
    destruct (mapM (ExtensionPoint_connect (length (points s))) exts s1)
      as [[rs'|?] s2] eqn:E; [|done].
    rewrite (bind_run _ _ _ _ _ E).
    pose proof (frame_promise_all (frame s2) rs' s2 eq_refl) as Ha.
    destruct (returns_promise_all rs' s2) as [a Hra].
    destruct (promise_all rs' s2) as [[a'|?] s3] eqn:E3; [|done].
    rewrite (bind_run _ _ _ _ _ E3).
    rewrite (frame_then (frame s3)); [|done].
    simpl in Ha, Hf. rewrite Ha, Hf. unfold s1. simpl.
    rewrite length_app. simpl. repeat f_equal. lia.
  - unfold frame. simpl. rewrite length_app, app_nil_r. simpl.
    rewrite delete_id by done. repeat f_equal. lia.
Qed.

(** ** Order-independence of registration *)

Lemma run_app evs1 evs2 s : run (evs1 ++ evs2) s = run evs2 (run evs1 s).
Proof. unfold run. by rewrite foldl_app. Qed.

Lemma run_jobs_frame evs s :
  Forall (λ ev, is_job ev = true) evs → frame (run evs s) = frame s.
Proof.
  intros Hevs. revert s. induction Hevs as [|ev evs Hev _ IH]; intros s; [done|].
  simpl. rewrite IH. by apply frame_job.
Qed.

(** The calls inside a sequence of events are split by one particular call. *)
Lemma calls_split (evs : list Event) (l1 l2 : list Event) (x : Event) :
  filter (λ ev, is_job ev = false) evs = l1 ++ x :: l2 →
  ∃ evs1 evs2, evs = evs1 ++ x :: evs2 ∧
    filter (λ ev, is_job ev = false) evs1 = l1 ∧
    filter (λ ev, is_job ev = false) evs2 = l2.
Proof.
  revert l1. induction evs as [|ev evs IH]; intros l1 Hf.
  - by destruct l1.
  - rewrite filter_cons in Hf. destruct (decide (is_job ev = false)) as [Hev|Hev].
    + destruct l1 as [|y l1]; simpl in Hf; injection Hf as <- Hf.
      * exists [], evs. by rewrite filter_nil.
      * destruct (IH _ Hf) as (evs1 & evs2 & -> & H1 & H2).
        exists (ev :: evs1), evs2. split; [done|].
        rewrite filter_cons, decide_True by done. by rewrite H1.
    + destruct (IH _ Hf) as (evs1 & evs2 & -> & H1 & H2).
      exists (ev :: evs1), evs2. split; [done|].
      by rewrite filter_cons, decide_False.
Qed.

Section order.
Variable s0 : State.
Variable id : string.
Hypothesis no_point : allExtensionPoints s0 !! id = None.
Hypothesis no_queue : allExtensions s0 !! id = None.

Let queue (k : nat) : gmap string (list nat) :=
  match k with
  | 0 => allExtensions s0
  | S _ => <[id := seq (length (extensions s0)) k]> (allExtensions s0)
  end.

(** [k] extensions are buffered and the point is not registered. *)
Let waiting (k : nat) (s : State) : Prop :=
  frame s = (length (points s0), length (extensions s0) + k,
             allExtensionPoints s0, queue k, connects (trace s0)).

(** The point is registered and [k] extensions have been connected. *)
Let registered (k : nat) (s : State) : Prop :=
  frame s = (S (length (points s0)), length (extensions s0) + k,
             <[id := length (points s0)]> (allExtensionPoints s0),
             allExtensions s0,
             connects (trace s0) ++
               ((λ e, (length (points s0), e)) <$> seq (length (extensions s0)) k)).

Lemma waiting_loadExtension k s o :
  ej_point o = id → waiting k s → waiting (S k) (step (CallLoadExtension o) s).
Proof.
  unfold step. intros Ho Hs. simpl.
  destruct (returns_loadExtension o s) as [r Hr].
  pose proof (loadExtension_frame_pending s o) as Hf.
  destruct (loadExtension o s) as [[r'|?] s1] eqn:E; [|done].
  rewrite (bind_run _ _ _ _ _ E). simpl in Hf |- *.
  unfold waiting, frame in Hs |- *. injection Hs as Hp He Hx Hq Hc.
  fold (frame s1). rewrite Hf by (by rewrite Hx, Ho).
  rewrite Hp, He, Hx, Hq, Hc, Ho.
  replace (length (extensions s0) + S k) with (S (length (extensions s0) + k))
    by lia.
  do 2 f_equal. destruct k as [|k]; unfold queue; cbv beta iota.
  - rewrite no_queue. simpl. by rewrite Nat.add_0_r.
  - rewrite lookup_insert_eq, insert_insert_eq.
    by rewrite (seq_S (S k)).
Qed.

Lemma waiting_loadExtensionPoint k s o :
  pj_id o = id → waiting k s → registered k (step (CallLoadExtensionPoint o) s).
Proof.
  unfold step. intros Ho Hs. simpl.
  destruct (returns_loadExtensionPoint o s) as [r Hr].
  pose proof (loadExtensionPoint_frame s o) as Hf.
  destruct (loadExtensionPoint o s) as [[r'|?] s1] eqn:E; [|done].
  rewrite (bind_run _ _ _ _ _ E). simpl in Hf |- *.
  unfold waiting, registered, frame in Hs |- *. injection Hs as Hp He Hx Hq Hc.
  fold (frame s1). rewrite Hf, Hp, He, Hx, Hq, Hc, Ho.
  destruct k as [|k]; unfold queue; cbv beta iota.
  - rewrite no_queue, delete_id by done. done.
  - rewrite lookup_insert_eq, delete_insert_id by done. done.
Qed.

Lemma registered_loadExtension k s o :
  ej_point o = id → registered k s → registered (S k) (step (CallLoadExtension o) s).
Proof.
  unfold step. intros Ho Hs. simpl.
  destruct (returns_loadExtension o s) as [r Hr].
  pose proof (loadExtension_frame_registered s o (length (points s0))) as Hf.
  destruct (loadExtension o s) as [[r'|?] s1] eqn:E; [|done].
  rewrite (bind_run _ _ _ _ _ E). simpl in Hf |- *.
  unfold registered, frame in Hs |- *. injection Hs as Hp He Hx Hq Hc.
  fold (frame s1). rewrite Hf by (by rewrite Hx, Ho, lookup_insert_eq).
  rewrite Hp, He, Hx, Hq, Hc.
  replace (length (extensions s0) + S k) with (S (length (extensions s0) + k))
    by lia.
  f_equal. by rewrite <-app_assoc, (seq_S k), fmap_app.
Qed.

Lemma run_waiting evs exts k s :
  filter (λ ev, is_job ev = false) evs = CallLoadExtension <$> exts →
  Forall (λ o, ej_point o = id) exts →
  waiting k s → waiting (k + length exts) (run evs s).
Proof.
  revert exts k s. induction evs as [|ev evs IH]; intros exts k s Hf Hexts Hs.
  - destruct exts; [|done]. simpl. by rewrite Nat.add_0_r.
  - rewrite filter_cons in Hf. simpl.
    destruct (decide (is_job ev = false)) as [Hev|Hev].
    + destruct exts as [|o exts]; simplify_eq/=.
      apply Forall_cons in Hexts as [Ho Hexts].
      replace (k + S (length exts)) with (S k + length exts) by lia.
      apply IH; [done..|]. by apply waiting_loadExtension.
    + apply IH; [done..|]. unfold waiting.
      rewrite frame_job; [done|]. by destruct (is_job ev).
Qed.

Lemma run_registered evs exts k s :
  filter (λ ev, is_job ev = false) evs = CallLoadExtension <$> exts →
  Forall (λ o, ej_point o = id) exts →
  registered k s → registered (k + length exts) (run evs s).
Proof.
  revert exts k s. induction evs as [|ev evs IH]; intros exts k s Hf Hexts Hs.
  - destruct exts; [|done]. simpl. by rewrite Nat.add_0_r.
  - rewrite filter_cons in Hf. simpl.
    destruct (decide (is_job ev = false)) as [Hev|Hev].
    + destruct exts as [|o exts]; simplify_eq/=.
      apply Forall_cons in Hexts as [Ho Hexts].
      replace (k + S (length exts)) with (S k + length exts) by lia.
      apply IH; [done..|]. by apply registered_loadExtension.
    + apply IH; [done..|]. unfold registered.
      rewrite frame_job; [done|]. by destruct (is_job ev).
Qed.

Lemma run_registration evs o before after :
  pj_id o = id →
  Forall (λ o, ej_point o = id) (before ++ after) →
  filter (λ ev, is_job ev = false) evs =
    (CallLoadExtension <$> before) ++ CallLoadExtensionPoint o ::
    (CallLoadExtension <$> after) →
  registered (length before + length after) (run evs s0).
Proof.
  intros Ho Hexts Hf. apply Forall_app in Hexts as [Hb Ha].
  apply calls_split in Hf as (evs1 & evs2 & -> & H1 & H2).
  rewrite run_app. simpl. apply run_registered; [done..|].
  apply waiting_loadExtensionPoint; [done|].
  apply (run_waiting evs1 before 0); [done..|].
  unfold waiting. simpl. by rewrite Nat.add_0_r.
Qed.
End order.



(** ** The initializer of an extension point runs at most once *)

Lemma sum_list_with_insert {A} (f : A → nat) (l : list A) i x y :
  l !! i = Some x →
  sum_list_with f (<[i := y]> l) + f x = sum_list_with f l + f y.
Proof.
  revert i. induction l as [|a l IH]; intros [|i] Hi; simplify_eq/=; [lia|].
  specialize (IH _ Hi). lia.
Qed.

Lemma sum_list_with_delete {A} (f : A → nat) (l : list A) i x :
  l !! i = Some x →
  sum_list_with f (delete i l) + f x = sum_list_with f l.
Proof.
  revert i. induction l as [|a l IH]; intros [|i] Hi; simplify_eq/=; [lia|].
  specialize (IH _ Hi). lia.
Qed.

Lemma sum_list_with_fmap {A B} (f : B → nat) (g : A → B) (l : list A) :
  sum_list_with f (g <$> l) = sum_list_with (f ∘ g) l.
Proof. induction l as [|a l IH]; simpl; [done|]. f_equal. apply IH. Qed.

Lemma inits_snoc p t ev :
  inits p (t ++ [ev]) = inits p t + (if is_point_initializer p ev then 1 else 0).
Proof.
  unfold inits. rewrite filter_app, length_app. f_equal.
  rewrite filter_cons, filter_nil. destruct (is_point_initializer p ev); by case_decide.
Qed.

Lemma flag_alter p q (f : ExtensionPoint → ExtensionPoint) s :
  (∀ x, ep_initialized x = true → ep_initialized (f x) = true) →
  flag q s ≤ flag q (with_points (alter f p) s).
Proof.
  intros Hf. unfold flag. simpl. rewrite !list_lookup_total_alt.
  destruct (decide (p = q)) as [->|Hne].
  - rewrite list_lookup_alter_eq. destruct (points s !! q) as [x|]; simpl; [|done].
    destruct (ep_initialized x) eqn:Hx; [|destruct (ep_initialized (f x)); lia].
    by rewrite Hf.
  - by rewrite list_lookup_alter_ne.
Qed.

Lemma flag_new_point q x s :
  ep_initialized x = false →
  flag q (with_points (λ l, l ++ [x]) s) = flag q s.
Proof.
  intros Hx. unfold flag. simpl. rewrite !list_lookup_total_alt.
  destruct (decide (q < length (points s))).
  - by rewrite lookup_app_l.
  - rewrite lookup_app_r by lia. rewrite (lookup_ge_None_2 (points s)) by lia.
    destruct (q - length (points s)) as [|m]; simpl; [by rewrite Hx|done].
Qed.

Lemma cell_pend_mk p st rs ext rem :
  cell_pend p (mkCell st rs ext rem) = sum_list_with (reaction_pend p) rs.
Proof. done. Qed.

Lemma hoare_pres (I : State → Prop) {A} (m : M A) : hoare I I m ↔ pres I m.
Proof. done. Qed.

Lemma hoare_bind_post (P Q : State → Prop) {A B} (m : M A) (f : A → M B) :
  hoare P Q m → (∀ a, pres Q (f a)) → hoare P Q (m ≫= f).
Proof.
  intros Hm Hf s Hs. unfold mbind, M_bind.
  specialize (Hm s Hs). destruct (m s) as [[a|e] s']; simpl in *; [|done].
  by apply Hf.
Qed.

Lemma hoare_bind_pre (P Q : State → Prop) {A B} (m : M A) (f : A → M B) :
  pres P m → (∀ s, P s → Q s) → (∀ a, hoare P Q (f a)) → hoare P Q (m ≫= f).
Proof.
  intros Hm HPQ Hf s Hs. unfold mbind, M_bind.
  specialize (Hm s Hs). destruct (m s) as [[a|e] s']; simpl in *; [|by apply HPQ].
  by apply Hf.
Qed.

Section once.
Variable slack : nat → nat.

Lemma once_weaken (slack' : nat → nat) s :
  (∀ p, slack p ≤ slack' p) → once_inv slack' s → once_inv slack s.
Proof. intros Hle Hs p. specialize (Hle p). specialize (Hs p). lia. Qed.

Lemma once_new_promise c :
  p_reactions c = [] → pres (once_inv slack) (new_promise c).
Proof.
  intros Hc s Hs p. specialize (Hs p). unfold pend, flag in *. simpl.
  rewrite sum_list_with_app. simpl. destruct c as [st rs ext rem]. simpl in Hc.
  subst rs. rewrite cell_pend_mk. simpl. lia.
Qed.

Lemma once_enqueue ms :
  hoare (once_inv (λ p, slack p + sum_list_with (task_pend p) ms))
    (once_inv slack) (enqueue ms).
Proof.
  intros s Hs p. specialize (Hs p).
  unfold pend, flag in *. simpl. rewrite sum_list_with_app. lia.
Qed.

(** Registering a reaction uses up the slack reserved for it. *)
Lemma once_subscribe q r :
  hoare (once_inv (λ p, slack p + reaction_pend p r)) (once_inv slack)
    (subscribe q r).
Proof.
  intros s Hs. unfold subscribe.
  destruct (promises s !! q) as [c|] eqn:Hq;
    [|by eapply once_weaken; [|done]; intros; simpl; lia].
  destruct (p_state c).
  - apply once_enqueue. intros p. specialize (Hs p). simpl in *. lia.
  - intros p. specialize (Hs p). unfold pend, flag in *. simpl.
    pose proof (sum_list_with_insert (cell_pend p) _ _ _
      (mkCell None (p_reactions c ++ [r]) (p_external c) (p_remaining c)) Hq) as Hi.
    rewrite cell_pend_mk, sum_list_with_app in Hi. simpl in Hi.
    change (cell_pend p c) with (sum_list_with (reaction_pend p) (p_reactions c)) in Hi.
    lia.
Qed.

Lemma once_settle q o : pres (once_inv slack) (settle q o).
Proof.
  intros s Hs. unfold settle.
  destruct (promises s !! q) as [c|] eqn:Hq; [|done].
  destruct (p_state c); [done|].
  intros p. specialize (Hs p). unfold pend, flag in *. simpl.
  pose proof (sum_list_with_insert (cell_pend p) _ _ _
    (mkCell (Some o) [] (p_external c) (p_remaining c)) Hq) as Hi.
  rewrite cell_pend_mk in Hi. simpl in Hi.
  change (cell_pend p c) with (sum_list_with (reaction_pend p) (p_reactions c)) in Hi.
  rewrite sum_list_with_app, sum_list_with_fmap.
  replace (sum_list_with (task_pend p ∘ (λ r, MReaction r o)) (p_reactions c))
    with (sum_list_with (reaction_pend p) (p_reactions c)) by done.
  lia.
Qed.

Lemma once_resolve q v : pres (once_inv slack) (resolve q v).
Proof.
  destruct v; simpl; try apply once_settle.
  intros s Hs. apply once_enqueue. intros p'. specialize (Hs p'). simpl in *. lia.
Qed.

(** Entering the initializer uses up the slack reserved for it. *)
Lemma once_log ev :
  hoare (once_inv (λ p, slack p + (if is_point_initializer p ev then 1 else 0)))
    (once_inv slack) (log ev).
Proof.
  intros s Hs p. specialize (Hs p). unfold pend, flag in *. simpl.
  rewrite inits_snoc. lia.
Qed.

Lemma once_upd_point q f :
  (∀ x, ep_initialized x = true → ep_initialized (f x) = true) →
  pres (once_inv slack) (upd_point q f).
Proof.
  intros Hf s Hs p. specialize (Hs p).
  pose proof (flag_alter q p f s Hf). unfold pend in *. simpl in *. lia.
Qed.

(** Setting the flag of a point that did not have it reserves one
    invocation. *)
Lemma once_set_flag q x s :
  points s !! q = Some x → ep_initialized x = false →
  once_inv slack s →
  once_inv (λ p, slack p + (if Nat.eqb q p then 1 else 0))
    (with_points (alter (set_ep_initialized true) q) s).
Proof.
  intros Hq Hx Hs p. specialize (Hs p).
  unfold pend, flag in *. simpl. rewrite !list_lookup_total_alt in *.
  destruct (Nat.eqb_spec q p) as [->|Hne].
  - rewrite list_lookup_alter_eq, Hq in *. simpl in *. rewrite Hx in Hs. lia.
  - rewrite list_lookup_alter_ne by done. lia.
Qed.

Lemma once_dequeue i m s :
  microtasks s !! i = Some m →
  once_inv slack s →
  once_inv (λ p, slack p + task_pend p m) (with_microtasks (delete i) s).
Proof.
  intros Hi Hs p. specialize (Hs p). unfold pend, flag in *. simpl.
  pose proof (sum_list_with_delete (task_pend p) _ _ _ Hi). lia.
Qed.
End once.

Lemma once_subscribe_free slack q r :
  (∀ p, reaction_pend p r = 0) → pres (once_inv slack) (subscribe q r).
Proof.
  intros Hr s Hs. apply once_subscribe.
  intros p. specialize (Hs p). rewrite Hr. lia.
Qed.

Lemma once_enqueue_free slack ms :
  (∀ p, sum_list_with (task_pend p) ms = 0) → pres (once_inv slack) (enqueue ms).
Proof.
  intros Hr s Hs. apply once_enqueue.
  intros p. specialize (Hs p). rewrite Hr. lia.
Qed.

Lemma once_log_free slack ev :
  (∀ p, is_point_initializer p ev = false) → pres (once_inv slack) (log ev).
Proof.
  intros Hr s Hs. apply once_log.
  intros p. specialize (Hs p). rewrite Hr. lia.
Qed.

Lemma once_then slack q k :
  hoare (once_inv (λ p, slack p + cont_pend p k)) (once_inv slack) (then_ q k).
Proof.
  unfold then_. apply hoare_bind_pre.
  - by apply once_new_promise.
  - intros s Hs. eapply once_weaken; [|done]. intros p. simpl. lia.
  - intros c. apply hoare_bind_post; [exact (once_subscribe slack q (RThen k c))|].
    intros []. apply pres_ret.
Qed.

Lemma once_then_free slack q k :
  (∀ p, cont_pend p k = 0) → pres (once_inv slack) (then_ q k).
Proof.
  intros Hr s Hs. apply once_then.
  intros p. specialize (Hs p). rewrite Hr. lia.
Qed.

Lemma once_catch_free slack q k :
  (∀ p, cont_pend p k = 0) → pres (once_inv slack) (catch_ q k).
Proof.
  intros Hk. unfold catch_. pres_go.
  - by apply once_new_promise.
  - by apply once_subscribe_free.
Qed.

Lemma once_all slack ps : pres (once_inv slack) (promise_all ps).
Proof.
  unfold promise_all. pres_go.
  - by apply once_new_promise.
  - by apply once_subscribe_free.
Qed.

Lemma once_other slack (g : State → State) :
  (∀ s, points (g s) = points s) → (∀ s, promises (g s) = promises s) →
  (∀ s, microtasks (g s) = microtasks s) → (∀ s, trace (g s) = trace s) →
  pres (once_inv slack) (modify g).
Proof.
  intros H1 H2 H3 H4 s Hs p. specialize (Hs p).
  unfold pend, flag in *. simpl. by rewrite H1, H2, H3, H4.
Qed.

Lemma once_new_ExtensionPoint slack o : pres (once_inv slack) (new_ExtensionPoint o).
Proof.
  intros s Hs p. specialize (Hs p). unfold new_ExtensionPoint. simpl.
  rewrite flag_new_point by done. by unfold pend in *.
Qed.

(** [_initialize] sets the flag before it registers the callback that will
    invoke the initializer, and it registers it only when the flag was not
    set. *)
Lemma once_initialize slack q : pres (once_inv slack) (ExtensionPoint__initialize q).
Proof.
  intros s Hs. unfold ExtensionPoint__initialize.
  rewrite (bind_run _ _ s (points s !!! q) s) by done.
  destruct (ep_initialized (points s !!! q)) eqn:Hflag; simpl.
  { revert s Hs Hflag. intros s Hs _. revert s Hs.
    change (pres (once_inv slack)
      (upd_point q (set_ep_initialized true) ;; promise_resolve VUndefined)).
    pres_go; [by apply once_upd_point|by apply once_new_promise]. }
  destruct (truthy (ep_initializer (points s !!! q))) eqn:Hinit; simpl.
  2:{ revert s Hs Hflag Hinit. intros s Hs _ _. revert s Hs.
      change (pres (once_inv slack)
        (upd_point q (set_ep_initialized true) ;; promise_resolve VUndefined)).
      pres_go; [by apply once_upd_point|by apply once_new_promise]. }
  assert (∃ x, points s !! q = Some x ∧ ep_initialized x = false) as (x & Hq & Hx).
  { rewrite list_lookup_total_alt in Hflag, Hinit.
    destruct (points s !! q) as [x|]; [by exists x|done]. }
  pose proof (once_set_flag slack q x s Hq Hx Hs) as H1.
  unfold mbind at 1, M_bind at 1, upd_point, modify.
  set (s1 := with_points _ s) in *.
  assert (pres (once_inv (λ p, slack p + (if Nat.eqb q p then 1 else 0)))
    (system_import (ep_module (points s !!! q)))) as Himp.
  { unfold system_import. pres_go; [by apply once_new_promise|by apply once_log_free]. }
  specialize (Himp s1 H1).
  destruct (system_import (ep_module (points s !!! q)) s1) as [[i|?] s2] eqn:E;
    simpl in Himp.
  - rewrite (bind_run _ _ _ _ _ E). by apply once_then.
  - by rewrite (bind_throw _ _ _ _ _ E); eapply once_weaken; [|done]; intros; simpl; lia.
Qed.

(** Only the callback registered by [_initialize] invokes the initializer,
    and it does so once. *)
Lemma once_initialize_k1 slack q v :
  hoare (once_inv (λ p, slack p + cont_pend p (KPointInit q))) (once_inv slack)
    (ExtensionPoint__initialize_k1 q v).
Proof.
  assert (∀ s, once_inv (λ p, slack p + cont_pend p (KPointInit q)) s →
            once_inv slack s) as Hweak.
  { intros s Hs. eapply once_weaken; [|done]. intros p. simpl. lia. }
  unfold ExtensionPoint__initialize_k1.
  apply hoare_bind_pre; [apply pres_get_point|done|]. intros x.
  apply hoare_bind_pre; [apply pres_get_member|done|]. intros f.
  apply hoare_bind_post.
  - destruct f; simpl.
    + intros s Hs. by apply Hweak.
    + apply hoare_bind_post; [exact (once_log slack (TrPointInitializer q))|].
      intros []. apply pres_throw.
    + apply hoare_bind_post; [exact (once_log slack (TrPointInitializer q))|].
      intros []. apply pres_ret.
    + apply hoare_bind_post; [exact (once_log slack (TrPointInitializer q))|].
      intros []. pres_go. by apply once_new_promise.
  - intros r. unfold value_then. pres_go. by apply once_then_free.
Qed.

Lemma once_generic_cont k : generic_cont k = true → ∀ p, cont_pend p k = 0.
Proof. by destruct k. Qed.

Lemma once_generic_event ev :
  generic_event ev = true → ∀ p, is_point_initializer p ev = false.
Proof. by destruct ev. Qed.

Section once_steps.
Variable slack : nat → nat.

Lemma once_loadData e : pres (once_inv slack) (Extension__loadData e).
Proof.
  unfold Extension__loadData, promise_resolve, system_import. pres_go.
  - by apply once_new_promise.
  - by apply once_new_promise.
  - by apply once_log_free.
  - by apply once_then_free.
Qed.

Lemma once_loadObject e : pres (once_inv slack) (Extension__loadObject e).
Proof.
  unfold Extension__loadObject, promise_resolve, system_import. pres_go.
  - by apply once_new_promise.
  - by apply once_new_promise.
  - by apply once_log_free.
  - by apply once_then_free.
Qed.

Lemma once_upd_extension e f : pres (once_inv slack) (upd_extension e f).
Proof. by apply once_other. Qed.

Lemma once_upd_plugin pl f : pres (once_inv slack) (upd_plugin pl f).
Proof. by apply once_other. Qed.

Ltac once_prim :=
  first
    [ by apply once_then_free, once_generic_cont
    | by apply once_catch_free, once_generic_cont
    | apply once_all
    | by apply once_new_promise
    | by apply once_log_free, once_generic_event
    | by apply once_log_free
    | by apply once_upd_point
    | apply once_upd_extension
    | apply once_upd_plugin
    | by apply once_other
    | apply once_loadData
    | apply once_loadObject
    | apply once_initialize
    | apply once_new_ExtensionPoint ].

(** Every callback other than the one that invokes the initializer. *)
Lemma once_run_cont k v :
  (∀ p, cont_pend p k = 0) → pres (once_inv slack) (run_cont k v).
Proof.
  intros Hk. destruct (generic_cont k) eqn:Hg.
  - apply pres_run_cont; try done; intros; once_prim.
  - destruct k; try discriminate Hg; simpl.
    + specialize (Hk p). simpl in Hk. by rewrite Nat.eqb_refl in Hk.
    + unfold Extension__loadData_k. pres_go. apply once_upd_extension.
    + unfold Extension__loadObject_k1, call_member, value_then. pres_go;
        first [ by apply once_log_free | by apply once_new_promise
              | by apply once_then_free ].
    + unfold Extension__loadObject_k2. pres_go. apply once_upd_extension.
Qed.

Lemma once_run_handler k v c :
  hoare (once_inv (λ p, slack p + cont_pend p k)) (once_inv slack)
    (run_handler k v c).
Proof.
  intros s Hs. unfold run_handler.
  assert (once_inv slack (run_cont k v s).2) as Hk.
  { destruct k; try (apply once_run_cont; [done|];
      eapply once_weaken; [|done]; intros; simpl; lia).
    by apply once_initialize_k1. }
  destruct (run_cont k v s) as [[w|e] s']; simpl in Hk.
  - by apply once_resolve.
  - by apply once_settle.
Qed.

Lemma once_all_element_fulfilled agg :
  pres (once_inv slack) (all_element_fulfilled agg).
Proof.
  intros s Hs. unfold all_element_fulfilled.
  destruct (promises s !! agg) as [c|] eqn:Hagg; [|done].
  assert (once_inv slack (with_promises
    <[agg := mkCell (p_state c) (p_reactions c) (p_external c) (pred (p_remaining c))]> s))
    as H1.
  { intros p. specialize (Hs p). unfold pend, flag in *. simpl.
    pose proof (sum_list_with_insert (cell_pend p) _ _ _
      (mkCell (p_state c) (p_reactions c) (p_external c) (pred (p_remaining c)))
      Hagg) as Hi.
    rewrite cell_pend_mk in Hi.
    change (cell_pend p c) with (sum_list_with (reaction_pend p) (p_reactions c)) in Hi.
    lia. }
  unfold mbind, M_bind, modify. destruct (Nat.eqb _ 0); [|done].
  by apply once_settle.
Qed.

Lemma once_run_microtask m :
  hoare (once_inv (λ p, slack p + task_pend p m)) (once_inv slack)
    (run_microtask m).
Proof.
  assert (∀ s, once_inv (λ p, slack p + task_pend p m) s → once_inv slack s)
    as Hweak.
  { intros s Hs. eapply once_weaken; [|done]. intros p. simpl. lia. }
  destruct m as [[k c|k c|c|agg] [v|e]|c src]; simpl;
    try (intros s Hs; first
      [ by apply once_settle, Hweak
      | by apply once_all_element_fulfilled, Hweak
      | by apply once_subscribe_free, Hweak ]).
  - apply once_run_handler.
  - apply once_run_handler.
Qed.

Lemma once_tick i : pres (once_inv slack) (tick i).
Proof.
  intros s Hs. unfold tick. destruct (microtasks s !! i) as [m|] eqn:Hi; [|done].
  apply once_run_microtask. by apply once_dequeue.
Qed.

Lemma once_env_settle p o : pres (once_inv slack) (env_settle p o).
Proof.
  intros s Hs. unfold env_settle.
  destruct (promises s !! p) as [c|]; [|done].
  destruct (p_external c); [|done].
  destruct o; [by apply once_resolve|by apply once_settle].
Qed.

Lemma once_step ev s : once_inv slack s → once_inv slack (step ev s).
Proof.
  intros Hs. unfold step. destruct (is_job ev) eqn:Hev.
  - destruct ev; try discriminate Hev; simpl; unfold mbind, M_bind.
    + pose proof (once_tick i s Hs). by destruct (tick i s) as [[[]|?] ?].
    + pose proof (once_env_settle p o s Hs).
      by destruct (env_settle p o s) as [[[]|?] ?].
  - apply pres_exec_call; try done; intros; once_prim.
Qed.

Lemma once_run evs s : once_inv slack s → once_inv slack (run evs s).
Proof.
  revert s. induction evs as [|ev evs IH]; intros s Hs; [done|].
  simpl. by apply IH, once_step.
Qed.
End once_steps.

(** C2: whatever calls are made ([connect] on a point included), and however
    jobs and environment events are interleaved with them, the initializer of
    an extension point is invoked at most once. *)
Theorem point_initializer_at_most_once pkgs name evs p :
  inits p (trace (run evs (start pkgs name))) ≤ 1.
Proof.
  assert (once_inv (λ _, 0) (start pkgs name)) as H0.
  { intros q. unfold flag, pend, start. cbn [points promises microtasks trace].
    rewrite lookup_total_nil. simpl. lia. }
  pose proof (once_run (λ _, 0) evs _ H0 p) as Hp.
  unfold flag in Hp. destruct (ep_initialized _); lia.
Qed.

(** ** Running the program from an arbitrary state

    The promise cells and jobs that a call allocates sit at the end of the
    heap and of the queue; the lemmas below address them relative to the
    length of what was there before, and [meval] runs a monadic term one bind
    at a time. *)

Lemma lookup_app_plus {A} (l1 l2 : list A) k :
  (l1 ++ l2) !! (length l1 + k) = l2 !! k.
Proof. rewrite lookup_app_r by lia. f_equal. lia. Qed.

Lemma lookup_app_len {A} (l1 l2 : list A) : (l1 ++ l2) !! length l1 = l2 !! 0.
Proof. rewrite lookup_app_r by lia. f_equal. lia. Qed.

Lemma insert_app_len {A} (l1 l2 : list A) x :
  <[length l1 := x]> (l1 ++ l2) = l1 ++ <[0 := x]> l2.
Proof. rewrite <-(insert_app_r l1 l2 0). f_equal. lia. Qed.

Lemma delete_app_len {A} (l1 l2 : list A) :
  delete (length l1) (l1 ++ l2) = l1 ++ delete 0 l2.
Proof. induction l1; simpl; [done|]. by f_equal. Qed.

Lemma delete_app_plus {A} (l1 l2 : list A) k :
  delete (length l1 + k) (l1 ++ l2) = l1 ++ delete k l2.
Proof. induction l1; simpl; [done|]. by f_equal. Qed.

Lemma snoc_as_app {A} (l : list A) : l = l ++ [].
Proof. by rewrite app_nil_r. Qed.

Lemma lookup_total_alter_same {A} `{!Inhabited A} (f : A → A) (l : list A) i x :
  l !! i = Some x → alter f i l !!! i = f x.
Proof. intros H. by rewrite list_lookup_total_alt, list_lookup_alter_eq, H. Qed.

Lemma bind_eq {A B} (m : M A) (f : A → M B) s r s1 res :
  m s = (r, s1) →
  match r with Ret a => f a s1 | Throw e => (Throw e, s1) end = res →
  (m ≫= f) s = res.
Proof. intros Hm <-. unfold mbind, M_bind. by rewrite Hm. Qed.

Lemma run_handler_eq k v c s r s1 res :
  run_cont k v s = (r, s1) →
  match r with
  | Ret w => resolve c w s1
  | Throw e => settle c (Rejected e) s1
  end = res →
  run_handler k v c s = res.
Proof. intros Hm <-. unfold run_handler. by rewrite Hm. Qed.

Lemma mapM_nil {A B} (f : A → M B) : mapM f [] = mret [].
Proof. done. Qed.

Lemma step_eq ev s r s' : exec ev s = (r, s') → step ev s = s'.
Proof. unfold step. by intros ->. Qed.

Ltac head_of t := lazymatch t with ?f _ => head_of f | _ => t end.

Ltac heap_rw :=
  rewrite ?length_app, ?length_insert, <-?app_assoc, <-?Nat.add_assoc,
    ?lookup_app_plus, ?lookup_app_len, ?insert_app_r, ?insert_app_len,
    ?delete_app_len, ?delete_app_plus, ?mapM_cons, ?mapM_nil.

Ltac state_unfold :=
  unfold with_points, with_extensions, with_plugins, with_allExtensionPoints,
    with_allExtensions, with_availablePlugins, with_loadedPlugins,
    with_promises, with_microtasks, with_trace.

Ltac state_cbn :=
  cbn [points extensions plugins allExtensionPoints allExtensions
       availablePlugins loadedPlugins npm windowName promises microtasks trace
       p_state p_reactions p_external p_remaining
       pending_cell external_cell settled_cell
       fst snd length app fmap list_fmap lookup list_lookup insert list_insert
       delete list_delete Nat.add Nat.eqb Nat.pred negb orb andb
       run_microtask run_cont contribution_value resolve mret M_ret
       get_member call_member value_then hasOwnProperty_dispose to_str
       c_config c_data c_object].

Ltac norm tac := repeat (progress (state_unfold; state_cbn; heap_rw; tac)).

Ltac meval tac :=
  norm tac;
  lazymatch goal with
  | |- (?m ≫= ?f) ?s = _ =>
      eapply bind_eq; [meval tac | cbv beta iota; meval tac]
  | |- run_handler _ _ _ _ = _ =>
      eapply run_handler_eq; [meval tac | cbv beta iota; meval tac]
  | |- mret _ _ = _ => reflexivity
  | |- throw _ _ = _ => reflexivity
  | |- modify _ _ = _ => reflexivity
  | |- enqueue _ _ = _ => reflexivity
  | |- log _ _ = _ => reflexivity
  | |- new_promise _ _ = _ => reflexivity
  | |- get_state _ = _ => reflexivity
  | |- get_point _ _ = _ => reflexivity
  | |- get_extension _ _ = _ => reflexivity
  | |- get_plugin _ _ = _ => reflexivity
  | |- upd_point _ _ _ = _ => reflexivity
  | |- upd_extension _ _ _ = _ => reflexivity
  | |- upd_plugin _ _ _ = _ => reflexivity
  | |- (_, _) = _ => reflexivity
  | |- ?lhs = _ =>
      let h := head_of lhs in
      unfold h; cbv beta; meval tac
  end.

(** Replace the innermost [step] on an explicit state by its result. *)
Ltac step_lit tac :=
  match goal with
  | |- context [step ?ev (mkState ?a ?b ?c ?d ?e ?f ?g ?h ?i ?j ?k ?l)] =>
      erewrite (step_eq ev (mkState a b c d e f g h i j k l)) by (meval tac);
      norm tac
  end.

(** Replace a call on an explicit state by its result. *)
Ltac call_lit m tac :=
  match goal with
  | |- context [m (mkState ?a ?b ?c ?d ?e ?f ?g ?h ?i ?j ?k ?l)] =>
      let E := fresh "E" in
      eassert (m (mkState a b c d e f g h i j k l) = _) as E by (meval tac);
      rewrite !E; clear E; norm tac
  end.

(** ** [Extension.load] after [Extension.initialize] *)

Lemma Extension_initialize_extensions e s :
  extensions (Extension_initialize e s).2
    = alter (set_ex_extension None) e (extensions s).
Proof.
  unfold Extension_initialize, mbind at 1, M_bind at 1, upd_extension, modify.
  set (s1 := with_extensions _ s).
  change (alter _ e (extensions s)) with (extensions s1).
  generalize s1. clear s1 s. intros s.
  set (I := λ s' : State, extensions s' = extensions s).
  assert (∀ f s', I s' → I (with_promises f s')) as H1 by done.
  assert (∀ f s', I s' → I (with_microtasks f s')) as H2 by done.
  assert (∀ ev s', (∀ p e, ev ≠ TrConnect p e) → I s' →
    I (with_trace (λ t, t ++ [ev]) s')) as H3 by done.
  apply (pres_bind I (get_extension e)); [by intros ?|intros x|done].
  destruct (truthy (ex_initializer x)).
  - apply pres_bind; [|intros i; by apply ins_then].
    by apply ins_system_import.
  - by apply ins_resolved.
Qed.

(** C10: [initialize] leaves the extension without its contribution object;
    a [load] made afterwards on an extension with neither data nor loader
    yields [null]; with a data path, or with a loader, the callback that
    stores the resolved value throws on the nulled contribution and the
    promise of [load] rejects. *)
Theorem load_after_initialize :
  (∀ s e, ex_extension (extensions (Extension_initialize e s).2 !!! e) = None) ∧
  (∀ s e x,
     extensions s !! e = Some x → ex_extension x = None →
     truthy (ex_data x) = false → truthy (ex_loader x) = false →
     let n := length (promises s) in
     let q := length (microtasks s) in
     (Extension_load e s).1 = Ret (n + 3) ∧
     promise_state (run [Tick q; Tick q; Tick q] (Extension_load e s).2) (n + 3)
       = Some (Fulfilled VNull)) ∧
  (∀ s e x d,
     extensions s !! e = Some x → ex_extension x = None →
     truthy (ex_data x) = true → truthy (ex_loader x) = false →
     let n := length (promises s) in
     let q := length (microtasks s) in
     (Extension_load e s).1 = Ret (n + 4) ∧
     (Extension__loadData_k e (VData d) s).1 = Throw TypeError ∧
     promise_state
       (run [Settle n (Fulfilled (VData d)); Tick q; Tick q; Tick q; Tick q]
          (Extension_load e s).2) (n + 4)
       = Some (Rejected TypeError)) ∧
  (∀ s e x ms d,
     extensions s !! e = Some x → ex_extension x = None →
     truthy (ex_data x) = false → truthy (ex_loader x) = true →
     assoc (to_str (ex_loader x)) ms = MAsync →
     let n := length (promises s) in
     let q := length (microtasks s) in
     (Extension_load e s).1 = Ret (n + 4) ∧
     (Extension__loadObject_k2 e (VData d) s).1 = Throw TypeError ∧
     promise_state
       (run [Settle (n + 1) (Fulfilled (VModule ms)); Tick q; Tick q; Tick q;
             Settle (n + 5) (Fulfilled (VData d)); Tick q; Tick q; Tick q; Tick q]
          (Extension_load e s).2) (n + 4)
       = Some (Rejected TypeError)).
Proof.
  split; [|split; [|split]].
  - intros s e. rewrite Extension_initialize_extensions.
    rewrite list_lookup_total_alt, list_lookup_alter_eq.
    by destruct (extensions s !! e).
  - intros s e x Hx Hc Hd Hl n q. subst n q.
    destruct s as [pts exts pls aEP aE av ld npm wn ps q0 tr].
    cbn in Hx. pose proof (list_lookup_total_correct _ _ _ Hx) as Hx'.
    call_lit (Extension_load e) ltac:(rewrite ?Hx', ?Hd, ?Hl, ?Hc).
    split; [done|]. unfold run, foldl.
    do 3 step_lit ltac:(rewrite ?Hx', ?Hd, ?Hl, ?Hc).
    unfold promise_state. by norm idtac.
  - intros s e x d Hx Hc Hd Hl n q. subst n q.
    destruct s as [pts exts pls aEP aE av ld npm wn ps q0 tr].
    cbn in Hx. pose proof (list_lookup_total_correct _ _ _ Hx) as Hx'.
    split; [|split].
    + call_lit (Extension_load e) ltac:(rewrite ?Hx', ?Hd, ?Hl, ?Hc). done.
    + call_lit (Extension__loadData_k e (VData d))
        ltac:(rewrite ?Hx', ?Hd, ?Hl, ?Hc). done.
    + call_lit (Extension_load e) ltac:(rewrite ?Hx', ?Hd, ?Hl, ?Hc).
      unfold run, foldl.
      do 5 step_lit ltac:(rewrite ?Hx', ?Hd, ?Hl, ?Hc).
      unfold promise_state. by norm idtac.
  - intros s e x ms d Hx Hc Hd Hl Hms n q. subst n q.
    destruct s as [pts exts pls aEP aE av ld npm wn ps q0 tr].
    cbn in Hx. pose proof (list_lookup_total_correct _ _ _ Hx) as Hx'.
    split; [|split].
    + call_lit (Extension_load e) ltac:(rewrite ?Hx', ?Hd, ?Hl, ?Hc). done.
    + call_lit (Extension__loadObject_k2 e (VData d))
        ltac:(rewrite ?Hx', ?Hd, ?Hl, ?Hc). done.
    + call_lit (Extension_load e) ltac:(rewrite ?Hx', ?Hd, ?Hl, ?Hc).
      unfold run, foldl.
      do 9 step_lit ltac:(rewrite ?Hx', ?Hd, ?Hl, ?Hc, ?Hms).
      unfold promise_state. by norm idtac.
Qed.

Lemma load_after_initialize_witness :
  ex_extension
    (extensions (Extension_initialize 0 (loadExtension plain_extension init_state).2).2
       !!! 0) = None ∧
  (let s := initialized_extension None None in
   (Extension_load 0 s).1 = Ret 3 ∧
   promise_state (run [Tick 0; Tick 0; Tick 0] (Extension_load 0 s).2) 3
     = Some (Fulfilled VNull)) ∧
  (let s := initialized_extension None (Some "bar/data.json") in
   (Extension_load 0 s).1 = Ret 4 ∧
   (Extension__loadData_k 0 (VData 5) s).1 = Throw TypeError ∧
   promise_state
     (run [Settle 0 (Fulfilled (VData 5)); Tick 0; Tick 0; Tick 0; Tick 0]
        (Extension_load 0 s).2) 4
     = Some (Rejected TypeError)) ∧
  (let s := initialized_extension (Some "make") None in
   (Extension_load 0 s).1 = Ret 4 ∧
   (Extension__loadObject_k2 0 (VData 5) s).1 = Throw TypeError ∧
   promise_state
     (run [Settle 1 (Fulfilled (VModule [("make", MAsync)])); Tick 0; Tick 0; Tick 0;
           Settle 5 (Fulfilled (VData 5)); Tick 0; Tick 0; Tick 0; Tick 0]
        (Extension_load 0 s).2) 4
     = Some (Rejected TypeError)).
Proof.
  split; [|split; [|split]].
  - apply (proj1 load_after_initialize).
  - eapply (proj1 (proj2 load_after_initialize) (initialized_extension None None) 0);
      reflexivity.
  - eapply (proj1 (proj2 (proj2 load_after_initialize))
      (initialized_extension None (Some "bar/data.json")) 0); reflexivity.
  - eapply (proj2 (proj2 (proj2 load_after_initialize))
      (initialized_extension (Some "make") None) 0); reflexivity.
Defined.

(** ** [Extension.load]: the two resolutions *)

(** C6: [load] with only a data path imports the data and nothing else and
    the promise for the object is resolved from the start; with only a loader
    it imports the module and nothing else; with both, both imports are
    issued within the one synchronous call, while the first is still
    pending; and the field that is not configured keeps the value it had when
    the load completes. *)
Theorem load_resolves_independently :
  (∀ s e x,
     extensions s !! e = Some x →
     truthy (ex_data x) = true → truthy (ex_loader x) = false →
     let n := length (promises s) in
     let s1 := (Extension_load e s).2 in
     trace s1 = trace s ++ [TrImport (ex_data x) n] ∧
     promise_state s1 (n + 2) = Some (Fulfilled VUndefined)) ∧
  (∀ s e x,
     extensions s !! e = Some x →
     truthy (ex_data x) = false → truthy (ex_loader x) = true →
     let n := length (promises s) in
     let s1 := (Extension_load e s).2 in
     trace s1 = trace s ++ [TrImport (ex_module x) (n + 1)] ∧
     promise_state s1 n = Some (Fulfilled VUndefined)) ∧
  (∀ s e x,
     extensions s !! e = Some x →
     truthy (ex_data x) = true → truthy (ex_loader x) = true →
     let n := length (promises s) in
     let s1 := (Extension_load e s).2 in
     trace s1 = trace s ++ [TrImport (ex_data x) n; TrImport (ex_module x) (n + 2)] ∧
     promise_state s1 n = None ∧ promise_state s1 (n + 2) = None ∧
     microtasks s1 = microtasks s) ∧
  (∀ s e x c d,
     extensions s !! e = Some x → ex_extension x = Some c →
     truthy (ex_data x) = true → truthy (ex_loader x) = false →
     let n := length (promises s) in
     let q := length (microtasks s) in
     let s2 := run [Settle n (Fulfilled (VData d)); Tick q; Tick q; Tick q; Tick q]
                 (Extension_load e s).2 in
     promise_state s2 (n + 4)
       = Some (Fulfilled (VContribution (c_config c) (VData d) (c_object c))) ∧
     trace s2 = trace s ++ [TrImport (ex_data x) n]) ∧
  (∀ s e x c ms d,
     extensions s !! e = Some x → ex_extension x = Some c →
     truthy (ex_data x) = false → truthy (ex_loader x) = true →
     assoc (to_str (ex_loader x)) ms = MAsync →
     let n := length (promises s) in
     let q := length (microtasks s) in
     let s2 := run [Settle (n + 1) (Fulfilled (VModule ms)); Tick q; Tick q; Tick q;
                    Settle (n + 5) (Fulfilled (VData d)); Tick q; Tick q; Tick q; Tick q]
                 (Extension_load e s).2 in
     promise_state s2 (n + 4)
       = Some (Fulfilled (VContribution (c_config c) (c_data c) (VData d))) ∧
     trace s2 = trace s ++ [TrImport (ex_module x) (n + 1); TrLoader e]).
Proof.
  split; [|split; [|split; [|split]]].
  - intros s e x Hx Hd Hl n s1. subst n s1.
    destruct s as [pts exts pls aEP aE av ld npm wn ps q0 tr].
    cbn in Hx. pose proof (list_lookup_total_correct _ _ _ Hx) as Hx'.
    call_lit (Extension_load e) ltac:(rewrite ?Hx', ?Hd, ?Hl).
    unfold promise_state. by norm idtac.
  - intros s e x Hx Hd Hl n s1. subst n s1.
    destruct s as [pts exts pls aEP aE av ld npm wn ps q0 tr].
    cbn in Hx. pose proof (list_lookup_total_correct _ _ _ Hx) as Hx'.
    call_lit (Extension_load e) ltac:(rewrite ?Hx', ?Hd, ?Hl).
    unfold promise_state. by norm idtac.
  - intros s e x Hx Hd Hl n s1. subst n s1.
    destruct s as [pts exts pls aEP aE av ld npm wn ps q0 tr].
    cbn in Hx. pose proof (list_lookup_total_correct _ _ _ Hx) as Hx'.
    call_lit (Extension_load e) ltac:(rewrite ?Hx', ?Hd, ?Hl).
    unfold promise_state. by norm idtac.
  - intros s e x c d Hx Hc Hd Hl n q s2. subst n q s2.
    destruct s as [pts exts pls aEP aE av ld npm wn ps q0 tr].
    cbn in Hx. pose proof (list_lookup_total_correct _ _ _ Hx) as Hx'.
    call_lit (Extension_load e) ltac:(rewrite ?Hx', ?Hd, ?Hl, ?Hc).
    unfold run, foldl.
    do 5 step_lit ltac:(
      rewrite ?(lookup_total_alter_same _ _ _ _ Hx), ?Hx', ?Hd, ?Hl, ?Hc;
      cbn [set_ex_extension ex_extension]).
    unfold promise_state. by norm idtac.
  - intros s e x c ms d Hx Hc Hd Hl Hms n q s2. subst n q s2.
    destruct s as [pts exts pls aEP aE av ld npm wn ps q0 tr].
    cbn in Hx. pose proof (list_lookup_total_correct _ _ _ Hx) as Hx'.
    call_lit (Extension_load e) ltac:(rewrite ?Hx', ?Hd, ?Hl, ?Hc).
    unfold run, foldl.
    do 9 step_lit ltac:(
      rewrite ?(lookup_total_alter_same _ _ _ _ Hx), ?Hx', ?Hd, ?Hl, ?Hc, ?Hms;
      cbn [set_ex_extension ex_extension]).
    unfold promise_state. by norm idtac.
Qed.

Lemma load_resolves_independently_witness :
  (let s1 := (Extension_load 0 (fresh_extension None (Some "bar/data.json"))).2 in
   trace s1 = [TrImport (Some "bar/data.json") 0] ∧
   promise_state s1 2 = Some (Fulfilled VUndefined)) ∧
  (let s1 := (Extension_load 0 (fresh_extension (Some "make") None)).2 in
   trace s1 = [TrImport (Some "bar/index") 1] ∧
   promise_state s1 0 = Some (Fulfilled VUndefined)) ∧
  (let s1 := (Extension_load 0 (fresh_extension (Some "make") (Some "bar/data.json"))).2 in
   trace s1 = [TrImport (Some "bar/data.json") 0; TrImport (Some "bar/index") 2] ∧
   promise_state s1 0 = None ∧ promise_state s1 2 = None ∧ microtasks s1 = []) ∧
  (let s2 := run [Settle 0 (Fulfilled (VData 5)); Tick 0; Tick 0; Tick 0; Tick 0]
               (Extension_load 0 (fresh_extension None (Some "bar/data.json"))).2 in
   promise_state s2 4 = Some (Fulfilled (VContribution 7 (VData 5) VUndefined)) ∧
   trace s2 = [TrImport (Some "bar/data.json") 0]) ∧
  (let s2 := run [Settle 1 (Fulfilled (VModule [("make", MAsync)])); Tick 0; Tick 0;
                  Tick 0; Settle 5 (Fulfilled (VData 5)); Tick 0; Tick 0; Tick 0; Tick 0]
               (Extension_load 0 (fresh_extension (Some "make") None)).2 in
   promise_state s2 4 = Some (Fulfilled (VContribution 7 VUndefined (VData 5))) ∧
   trace s2 = [TrImport (Some "bar/index") 1; TrLoader 0]).
Proof.
  split; [|split; [|split; [|split]]].
  - apply (proj1 load_resolves_independently
      (fresh_extension None (Some "bar/data.json")) 0
      (fresh_object None (Some "bar/data.json"))); reflexivity.
  - apply (proj1 (proj2 load_resolves_independently)
      (fresh_extension (Some "make") None) 0
      (fresh_object (Some "make") None)); reflexivity.
  - apply (proj1 (proj2 (proj2 load_resolves_independently))
      (fresh_extension (Some "make") (Some "bar/data.json")) 0
      (fresh_object (Some "make") (Some "bar/data.json"))); reflexivity.
  - apply (proj1 (proj2 (proj2 (proj2 load_resolves_independently)))
      (fresh_extension None (Some "bar/data.json")) 0
      (fresh_object None (Some "bar/data.json"))
      (mkContribution 7 VUndefined VUndefined) 5); reflexivity.
  - apply (proj2 (proj2 (proj2 (proj2 load_resolves_independently)))
      (fresh_extension (Some "make") None) 0
      (fresh_object (Some "make") None)
      (mkContribution 7 VUndefined VUndefined) [("make", MAsync)] 5); reflexivity.
Defined.

(** ** [ExtensionPoint.connect] and failures *)

Lemma connect_uninitialized s p e :
  ep_initialized (points s !!! p) = false →
  (ExtensionPoint_connect p e s).1 = Ret (length (promises s) + 2) ∧
  trace (ExtensionPoint_connect p e s).2
    = trace s ++ [TrConnect p e; TrImport (ep_module (points s !!! p)) (length (promises s))].
Proof.
  intros Hflag. destruct s as [pts exts pls aEP aE av ld npm wn ps q0 tr].
  cbn in Hflag.
  call_lit (ExtensionPoint_connect p e) ltac:(rewrite ?Hflag). done.
Qed.

Lemma connect_load_rejected s p e err :
  ep_initialized (points s !!! p) = false →
  let n := length (promises s) in
  let q := length (microtasks s) in
  let s1 := (ExtensionPoint_connect p e s).2 in
  let s2 := run [Settle n (Rejected err); Tick q; Tick q] s1 in
  promise_state s2 (n + 2) = Some (Rejected err) ∧
  points s2 = points s ∧ trace s2 = trace s1.
Proof.
  intros Hflag n q s1 s2. subst n q s1 s2.
  destruct s as [pts exts pls aEP aE av ld npm wn ps q0 tr].
  cbn in Hflag.
  call_lit (ExtensionPoint_connect p e) ltac:(rewrite ?Hflag).
  unfold run, foldl.
  do 3 step_lit ltac:(rewrite ?Hflag).
  unfold promise_state. by norm idtac.
Qed.

(** Once set, the flag of a point stays set. *)
Lemma initialized_stable ev s p :
  ep_initialized (points s !!! p) = true →
  ep_initialized (points (step ev s) !!! p) = true.
Proof.
  assert (∀ f q s', (∀ x, ep_initialized (f x) = true ∨
                         ep_initialized (f x) = ep_initialized x) →
    ep_initialized (points s' !!! p) = true →
    ep_initialized (points (with_points (alter f q) s') !!! p) = true) as Halter.
  { intros f q s' Hf. simpl. rewrite !list_lookup_total_alt.
    destruct (decide (q = p)) as [->|Hne].
    - rewrite list_lookup_alter_eq. destruct (points s' !! p) as [x|]; simpl; [|done].
      intros Hx. by destruct (Hf x) as [->| ->].
    - by rewrite list_lookup_alter_ne. }
  apply (ins_step (λ s', ep_initialized (points s' !!! p) = true)); try done.
  - intros q s'. apply Halter. by left.
  - intros q f s'. apply Halter. by right.
  - intros q d s'. apply Halter. by right.
  - intros o s' Hs'. unfold new_ExtensionPoint. simpl.
    rewrite list_lookup_total_alt in Hs' |- *.
    destruct (points s' !! p) as [x|] eqn:Hp; [|done].
    by rewrite (lookup_app_l_Some _ _ _ _ Hp).
  - by intros o s'.
Qed.



(** ** The promise of [Plugin.load] never rejects *)

Lemma reaction_ok_mono S n n' p r : n ≤ n' → reaction_ok S n p r → reaction_ok S n' p r.
Proof. intros Hn [H1 H2]. split; [lia|done]. Qed.

Lemma task_ok_mono S n n' m : n ≤ n' → task_ok S n m → task_ok S n' m.
Proof. intros Hn. destruct m; simpl; intros [H1 H2]; (split; [lia|done]). Qed.

Lemma cell_ok_mono S n n' p c : n ≤ n' → cell_ok S n p c → cell_ok S n' p c.
Proof.
  intros Hn [H1 H2]. split; [|done].
  eapply Forall_impl; [done|]. intros r. by apply reaction_ok_mono.
Qed.

(** The promise heap only grows. *)
Section grow.
Variable n : nat.

Let grown (s : State) : Prop := n ≤ length (promises s).

Lemma grow_promises_only {A} (m : M A) :
  (∀ s, length (promises s) ≤ length (promises (m s).2)) → pres grown m.
Proof. intros Hm s Hs. unfold grown in *. specialize (Hm s). lia. Qed.

Lemma grow_subscribe p r : pres grown (subscribe p r).
Proof.
  apply grow_promises_only. intros s. unfold subscribe.
  destruct (promises s !! p) as [c|]; [|done].
  destruct (p_state c); simpl; [done|by rewrite length_insert].
Qed.

Lemma grow_new_promise c : pres grown (new_promise c).
Proof.
  apply grow_promises_only. intros s. simpl. rewrite length_app. lia.
Qed.

Lemma grow_then p k : pres grown (then_ p k).
Proof. unfold then_. pres_go; [apply grow_new_promise|apply grow_subscribe]. Qed.

Lemma grow_catch p k : pres grown (catch_ p k).
Proof. unfold catch_. pres_go; [apply grow_new_promise|apply grow_subscribe]. Qed.

Lemma grow_all ps : pres grown (promise_all ps).
Proof. unfold promise_all. pres_go; [apply grow_new_promise|apply grow_subscribe]. Qed.

Ltac grow_prim :=
  first
    [ apply grow_then
    | apply grow_catch
    | apply grow_all
    | apply grow_new_promise
    | by apply grow_promises_only ].

Lemma grow_system_import path : pres grown (system_import path).
Proof. unfold system_import. pres_go; grow_prim. Qed.

Lemma grow_call_member ev f : pres grown (call_member ev f).
Proof. unfold call_member. pres_go; grow_prim. Qed.

Lemma grow_value_then v k : pres grown (value_then v k).
Proof. unfold value_then. pres_go; grow_prim. Qed.

Lemma grow_loadData e : pres grown (Extension__loadData e).
Proof.
  pose proof grow_system_import.
  unfold Extension__loadData, promise_resolve. pres_go; grow_prim.
Qed.

Lemma grow_loadObject e : pres grown (Extension__loadObject e).
Proof.
  pose proof grow_system_import.
  unfold Extension__loadObject, promise_resolve. pres_go; grow_prim.
Qed.

Lemma grow_initialize p : pres grown (ExtensionPoint__initialize p).
Proof.
  pose proof grow_system_import.
  unfold ExtensionPoint__initialize, promise_resolve. pres_go; grow_prim.
Qed.

Lemma grow_run_cont k v s :
  n ≤ length (promises s) → n ≤ length (promises (run_cont k v s).2).
Proof.
  revert s. change (pres grown (run_cont k v)).
  destruct (generic_cont k) eqn:Hg.
  - apply pres_run_cont; try done; intros;
      first [ apply grow_loadData | apply grow_loadObject
            | apply grow_initialize | grow_prim ].
  - pose proof grow_call_member. pose proof grow_value_then.
    destruct k; try discriminate Hg; simpl;
      unfold ExtensionPoint__initialize_k1, Extension__loadData_k,
        Extension__loadObject_k1, Extension__loadObject_k2;
      pres_go; grow_prim.
Qed.
End grow.

Section closed.
Variable S : nat → bool.

Lemma closed_not_member s : closed S s → S (length (promises s)) = false.
Proof.
  intros (Hb & _ & _). destruct (S (length (promises s))) eqn:HS; [|done].
  apply Hb in HS. lia.
Qed.

Lemma closed_new_promise c0 :
  p_reactions c0 = [] → pres (closed S) (new_promise c0).
Proof.
  intros Hc0 s Hs. pose proof (closed_not_member s Hs) as Hnew.
  destruct Hs as (Hb & Hc & Ht). unfold new_promise, closed. simpl.
  split; [|split].
  - intros q Hq. rewrite length_app. apply Hb in Hq. simpl. lia.
  - intros p c Hp. rewrite length_app. simpl.
    apply lookup_app_Some in Hp as [Hp|[Hlen Hp]].
    + eapply cell_ok_mono; [|by apply Hc]. lia.
    + apply list_lookup_singleton_Some in Hp as [Hp ->].
      assert (p = length (promises s)) as -> by lia.
      split; [by rewrite Hc0|]. by rewrite Hnew.
  - rewrite length_app. simpl.
    eapply Forall_impl; [done|]. intros m. apply task_ok_mono. lia.
Qed.

Lemma closed_enqueue ms :
  ∀ s, closed S s → Forall (task_ok S (length (promises s))) ms →
  closed S (enqueue ms s).2.
Proof.
  intros s (Hb & Hc & Ht) Hms. unfold enqueue, modify, closed. simpl.
  split; [done|]. split; [done|]. by apply Forall_app.
Qed.

(** A reaction may be registered on [p] when it fulfils its target or when
    its target is not in [S]. *)
Lemma closed_subscribe p r s :
  closed S s → reaction_ok S (length (promises s)) p r →
  closed S (subscribe p r s).2.
Proof.
  intros Hs Hr. unfold subscribe.
  destruct (promises s !! p) as [c|] eqn:Hp; [|done].
  destruct (p_state c) as [o|] eqn:Ho.
  - apply closed_enqueue; [done|]. apply Forall_singleton. simpl.
    destruct Hr as [Hr1 Hr2]. split; [done|]. intros HS.
    destruct (Hr2 HS) as [?|[Hq HSp]]; [by left|right]. split; [done|].
    destruct Hs as (_ & Hc & _). destruct (Hc _ _ Hp) as [_ Hok].
    destruct (Hok HSp) as [_ Hrej]. destruct o; [done|]. by destruct (Hrej e).
  - destruct Hs as (Hb & Hc & Ht). unfold modify, closed. simpl.
    split; [by rewrite length_insert|]. split; [|by rewrite length_insert].
    intros p' c' Hp'. rewrite length_insert.
    destruct (decide (p = p')) as [<-|Hne].
    + rewrite list_lookup_insert_eq in Hp' by (by eapply lookup_lt_Some).
      injection Hp' as <-. destruct (Hc _ _ Hp) as [H1 H2].
      split; [simpl; apply Forall_app; split; [done|by apply Forall_singleton]|].
      simpl. intros HSp. destruct (H2 HSp) as [H3 H4]. split; [done|]. by intros e.
    + rewrite list_lookup_insert_ne in Hp' by done. by apply Hc.
Qed.

(** A member of [S] may only be fulfilled. *)
Lemma closed_settle p o s :
  closed S s → (S p = true → fulfilled o = true) → closed S (settle p o s).2.
Proof.
  intros Hs Ho. unfold settle.
  destruct (promises s !! p) as [c|] eqn:Hp; [|done].
  destruct (p_state c) as [o'|] eqn:Hst; [done|].
  destruct Hs as (Hb & Hc & Ht). unfold closed. simpl.
  destruct (Hc _ _ Hp) as [H1 H2].
  split; [by rewrite length_insert|]. split.
  - intros p' c' Hp'. rewrite length_insert.
    destruct (decide (p = p')) as [<-|Hne].
    + rewrite list_lookup_insert_eq in Hp' by (by eapply lookup_lt_Some).
      injection Hp' as <-. split; [done|]. simpl.
      intros HSp. destruct (H2 HSp) as [H3 H4]. split; [done|].
      intros e He. injection He as ->. by specialize (Ho HSp).
    + rewrite list_lookup_insert_ne in Hp' by done. by apply Hc.
  - rewrite length_insert. apply Forall_app. split; [done|].
    apply Forall_fmap. eapply Forall_impl; [done|].
    intros r [Hr1 Hr2]. simpl. split; [done|]. intros HS.
    destruct (Hr2 HS) as [?|[Hq HSp]]; [by left|right]. split; [done|]. by apply Ho.
Qed.

Lemma closed_resolve p v s :
  closed S s → p < length (promises s) →
  (S p = true → ∀ src, v ≠ VPromise src) →
  closed S (resolve p v s).2.
Proof.
  intros Hs Hp Hv. destruct v; simpl; try (by apply closed_settle).
  apply closed_enqueue; [done|]. apply Forall_singleton. simpl. split; [done|].
  destruct (S p) eqn:HS; [|done]. by destruct (Hv eq_refl p0).
Qed.

Lemma closed_other {A} (m : M A) :
  (∀ s, promises (m s).2 = promises s) →
  (∀ s, microtasks (m s).2 = microtasks s) →
  pres (closed S) m.
Proof.
  intros H1 H2 s (Hb & Hc & Ht). unfold closed. by rewrite H1, H2.
Qed.

Lemma closed_child p r s :
  closed S s → target r = length (promises s) →
  closed S ((c ← new_promise pending_cell; subscribe p r ;; mret c) s).2.
Proof.
  intros Hs Hr.
  pose proof (closed_new_promise pending_cell eq_refl s Hs) as H1.
  pose proof (closed_not_member s Hs) as Hnew.
  rewrite (bind_run _ _ s (length (promises s))
    (with_promises (λ l, l ++ [pending_cell]) s)) by done.
  unfold new_promise in H1. simpl in H1.
  assert (reaction_ok S
    (length (promises (with_promises (λ l, l ++ [pending_cell]) s))) p r) as Hok.
  { split; [simpl; rewrite length_app, Hr; simpl; lia|]. by rewrite Hr, Hnew. }
  pose proof (closed_subscribe p r _ H1 Hok) as H2.
  destruct (subscribe p r _) as [[[]|?] s2] eqn:E.
  - by rewrite (bind_run _ _ _ _ _ E).
  - by rewrite (bind_throw _ _ _ _ _ E).
Qed.

Lemma closed_then p k : pres (closed S) (then_ p k).
Proof.
  intros s Hs. unfold then_.
  pose proof (closed_child p (RThen k (length (promises s))) s Hs eq_refl) as H.
  revert H. unfold mbind at 1 3, M_bind at 1 3, new_promise. done.
Qed.

Lemma closed_catch p k : pres (closed S) (catch_ p k).
Proof.
  intros s Hs. unfold catch_.
  pose proof (closed_child p (RCatch k (length (promises s))) s Hs eq_refl) as H.
  revert H. unfold mbind at 1 3, M_bind at 1 3, new_promise. done.
Qed.

Lemma closed_mapM_subscribe agg ps s :
  closed S s → agg < length (promises s) →
  (S agg = true → Forall (λ p, S p = true) ps) →
  closed S (mapM (λ p, subscribe p (RAll agg)) ps s).2.
Proof.
  revert s. induction ps as [|p ps IH]; intros s Hs Hagg HS; [done|].
  rewrite mapM_cons.
  pose proof (closed_subscribe p (RAll agg) s Hs) as H1.
  destruct (returns_subscribe p (RAll agg) s) as [[] Hr].
  destruct (subscribe p (RAll agg) s) as [[[]|?] s1] eqn:E; [|done].
  rewrite (bind_run _ _ _ _ _ E). simpl in H1.
  assert (length (promises s1) = length (promises s)) as Hlen.
  { revert E. unfold subscribe. destruct (promises s !! p) as [c|]; [|by intros [= <-]].
    destruct (p_state c); intros [= <-]; simpl; [done|by rewrite length_insert]. }
  assert (closed S s1) as Hs1.
  { apply H1. split; [done|]. simpl. intros Ha. right. split; [done|].
    apply HS in Ha. by inversion Ha. }
  specialize (IH s1 Hs1). rewrite Hlen in IH. specialize (IH Hagg).
  assert (S agg = true → Forall (λ p, S p = true) ps) as HS'.
  { intros Ha. apply HS in Ha. by inversion Ha. }
  specialize (IH HS').
  destruct (mapM (λ p, subscribe p (RAll agg)) ps s1) as [[l|?] s2] eqn:E2.
  - by rewrite (bind_run _ _ _ _ _ E2).
  - by rewrite (bind_throw _ _ _ _ _ E2).
Qed.

Lemma closed_all ps : pres (closed S) (promise_all ps).
Proof.
  intros s Hs. unfold promise_all.
  set (c0 := mkCell _ [] false (length ps)).
  pose proof (closed_new_promise c0 eq_refl s Hs) as H1.
  pose proof (closed_not_member s Hs) as Hnew.
  rewrite (bind_run _ _ s (length (promises s))
    (with_promises (λ l, l ++ [c0]) s)) by done.
  unfold new_promise in H1. simpl in H1.
  set (s1 := with_promises _ s) in *.
  pose proof (closed_mapM_subscribe (length (promises s)) ps s1 H1) as H2.
  destruct (mapM (λ p, subscribe p (RAll (length (promises s)))) ps s1)
    as [[l|?] s2] eqn:E.
  - rewrite (bind_run _ _ _ _ _ E). apply H2; [|by rewrite Hnew].
    unfold s1. simpl. rewrite length_app. simpl. lia.
  - rewrite (bind_throw _ _ _ _ _ E). apply H2; [|by rewrite Hnew].
    unfold s1. simpl. rewrite length_app. simpl. lia.
Qed.
Ltac closed_prim :=
  first
    [ apply closed_then
    | apply closed_catch
    | apply closed_all
    | by apply closed_new_promise
    | by apply closed_other ].

Lemma closed_system_import path : pres (closed S) (system_import path).
Proof. unfold system_import. pres_go; closed_prim. Qed.

Lemma closed_call_member ev f : pres (closed S) (call_member ev f).
Proof. unfold call_member. pres_go; closed_prim. Qed.

Lemma closed_value_then v k : pres (closed S) (value_then v k).
Proof. unfold value_then. pres_go; closed_prim. Qed.

Lemma closed_loadData e : pres (closed S) (Extension__loadData e).
Proof.
  pose proof closed_system_import.
  unfold Extension__loadData, promise_resolve. pres_go; closed_prim.
Qed.

Lemma closed_loadObject e : pres (closed S) (Extension__loadObject e).
Proof.
  pose proof closed_system_import.
  unfold Extension__loadObject, promise_resolve. pres_go; closed_prim.
Qed.

Lemma closed_initialize p : pres (closed S) (ExtensionPoint__initialize p).
Proof.
  pose proof closed_system_import.
  unfold ExtensionPoint__initialize, promise_resolve. pres_go; closed_prim.
Qed.

Lemma closed_run_cont k v : pres (closed S) (run_cont k v).
Proof.
  destruct (generic_cont k) eqn:Hg.
  - apply pres_run_cont; try done; intros;
      first [ apply closed_loadData | apply closed_loadObject
            | apply closed_initialize | closed_prim ].
  - pose proof closed_call_member. pose proof closed_value_then.
    destruct k; try discriminate Hg; simpl;
      unfold ExtensionPoint__initialize_k1, Extension__loadData_k,
        Extension__loadObject_k1, Extension__loadObject_k2;
      pres_go; closed_prim.
Qed.

Lemma closed_exec_call ev : is_job ev = false → pres (closed S) (exec ev).
Proof.
  intros Hev. apply pres_exec_call; try done; intros;
    first [ apply closed_loadData | apply closed_loadObject
          | apply closed_initialize | closed_prim ].
Qed.

Lemma closed_dequeue i m s :
  microtasks s !! i = Some m → closed S s →
  closed S (with_microtasks (delete i) s) ∧ task_ok S (length (promises s)) m.
Proof.
  intros Hi (Hb & Hc & Ht). split.
  - unfold closed. simpl. split; [done|]. split; [done|].
    by apply Forall_delete.
  - eapply Forall_lookup_1; done.
Qed.

(** A callback whose target is in [S] is the logging callback of a [catch]
    or the callback at the end of [Plugin.load]; both return a plain
    value. *)
Lemma closed_run_handler k v c s :
  closed S s → c < length (promises s) →
  (S c = true → k = KLogError ∨ ∃ pl, k = KPluginLoaded pl) →
  closed S (run_handler k v c s).2.
Proof.
  intros Hs Hc Hk. unfold run_handler.
  pose proof (closed_run_cont k v s Hs) as H1.
  pose proof (grow_run_cont (length (promises s)) k v s (le_n _)) as Hlen.
  destruct (run_cont k v s) as [[w|e] s'] eqn:E; simpl in *.
  - apply closed_resolve; [done|lia|]. intros HS src ->.
    destruct (Hk HS) as [->|[pl ->]]; simpl in E.
    + unfold log_error_k, log, modify, mbind, M_bind, mret, M_ret in E.
      simpl in E. congruence.
    + unfold Plugin_load_k, mret, M_ret in E. congruence.
  - apply closed_settle; [done|]. intros HS.
    destruct (Hk HS) as [->|[pl ->]]; simpl in E.
    + unfold log_error_k, log, modify, mbind, M_bind, mret, M_ret in E.
      simpl in E. congruence.
    + unfold Plugin_load_k, mret, M_ret in E. congruence.
Qed.

Lemma closed_all_element_fulfilled agg s :
  closed S s → closed S (all_element_fulfilled agg s).2.
Proof.
  intros Hs. unfold all_element_fulfilled.
  destruct (promises s !! agg) as [c|] eqn:Hagg; [|done].
  assert (closed S (with_promises
    <[agg := mkCell (p_state c) (p_reactions c) (p_external c) (pred (p_remaining c))]> s))
    as H1.
  { destruct Hs as (Hb & Hc & Ht). unfold closed. simpl.
    rewrite length_insert. split; [done|]. split; [|done].
    intros p' c' Hp'. destruct (decide (agg = p')) as [<-|Hne].
    - rewrite list_lookup_insert_eq in Hp' by (by eapply lookup_lt_Some).
      injection Hp' as <-. by apply (Hc _ _ Hagg).
    - rewrite list_lookup_insert_ne in Hp' by done. by apply Hc. }
  unfold mbind, M_bind, modify. destruct (Nat.eqb _ 0); [|done].
  by apply closed_settle.
Qed.

Lemma closed_run_microtask m s :
  closed S s → task_ok S (length (promises s)) m →
  closed S (run_microtask m s).2.
Proof.
  intros Hs Hm. destruct m as [[k c|k c|c|agg] [v|e]|c src]; simpl in *;
    destruct Hm as [Hm1 Hm2].
  - apply closed_run_handler; [done..|]. intros HS.
    destruct (Hm2 HS) as [?|[Hq _]]; [done|].
    destruct k; try done. right. by eexists.
  - apply closed_settle; [done|]. intros HS. by destruct (Hm2 HS) as [?|[_ ?]].
  - by apply closed_settle.
  - apply closed_run_handler; [done..|]. intros HS.
    destruct (Hm2 HS) as [Hq|[? _]]; [|done]. destruct k; try done. by left.
  - by apply closed_settle.
  - apply closed_settle; [done|]. intros HS. by destruct (Hm2 HS) as [?|[_ ?]].
  - by apply closed_all_element_fulfilled.
  - apply closed_settle; [done|]. intros HS. by destruct (Hm2 HS) as [?|[_ ?]].
  - apply closed_subscribe; [done|]. split; [done|]. simpl. by rewrite Hm2.
Qed.

Lemma closed_tick i : pres (closed S) (tick i).
Proof.
  intros s Hs. unfold tick. destruct (microtasks s !! i) as [m|] eqn:Hi; [|done].
  destruct (closed_dequeue i m s Hi Hs) as [H1 H2].
  by apply closed_run_microtask.
Qed.

Lemma closed_env_settle p o : pres (closed S) (env_settle p o).
Proof.
  intros s Hs. unfold env_settle.
  destruct (promises s !! p) as [c|] eqn:Hp; [|done].
  destruct (p_external c) eqn:Hext; [|done].
  assert (S p = false) as HS.
  { destruct (S p) eqn:HS; [|done]. destruct Hs as (_ & Hc & _).
    destruct (Hc _ _ Hp) as [_ Hok]. destruct (Hok HS). congruence. }
  destruct o.
  - apply closed_resolve; [done|by eapply lookup_lt_Some|]. by rewrite HS.
  - apply closed_settle; [done|]. by rewrite HS.
Qed.

Lemma closed_step ev s : closed S s → closed S (step ev s).
Proof.
  intros Hs. unfold step. destruct (is_job ev) eqn:Hev.
  - destruct ev; try discriminate Hev; simpl; unfold mbind, M_bind.
    + pose proof (closed_tick i s Hs). by destruct (tick i s) as [[[]|?] ?].
    + pose proof (closed_env_settle p o s Hs).
      by destruct (env_settle p o s) as [[[]|?] ?].
  - by apply closed_exec_call.
Qed.

Lemma closed_run evs s : closed S s → closed S (run evs s).
Proof.
  revert s. induction evs as [|ev evs IH]; intros s Hs; [done|].
  simpl. by apply IH, closed_step.
Qed.

Lemma closed_not_rejected s p e :
  closed S s → S p = true → promise_state s p ≠ Some (Rejected e).
Proof.
  intros (Hb & Hc & _) HS. unfold promise_state.
  destruct (promises s !! p) as [c|] eqn:Hp; [|done]. simpl.
  destruct (Hc _ _ Hp) as [_ Hok]. by apply Hok.
Qed.
End closed.

Lemma pres_bind_ret {A B} (I : State → Prop) (m : M A) (f : A → B) :
  pres I (r ← m; mret (f r)) → pres I m.
Proof.
  intros H s Hs. specialize (H s Hs). revert H. unfold mbind, M_bind.
  by destruct (m s) as [[a|e] s'].
Qed.

Lemma closed_loadExtensionPoint S o : pres (closed S) (loadExtensionPoint o).
Proof.
  apply (pres_bind_ret _ _ VPromise).
  by apply (closed_exec_call S (CallLoadExtensionPoint o)).
Qed.

Lemma closed_loadExtension S o : pres (closed S) (loadExtension o).
Proof.
  apply (pres_bind_ret _ _ VPromise).
  by apply (closed_exec_call S (CallLoadExtension o)).
Qed.

(** *** Adding a promise to the set *)

Lemma extends_refl S : extends S S.
Proof. by intros q. Qed.

Lemma extends_trans S1 S2 S3 : extends S1 S2 → extends S2 S3 → extends S1 S3.
Proof. intros H1 H2 q Hq. by apply H2, H1. Qed.

Lemma extends_add S c : extends S (add_member S c).
Proof. intros q Hq. unfold add_member. by rewrite Hq. Qed.

Lemma add_member_new S c : add_member S c c = true.
Proof. unfold add_member. rewrite Nat.eqb_refl. apply orb_true_r. Qed.

Lemma add_member_old S c q : q ≠ c → add_member S c q = S q.
Proof.
  intros Hq. unfold add_member.
  destruct (Nat.eqb_spec q c); [done|]. apply orb_false_r.
Qed.

(** A fresh promise that is pending or fulfilled, and that the environment
    does not settle, may join the set: nothing refers to it yet. *)
Lemma closed_new_member S c0 s :
  closed S s → p_reactions c0 = [] → p_external c0 = false →
  (∀ e, p_state c0 ≠ Some (Rejected e)) →
  closed (add_member S (length (promises s))) (new_promise c0 s).2.
Proof.
  intros Hs Hr0 Hx0 Hst0. pose proof (closed_not_member S s Hs) as Hnew.
  destruct Hs as (Hb & Hc & Ht). unfold new_promise, closed. simpl.
  rewrite length_app. simpl.
  assert (∀ r p, reaction_ok S (length (promises s)) p r →
    reaction_ok (add_member S (length (promises s)))
      (length (promises s) + 1) p r) as Hreact.
  { intros r p [H1 H2]. split; [lia|].
    rewrite add_member_old by lia. intros HS.
    destruct (H2 HS) as [?|[? Hp]]; [by left|right].
    split; [done|]. by apply extends_add. }
  split; [|split].
  - intros q. unfold add_member. intros [Hq|Hq]%orb_true_iff.
    + apply Hb in Hq. lia.
    + apply Nat.eqb_eq in Hq. lia.
  - intros p c Hp. apply lookup_app_Some in Hp as [Hp|[Hlen Hp]].
    + destruct (Hc _ _ Hp) as [H1 H2]. split.
      * eapply Forall_impl; [done|]. intros r. apply Hreact.
      * apply lookup_lt_Some in Hp. rewrite add_member_old by lia. done.
    + apply list_lookup_singleton_Some in Hp as [Hp ->].
      split; [by rewrite Hr0|done].
  - eapply Forall_impl; [done|]. intros [r o|c src]; simpl.
    + intros [H1 H2]. split; [lia|]. by rewrite add_member_old by lia.
    + intros [H1 H2]. split; [lia|]. by rewrite add_member_old by lia.
Qed.

Lemma closed_member_child S p r s :
  closed S s → target r = length (promises s) →
  catches r = true ∨ (quiet r = true ∧ S p = true) →
  let s1 := with_promises (λ l, l ++ [pending_cell]) s in
  closed (add_member S (length (promises s)))
    ((subscribe p r ;; mret (length (promises s))) s1).2 ∧
  ((subscribe p r ;; mret (length (promises s))) s1).1 =
    Ret (length (promises s)).
Proof.
  intros Hs Hr Hk s1.
  pose proof (closed_new_member S pending_cell s Hs eq_refl eq_refl) as H1.
  unfold new_promise in H1. simpl in H1. fold s1 in H1.
  assert (reaction_ok (add_member S (length (promises s)))
    (length (promises s1)) p r) as Hok.
  { split; [unfold s1; simpl; rewrite length_app, Hr; simpl; lia|]. intros _.
    destruct Hk as [?|[? Hp]]; [by left|right].
    split; [done|]. by apply extends_add. }
  pose proof (closed_subscribe _ p r _ (H1 ltac:(done)) Hok) as H2.
  destruct (returns_subscribe p r s1) as [[] Hret].
  destruct (subscribe p r s1) as [[[]|?] s2] eqn:E; [|done].
  by rewrite (bind_run _ _ _ _ _ E).
Qed.

Lemma joins_catch t : joins (catch_ t KLogError).
Proof.
  intros S s Hs. exists (add_member S (length (promises s))).
  split; [apply extends_add|].
  destruct (closed_member_child S t (RCatch KLogError (length (promises s))) s
    Hs eq_refl) as [H1 H2]; [by left|].
  unfold catch_.
  rewrite (bind_run _ _ s (length (promises s))
    (with_promises (λ l, l ++ [pending_cell]) s)) by done.
  split; [done|]. intros c Hc. rewrite H2 in Hc.
  injection Hc as <-. apply add_member_new.
Qed.

Lemma joins_then_loaded a pl S s :
  closed S s → S a = true →
  closed (add_member S (length (promises s))) (then_ a (KPluginLoaded pl) s).2 ∧
  (then_ a (KPluginLoaded pl) s).1 = Ret (length (promises s)).
Proof.
  intros Hs Ha.
  destruct (closed_member_child S a
    (RThen (KPluginLoaded pl) (length (promises s))) s Hs eq_refl) as [H1 H2];
    [by right|].
  unfold then_.
  by rewrite (bind_run _ _ s (length (promises s))
    (with_promises (λ l, l ++ [pending_cell]) s)) by done.
Qed.

Lemma joins_promise_all ps S s :
  closed S s → Forall (λ p, S p = true) ps →
  closed (add_member S (length (promises s))) (promise_all ps s).2 ∧
  (promise_all ps s).1 = Ret (length (promises s)).
Proof.
  intros Hs Hps. unfold promise_all.
  set (c0 := mkCell _ [] false (length ps)).
  assert (∀ e, p_state c0 ≠ Some (Rejected e)) as Hc0.
  { intros e. unfold c0. simpl. by destruct ps. }
  pose proof (closed_new_member S c0 s Hs eq_refl eq_refl Hc0) as H1.
  rewrite (bind_run _ _ s (length (promises s))
    (with_promises (λ l, l ++ [c0]) s)) by done.
  unfold new_promise in H1. simpl in H1.
  set (s1 := with_promises _ s) in *.
  pose proof (closed_mapM_subscribe _ (length (promises s)) ps s1 H1) as H2.
  assert (returns (mapM (λ p, subscribe p (RAll (length (promises s)))) ps)) as Hret.
  { apply returns_mapM. intros p. apply returns_subscribe. }
  destruct (Hret s1) as [l Hl].
  destruct (mapM (λ p, subscribe p (RAll (length (promises s)))) ps s1)
    as [[l'|?] s2] eqn:E; [|done].
  rewrite (bind_run _ _ _ _ _ E). split; [|done]. apply H2.
  - unfold s1. simpl. rewrite length_app. simpl. lia.
  - intros _. eapply Forall_impl; [done|]. intros p. apply extends_add.
Qed.

Lemma joins_throw e : joins (throw e).
Proof. intros S s Hs. exists S. split; [apply extends_refl|]. by split. Qed.

Lemma joins_bind {A} (m : M A) (f : A → M nat) :
  (∀ S, pres (closed S) m) → (∀ a, joins (f a)) → joins (m ≫= f).
Proof.
  intros Hm Hf S s Hs. specialize (Hm S s Hs).
  destruct (m s) as [[a|e] s1] eqn:E.
  - rewrite (bind_run _ _ _ _ _ E). by apply Hf.
  - rewrite (bind_throw _ _ _ _ _ E). exists S.
    split; [apply extends_refl|]. by split.
Qed.

Lemma joins_all_mapM {A} (f : A → M nat) (l : list A) :
  (∀ a, joins (f a)) → joins_all (mapM f l).
Proof.
  intros Hf. induction l as [|a l IH]; intros S s Hs.
  - exists S. split; [apply extends_refl|]. split; [done|].
    intros cs [= <-]. constructor.
  - rewrite mapM_cons. destruct (Hf a S s Hs) as (S1 & He1 & Hc1 & Hr1).
    destruct (f a s) as [[c|e] s1] eqn:E.
    + rewrite (bind_run _ _ _ _ _ E).
      destruct (IH S1 s1 Hc1) as (S2 & He2 & Hc2 & Hr2).
      exists S2. split; [by eapply extends_trans|].
      destruct (mapM f l s1) as [[cs|e] s2] eqn:E2.
      * rewrite (bind_run _ _ _ _ _ E2). split; [done|].
        intros cs' [= <-]. constructor; [by apply He2, Hr1|by apply Hr2].
      * rewrite (bind_throw _ _ _ _ _ E2). by split.
    + rewrite (bind_throw _ _ _ _ _ E). exists S1. by split.
Qed.

Lemma closed_upd_plugin S pl f : pres (closed S) (upd_plugin pl f).
Proof. by apply closed_other. Qed.

Lemma joins_Plugin__loadExtensionPoint pl i : joins (Plugin__loadExtensionPoint pl i).
Proof.
  unfold Plugin__loadExtensionPoint. apply joins_bind.
  { intros S. by apply closed_other. }
  intros x. destruct (_ !! i) as [point|]; [|apply joins_throw].
  apply joins_bind; [intros S; apply closed_upd_plugin|]. intros _.
  apply joins_bind; [intros S; apply closed_loadExtensionPoint|]. intros r.
  apply joins_bind; [intros S; apply closed_then|]. intros t.
  apply joins_catch.
Qed.

Lemma joins_Plugin__loadExtension pl i : joins (Plugin__loadExtension pl i).
Proof.
  unfold Plugin__loadExtension. apply joins_bind.
  { intros S. by apply closed_other. }
  intros x. destruct (_ !! i) as [extension|]; [|apply joins_throw].
  apply joins_bind; [intros S; apply closed_upd_plugin|]. intros _.
  apply joins_bind; [intros S; apply closed_loadExtension|]. intros r.
  apply joins_bind; [intros S; apply closed_then|]. intros t.
  apply joins_catch.
Qed.

(** The promise returned by [Plugin.load] joins the set. *)
Lemma joins_Plugin_load pl : joins (Plugin_load pl).
Proof.
  intros S s Hs. unfold Plugin_load.
  rewrite (bind_run _ _ s (plugins s !!! pl) s) by done.
  set (m1 := match pl_extensionPoints (plugins s !!! pl) with
             | Some l => mapM (Plugin__loadExtensionPoint pl) (seq 0 (length l))
             | None => mret []
             end).
  assert (joins_all m1) as Hm1.
  { unfold m1. destruct (pl_extensionPoints _).
    - apply joins_all_mapM, joins_Plugin__loadExtensionPoint.
    - apply (joins_all_mapM (Plugin__loadExtensionPoint pl) []).
      apply joins_Plugin__loadExtensionPoint. }
  destruct (Hm1 S s Hs) as (S1 & He1 & Hc1 & Hr1).
  destruct (m1 s) as [[ps1|e] s1] eqn:E1.
  2: { rewrite (bind_throw _ _ _ _ _ E1). exists S1. by split. }
  rewrite (bind_run _ _ _ _ _ E1).
  rewrite (bind_run _ _ s1 (plugins s1 !!! pl) s1) by done.
  set (m2 := match pl_extensions (plugins s1 !!! pl) with
             | Some l => mapM (Plugin__loadExtension pl) (seq 0 (length l))
             | None => mret []
             end).
  assert (joins_all m2) as Hm2.
  { unfold m2. destruct (pl_extensions _).
    - apply joins_all_mapM, joins_Plugin__loadExtension.
    - apply (joins_all_mapM (Plugin__loadExtension pl) []).
      apply joins_Plugin__loadExtension. }
  destruct (Hm2 S1 s1 Hc1) as (S2 & He2 & Hc2 & Hr2).
  destruct (m2 s1) as [[ps2|e] s2] eqn:E2.
  2: { rewrite (bind_throw _ _ _ _ _ E2). exists S2.
       split; [by eapply extends_trans|]. by split. }
  rewrite (bind_run _ _ _ _ _ E2).
  assert (Forall (λ p, S2 p = true) (ps1 ++ ps2)) as Hall.
  { apply Forall_app. split; [|by apply Hr2].
    eapply Forall_impl; [by apply Hr1|]. intros p. apply He2. }
  destruct (joins_promise_all (ps1 ++ ps2) S2 s2 Hc2 Hall) as [Hc3 Hr3].
  destruct (promise_all (ps1 ++ ps2) s2) as [[a|e] s3] eqn:E3; [|done].
  rewrite (bind_run _ _ _ _ _ E3). simpl in Hc3, Hr3. injection Hr3 as ->.
  set (S3 := add_member S2 (length (promises s2))) in *.
  destruct (joins_then_loaded (length (promises s2)) pl S3 s3 Hc3
    (add_member_new _ _)) as [Hc4 Hr4].
  exists (add_member S3 (length (promises s3))). split.
  { eapply extends_trans; [done|]. eapply extends_trans; [done|].
    eapply extends_trans; apply extends_add. }
  split; [done|]. intros c Hc. rewrite Hr4 in Hc. injection Hc as <-.
  apply add_member_new.
Qed.

(** *** Every declared entry is registered *)

Ltac plugins_prim :=
  first
    [ by apply ins_then
    | by apply ins_catch
    | by apply ins_all
    | by apply ins_resolved
    | by apply ins_new_promise
    | by apply ins_loadData
    | by apply ins_loadObject
    | by apply ins_generic_log
    | by apply ins_log
    | by intros ? ? ].

Lemma plugins_loadExtensionPoint o s :
  plugins (loadExtensionPoint o s).2 = plugins s.
Proof.
  apply (pres_loadExtensionPoint (λ s', plugins s' = plugins s));
    try done; intros; plugins_prim.
Qed.

Lemma plugins_loadExtension o s :
  plugins (loadExtension o s).2 = plugins s.
Proof.
  apply (pres_loadExtension (λ s', plugins s' = plugins s));
    try done; intros; plugins_prim.
Qed.

Lemma plugins_then p k s : plugins (then_ p k s).2 = plugins s.
Proof. by apply (ins_then (λ s', plugins s' = plugins s)). Qed.

Lemma plugins_catch p k s : plugins (catch_ p k s).2 = plugins s.
Proof. by apply (ins_catch (λ s', plugins s' = plugins s)). Qed.

Lemma frame_catch x p k : pres (λ s, frame s = x) (catch_ p k).
Proof. apply ins_catch; auto using frame_promises, frame_microtasks. Qed.

Lemma declared_plugin s pl :
  plugins s !! pl = None →
  point_ids s pl = [] ∧ extension_points s pl = [].
Proof.
  intros Hpl. unfold point_ids, extension_points.
  by rewrite list_lookup_total_alt, Hpl.
Qed.

(** Rewriting the [module] and [data] paths of entry [i] keeps the ids. *)
Lemma point_ids_alter s pl i o o' :
  default [] (pl_extensionPoints (plugins s !!! pl)) !! i = Some o →
  pj_id o' = pj_id o →
  ∀ s', plugins s' = alter (λ x, set_pl_extensionPoints
          (option_map <[i := o']> (pl_extensionPoints x)) x) pl (plugins s) →
  point_ids s' pl = point_ids s pl ∧ extension_points s' pl = extension_points s pl.
Proof.
  intros Hi Ho s' Hs'. unfold point_ids, extension_points. rewrite Hs'.
  destruct (plugins s !! pl) as [x|] eqn:Hpl.
  - rewrite (lookup_total_alter_same _ _ _ _ Hpl).
    rewrite (list_lookup_total_correct _ _ _ Hpl) in Hi |- *. simpl.
    split; [|done]. destruct (pl_extensionPoints x) as [l|]; [|done]. simpl in *.
    rewrite list_fmap_insert, Ho. apply list_insert_id.
    by rewrite list_lookup_fmap, Hi.
  - rewrite list_lookup_total_alt, Hpl in Hi. done.
Qed.

Lemma extension_points_alter s pl i o o' :
  default [] (pl_extensions (plugins s !!! pl)) !! i = Some o →
  ej_point o' = ej_point o →
  ∀ s', plugins s' = alter (λ x, set_pl_extensions
          (option_map <[i := o']> (pl_extensions x)) x) pl (plugins s) →
  point_ids s' pl = point_ids s pl ∧ extension_points s' pl = extension_points s pl.
Proof.
  intros Hi Ho s' Hs'. unfold point_ids, extension_points. rewrite Hs'.
  destruct (plugins s !! pl) as [x|] eqn:Hpl.
  - rewrite (lookup_total_alter_same _ _ _ _ Hpl).
    rewrite (list_lookup_total_correct _ _ _ Hpl) in Hi |- *. simpl.
    split; [done|]. destruct (pl_extensions x) as [l|]; [|done]. simpl in *.
    rewrite list_fmap_insert, Ho. apply list_insert_id.
    by rewrite list_lookup_fmap, Hi.
  - rewrite list_lookup_total_alt, Hpl in Hi. done.
Qed.

(** One call of [_loadExtensionPoint] returns, and registers the point. *)
Lemma Plugin__loadExtensionPoint_spec pl i s id :
  point_ids s pl !! i = Some id →
  ∃ c s', Plugin__loadExtensionPoint pl i s = (Ret c, s') ∧
    point_ids s' pl = point_ids s pl ∧
    extension_points s' pl = extension_points s pl ∧
    frame s' =
      (S (length (points s)), length (extensions s),
       <[id := length (points s)]> (allExtensionPoints s),
       delete id (allExtensions s),
       connects (trace s) ++
         ((λ e, (length (points s), e)) <$> default [] (allExtensions s !! id))).
Proof.
  intros Hid. unfold point_ids in Hid. rewrite list_lookup_fmap in Hid.
  destruct (default [] _ !! i) as [o|] eqn:Ho; [|done]. injection Hid as <-.
  unfold Plugin__loadExtensionPoint.
  rewrite (bind_run _ _ s (plugins s !!! pl) s) by done.
  rewrite Ho. cbv zeta.
  match goal with |- context [loadExtensionPoint ?c] => set (o' := c) end.
  match goal with |- context [upd_plugin pl ?g] => set (f := g) end.
  rewrite (bind_run _ _ s () (with_plugins (alter f pl) s)) by done.
  set (s1 := with_plugins (alter f pl) s).
  destruct (returns_loadExtensionPoint o' s1) as [r Hr].
  pose proof (plugins_loadExtensionPoint o' s1) as Hp2.
  pose proof (loadExtensionPoint_frame s1 o') as Hf2.
  destruct (loadExtensionPoint o' s1) as [[r'|?] s2] eqn:E2; [|done].
  rewrite (bind_run _ _ _ _ _ E2). simpl in Hp2, Hf2.
  destruct (returns_then r' (KAddDisposable pl) s2) as [t Ht].
  pose proof (plugins_then r' (KAddDisposable pl) s2) as Hp3.
  pose proof (frame_then (frame s2) r' (KAddDisposable pl) s2 eq_refl) as Hf3.
  destruct (then_ r' (KAddDisposable pl) s2) as [[t'|?] s3] eqn:E3; [|done].
  rewrite (bind_run _ _ _ _ _ E3). simpl in Hp3, Hf3.
  destruct (returns_catch t' KLogError s3) as [c Hc].
  pose proof (plugins_catch t' KLogError s3) as Hp4.
  pose proof (frame_catch (frame s3) t' KLogError s3 eq_refl) as Hf4.
  destruct (catch_ t' KLogError s3) as [[c'|?] s4] eqn:E4; [|done].
  simpl in Hp4, Hf4. exists c', s4. split; [done|].
  assert (plugins s4 = alter f pl (plugins s)) as Hp.
  { by rewrite Hp4, Hp3, Hp2. }
  destruct (point_ids_alter s pl i o o' Ho eq_refl s4 Hp) as [H1 H2].
  split; [done|]. split; [done|].
  by rewrite Hf4, Hf3, Hf2.
Qed.

(** One call of [_loadExtension] returns, and registers the extension: it
    is handed to its point, or it waits for the point. *)
Lemma Plugin__loadExtension_spec pl i s pt :
  extension_points s pl !! i = Some pt →
  ∃ c s', Plugin__loadExtension pl i s = (Ret c, s') ∧
    point_ids s' pl = point_ids s pl ∧
    extension_points s' pl = extension_points s pl ∧
    frame s' =
      match allExtensionPoints s !! pt with
      | Some p =>
          (length (points s), S (length (extensions s)),
           allExtensionPoints s, allExtensions s,
           connects (trace s) ++ [(p, length (extensions s))])
      | None =>
          (length (points s), S (length (extensions s)),
           allExtensionPoints s,
           <[pt := default [] (allExtensions s !! pt) ++ [length (extensions s)]]>
             (allExtensions s),
           connects (trace s))
      end.
Proof.
  intros Hid. unfold extension_points in Hid. rewrite list_lookup_fmap in Hid.
  destruct (default [] _ !! i) as [o|] eqn:Ho; [|done]. injection Hid as <-.
  unfold Plugin__loadExtension.
  rewrite (bind_run _ _ s (plugins s !!! pl) s) by done.
  rewrite Ho. cbv zeta.
  match goal with |- context [loadExtension ?c] => set (o' := c) end.
  match goal with |- context [upd_plugin pl ?g] => set (f := g) end.
  rewrite (bind_run _ _ s () (with_plugins (alter f pl) s)) by done.
  set (s1 := with_plugins (alter f pl) s).
  destruct (returns_loadExtension o' s1) as [r Hr].
  pose proof (plugins_loadExtension o' s1) as Hp2.
  assert (frame (loadExtension o' s1).2 =
    match allExtensionPoints s !! ej_point o with
    | Some p =>
        (length (points s), S (length (extensions s)),
         allExtensionPoints s, allExtensions s,
         connects (trace s) ++ [(p, length (extensions s))])
    | None =>
        (length (points s), S (length (extensions s)),
         allExtensionPoints s,
         <[ej_point o := default [] (allExtensions s !! ej_point o) ++
                         [length (extensions s)]]> (allExtensions s),
         connects (trace s))
    end) as Hf2.
  { destruct (allExtensionPoints s !! ej_point o) as [p|] eqn:Hpt.
    - by rewrite (loadExtension_frame_registered s1 o' p).
    - by rewrite (loadExtension_frame_pending s1 o'). }
  destruct (loadExtension o' s1) as [[r'|?] s2] eqn:E2; [|done].
  rewrite (bind_run _ _ _ _ _ E2). simpl in Hp2, Hf2.
  destruct (returns_then r' (KAddDisposable pl) s2) as [t Ht].
  pose proof (plugins_then r' (KAddDisposable pl) s2) as Hp3.
  pose proof (frame_then (frame s2) r' (KAddDisposable pl) s2 eq_refl) as Hf3.
  destruct (then_ r' (KAddDisposable pl) s2) as [[t'|?] s3] eqn:E3; [|done].
  rewrite (bind_run _ _ _ _ _ E3). simpl in Hp3, Hf3.
  destruct (returns_catch t' KLogError s3) as [c Hc].
  pose proof (plugins_catch t' KLogError s3) as Hp4.
  pose proof (frame_catch (frame s3) t' KLogError s3 eq_refl) as Hf4.
  destruct (catch_ t' KLogError s3) as [[c'|?] s4] eqn:E4; [|done].
  simpl in Hp4, Hf4. exists c', s4. split; [done|].
  assert (plugins s4 = alter f pl (plugins s)) as Hp.
  { by rewrite Hp4, Hp3, Hp2. }
  destruct (extension_points_alter s pl i o o' Ho eq_refl s4 Hp) as [H1 H2].
  split; [done|]. split; [done|].
  by rewrite Hf4, Hf3, Hf2.
Qed.

Lemma points_loop pl ids s :
  Forall (λ i, i < length (point_ids s pl)) ids →
  ∃ cs s', mapM (Plugin__loadExtensionPoint pl) ids s = (Ret cs, s') ∧
    point_ids s' pl = point_ids s pl ∧
    extension_points s' pl = extension_points s pl ∧
    length (points s') = length (points s) + length ids ∧
    length (extensions s') = length (extensions s) ∧
    (∀ id, is_Some (allExtensionPoints s !! id) →
           is_Some (allExtensionPoints s' !! id)) ∧
    (∀ i id, i ∈ ids → point_ids s pl !! i = Some id →
             is_Some (allExtensionPoints s' !! id)).
Proof.
  revert s. induction ids as [|i ids IH]; intros s Hall.
  - exists [], s. split; [done|]. split; [done|]. split; [done|].
    split; [simpl; lia|]. split; [done|]. split; [done|].
    intros i id Hi. by apply elem_of_nil in Hi.
  - apply Forall_cons in Hall as [Hi Hall].
    destruct (lookup_lt_is_Some_2 _ _ Hi) as [id Hid].
    destruct (Plugin__loadExtensionPoint_spec pl i s id Hid)
      as (c & s1 & E1 & Hp1 & He1 & Hf1).
    unfold frame in Hf1. injection Hf1 as Hpts Hexts Hx Hq Hc.
    destruct (IH s1) as (cs & s2 & E2 & Hp2 & He2 & Hpts2 & Hexts2 & Hx2 & Hreg2).
    { by rewrite Hp1. }
    exists (c :: cs), s2. rewrite mapM_cons.
    rewrite (bind_run _ _ _ _ _ E1), (bind_run _ _ _ _ _ E2).
    split; [done|]. split; [by rewrite Hp2|]. split; [by rewrite He2|].
    split; [rewrite Hpts2, Hpts; simpl; lia|]. split; [by rewrite Hexts2|].
    split.
    + intros id' Hid'. apply Hx2. rewrite Hx.
      destruct (decide (id = id')) as [->|Hne].
      * by rewrite lookup_insert_eq.
      * by rewrite lookup_insert_ne.
    + intros i' id' Hi' Hid'. apply elem_of_cons in Hi' as [->|Hi'].
      * apply Hx2. rewrite Hx. assert (id' = id) as -> by congruence.
        by rewrite lookup_insert_eq.
      * apply (Hreg2 i'); [done|]. by rewrite Hp1.
Qed.

Lemma placed_loadExtension s s' pt0 :
  frame s' =
    match allExtensionPoints s !! pt0 with
    | Some p =>
        (length (points s), S (length (extensions s)),
         allExtensionPoints s, allExtensions s,
         connects (trace s) ++ [(p, length (extensions s))])
    | None =>
        (length (points s), S (length (extensions s)),
         allExtensionPoints s,
         <[pt0 := default [] (allExtensions s !! pt0) ++ [length (extensions s)]]>
           (allExtensions s),
         connects (trace s))
    end →
  length (points s') = length (points s) ∧
  length (extensions s') = S (length (extensions s)) ∧
  allExtensionPoints s' = allExtensionPoints s ∧
  (∀ pt e, placed s pt e → placed s' pt e) ∧
  placed s' pt0 (length (extensions s)).
Proof.
  intros Hf. unfold frame in Hf.
  destruct (allExtensionPoints s !! pt0) as [p|] eqn:Hpt;
    injection Hf as Hpts Hexts Hx Hq Hc; repeat split; try done.
  - intros pt e [(q & Hq1 & Hq2)|Hw]; [left|right].
    + exists q. rewrite Hx, Hc. split; [done|]. apply elem_of_app. by left.
    + by rewrite Hq.
  - left. exists p. rewrite Hx, Hc. split; [done|].
    apply elem_of_app. right. by apply list_elem_of_singleton.
  - intros pt e [(q & Hq1 & Hq2)|Hw]; [left|right].
    + exists q. by rewrite Hx, Hc.
    + rewrite Hq. destruct (decide (pt0 = pt)) as [->|Hne].
      * rewrite lookup_insert_eq. simpl. apply elem_of_app. by left.
      * by rewrite lookup_insert_ne.
  - right. rewrite Hq, lookup_insert_eq. simpl.
    apply elem_of_app. right. by apply list_elem_of_singleton.
Qed.

Lemma extensions_loop pl js s :
  Forall (λ j, j < length (extension_points s pl)) js →
  ∃ cs s', mapM (Plugin__loadExtension pl) js s = (Ret cs, s') ∧
    point_ids s' pl = point_ids s pl ∧
    extension_points s' pl = extension_points s pl ∧
    length (points s') = length (points s) ∧
    length (extensions s') = length (extensions s) + length js ∧
    allExtensionPoints s' = allExtensionPoints s ∧
    (∀ pt e, placed s pt e → placed s' pt e) ∧
    (∀ k j pt, js !! k = Some j → extension_points s pl !! j = Some pt →
               placed s' pt (length (extensions s) + k)).
Proof.
  revert s. induction js as [|j js IH]; intros s Hall.
  - exists [], s. split; [done|]. split; [done|]. split; [done|].
    split; [done|]. split; [simpl; lia|]. split; [done|]. split; [done|].
    intros k j pt Hk. done.
  - apply Forall_cons in Hall as [Hj Hall].
    destruct (lookup_lt_is_Some_2 _ _ Hj) as [pt0 Hpt0].
    destruct (Plugin__loadExtension_spec pl j s pt0 Hpt0)
      as (c & s1 & E1 & Hp1 & He1 & Hf1).
    destruct (placed_loadExtension s s1 pt0 Hf1)
      as (Hpts & Hexts & Hx & Hmono & Hnew).
    destruct (IH s1) as (cs & s2 & E2 & Hp2 & He2 & Hpts2 & Hexts2 & Hx2 &
      Hmono2 & Hreg2).
    { by rewrite He1. }
    exists (c :: cs), s2. rewrite mapM_cons.
    rewrite (bind_run _ _ _ _ _ E1), (bind_run _ _ _ _ _ E2).
    split; [done|]. split; [by rewrite Hp2|]. split; [by rewrite He2|].
    split; [by rewrite Hpts2|]. split; [rewrite Hexts2, Hexts; simpl; lia|].
    split; [by rewrite Hx2|]. split; [by intros pt e H; apply Hmono2, Hmono|].
    intros k j' pt Hk Hpt. destruct k as [|k]; simpl in Hk.
    + injection Hk as <-. assert (pt = pt0) as -> by congruence.
      rewrite Nat.add_0_r. by apply Hmono2.
    + specialize (Hreg2 k j' pt Hk). rewrite He1, Hexts in Hreg2.
      replace (length (extensions s) + S k) with (S (length (extensions s)) + k)
        by lia.
      by apply Hreg2.
Qed.

Lemma placed_frame s s' pt e : frame s = frame s' → placed s pt e → placed s' pt e.
Proof.
  unfold frame, placed. intros Hf. injection Hf as _ _ Hx Hq Hc.
  by rewrite Hx, Hq, Hc.
Qed.

(** [Plugin.load] returns, and by then every declared entry is registered:
    each point under its id, each extension with its point or on the
    waiting list of its point. *)
Lemma Plugin_load_registers pl s :
  ∃ r s', Plugin_load pl s = (Ret r, s') ∧
    length (points s') = length (points s) + length (point_ids s pl) ∧
    length (extensions s') =
      length (extensions s) + length (extension_points s pl) ∧
    (∀ i id, point_ids s pl !! i = Some id →
             is_Some (allExtensionPoints s' !! id)) ∧
    (∀ j pt, extension_points s pl !! j = Some pt →
             placed s' pt (length (extensions s) + j)).
Proof.
  unfold Plugin_load.
  rewrite (bind_run _ _ s (plugins s !!! pl) s) by done.
  assert (match pl_extensionPoints (plugins s !!! pl) with
          | Some l => mapM (Plugin__loadExtensionPoint pl) (seq 0 (length l))
          | None => mret []
          end =
          mapM (Plugin__loadExtensionPoint pl) (seq 0 (length (point_ids s pl))))
    as ->.
  { unfold point_ids. rewrite length_fmap. by destruct (pl_extensionPoints _). }
  destruct (points_loop pl (seq 0 (length (point_ids s pl))) s)
    as (ps1 & s1 & E1 & Hp1 & He1 & Hpts1 & Hexts1 & Hx1 & Hreg1).
  { apply Forall_forall. intros i Hi. apply elem_of_seq in Hi. lia. }
  rewrite (bind_run _ _ _ _ _ E1).
  rewrite (bind_run _ _ s1 (plugins s1 !!! pl) s1) by done.
  assert (match pl_extensions (plugins s1 !!! pl) with
          | Some l => mapM (Plugin__loadExtension pl) (seq 0 (length l))
          | None => mret []
          end =
          mapM (Plugin__loadExtension pl) (seq 0 (length (extension_points s1 pl))))
    as ->.
  { unfold extension_points. rewrite length_fmap. by destruct (pl_extensions _). }
  destruct (extensions_loop pl (seq 0 (length (extension_points s1 pl))) s1)
    as (ps2 & s2 & E2 & Hp2 & He2 & Hpts2 & Hexts2 & Hx2 & Hmono2 & Hreg2).
  { apply Forall_forall. intros i Hi. apply elem_of_seq in Hi. lia. }
  rewrite (bind_run _ _ _ _ _ E2).
  destruct (returns_promise_all (ps1 ++ ps2) s2) as [a Ha].
  pose proof (frame_promise_all (frame s2) (ps1 ++ ps2) s2 eq_refl) as Hf3.
  destruct (promise_all (ps1 ++ ps2) s2) as [[a'|?] s3] eqn:E3; [|done].
  rewrite (bind_run _ _ _ _ _ E3). simpl in Hf3.
  destruct (returns_then a' (KPluginLoaded pl) s3) as [r Hr].
  pose proof (frame_then (frame s3) a' (KPluginLoaded pl) s3 eq_refl) as Hf4.
  destruct (then_ a' (KPluginLoaded pl) s3) as [[r'|?] s4] eqn:E4; [|done].
  simpl in Hf4. exists r', s4. split; [done|].
  assert (frame s4 = frame s2) as Hf by (by rewrite Hf4).
  rewrite length_seq in Hpts1, Hexts2. rewrite He1 in Hexts2.
  pose proof Hf as Hf'. unfold frame in Hf'. injection Hf' as Hpts Hexts Hx _ _.
  split; [by rewrite Hpts, Hpts2|]. split; [by rewrite Hexts, Hexts2, Hexts1|].
  split.
  - intros i id Hi. rewrite Hx, Hx2. apply (Hreg1 i); [|done].
    apply elem_of_seq. apply lookup_lt_Some in Hi. lia.
  - intros j pt Hj. apply (placed_frame s2); [done|].
    rewrite <- Hexts1. apply (Hreg2 j j).
    + apply lookup_lt_Some in Hj. rewrite lookup_seq_lt; [done|].
      by rewrite He1.
    + by rewrite He1.
Qed.

Lemma closed_start pkgs name : closed (λ _, false) (start pkgs name).
Proof.
  split; [done|]. split; [|by apply Forall_nil].
  intros p c Hp. done.
Qed.

(** *** Rejections reach the logging callback *)

Section logged.
Variables t c : nat.

Lemma logged_new_promise c0 : pres (logged t c) (new_promise c0).
Proof.
  intros s. unfold logged, new_promise. simpl.
  destruct (promises s !! t) as [cell|] eqn:Ht; [|done].
  by rewrite (lookup_app_l_Some _ _ _ _ Ht).
Qed.

Lemma logged_enqueue ms : pres (logged t c) (enqueue ms).
Proof.
  intros s. unfold logged, enqueue, modify. simpl.
  destruct (promises s !! t) as [cell|]; [|done].
  destruct (p_state cell) as [[v|err]|]; try done.
  intros [H|H]; [left; apply elem_of_app; by left|by right].
Qed.

Lemma logged_subscribe p r : pres (logged t c) (subscribe p r).
Proof.
  intros s Hs. unfold subscribe.
  destruct (promises s !! p) as [cp|] eqn:Hp; [|done].
  destruct (p_state cp) as [o|] eqn:Ho; [by apply logged_enqueue|].
  revert Hs. unfold logged, modify. simpl.
  destruct (decide (p = t)) as [->|Hne].
  - rewrite Hp, Ho.
    rewrite list_lookup_insert_eq by (by eapply lookup_lt_Some). simpl.
    intros H. apply elem_of_app. by left.
  - by rewrite list_lookup_insert_ne.
Qed.

Lemma logged_settle p o : pres (logged t c) (settle p o).
Proof.
  intros s Hs. unfold settle.
  destruct (promises s !! p) as [cp|] eqn:Hp; [|done].
  destruct (p_state cp) as [o'|] eqn:Ho; [done|].
  revert Hs. unfold logged. simpl.
  destruct (decide (p = t)) as [->|Hne].
  - rewrite Hp, Ho.
    rewrite list_lookup_insert_eq by (by eapply lookup_lt_Some). simpl.
    intros H. destruct o as [v|err]; [done|]. left.
    apply elem_of_app. right. by apply (list_elem_of_fmap_2 (λ r, MReaction r _)).
  - rewrite list_lookup_insert_ne by done.
    destruct (promises s !! t) as [cell|]; [|done].
    destruct (p_state cell) as [[v|err]|]; try done.
    intros [H|H]; [left; apply elem_of_app; by left|by right].
Qed.

Lemma logged_resolve p v : pres (logged t c) (resolve p v).
Proof. destruct v; simpl; first [apply logged_settle | apply logged_enqueue]. Qed.

Lemma logged_log ev : pres (logged t c) (log ev).
Proof.
  intros s. unfold logged, log, modify. simpl.
  destruct (promises s !! t) as [cell|]; [|done].
  destruct (p_state cell) as [[v|err]|]; try done.
  intros [H|H]; [by left|right; apply elem_of_app; by left].
Qed.

Lemma logged_other {A} (m : M A) :
  (∀ s, promises (m s).2 = promises s) →
  (∀ s, microtasks (m s).2 = microtasks s) →
  (∀ s, trace (m s).2 = trace s) →
  pres (logged t c) m.
Proof. intros H1 H2 H3 s. unfold logged. by rewrite H1, H2, H3. Qed.

Lemma logged_then p k : pres (logged t c) (then_ p k).
Proof.
  pose proof logged_new_promise. pose proof logged_subscribe.
  unfold then_. pres_go.
Qed.

Lemma logged_catch p k : pres (logged t c) (catch_ p k).
Proof.
  pose proof logged_new_promise. pose proof logged_subscribe.
  unfold catch_. pres_go.
Qed.

Lemma logged_all ps : pres (logged t c) (promise_all ps).
Proof.
  pose proof logged_new_promise. pose proof logged_subscribe.
  unfold promise_all. pres_go.
Qed.

Ltac logged_prim :=
  first
    [ apply logged_then
    | apply logged_catch
    | apply logged_all
    | apply logged_new_promise
    | apply logged_log
    | by apply logged_other ].

Lemma logged_system_import path : pres (logged t c) (system_import path).
Proof. unfold system_import. pres_go; logged_prim. Qed.

Lemma logged_call_member ev f : pres (logged t c) (call_member ev f).
Proof. unfold call_member. pres_go; logged_prim. Qed.

Lemma logged_value_then v k : pres (logged t c) (value_then v k).
Proof. unfold value_then. pres_go; logged_prim. Qed.

Lemma logged_loadData e : pres (logged t c) (Extension__loadData e).
Proof.
  pose proof logged_system_import.
  unfold Extension__loadData, promise_resolve. pres_go; logged_prim.
Qed.

Lemma logged_loadObject e : pres (logged t c) (Extension__loadObject e).
Proof.
  pose proof logged_system_import.
  unfold Extension__loadObject, promise_resolve. pres_go; logged_prim.
Qed.

Lemma logged_initialize p : pres (logged t c) (ExtensionPoint__initialize p).
Proof.
  pose proof logged_system_import.
  unfold ExtensionPoint__initialize, promise_resolve. pres_go; logged_prim.
Qed.

Lemma logged_run_cont k v : pres (logged t c) (run_cont k v).
Proof.
  destruct (generic_cont k) eqn:Hg.
  - apply pres_run_cont; try done; intros;
      first [ apply logged_loadData | apply logged_loadObject
            | apply logged_initialize | logged_prim ].
  - pose proof logged_call_member. pose proof logged_value_then.
    destruct k; try discriminate Hg; simpl;
      unfold ExtensionPoint__initialize_k1, Extension__loadData_k,
        Extension__loadObject_k1, Extension__loadObject_k2;
      pres_go; logged_prim.
Qed.

Lemma logged_exec_call ev : is_job ev = false → pres (logged t c) (exec ev).
Proof.
  intros Hev. apply pres_exec_call; try done; intros;
    first [ apply logged_loadData | apply logged_loadObject
          | apply logged_initialize | logged_prim ].
Qed.

Lemma logged_run_handler k v child : pres (logged t c) (run_handler k v child).
Proof.
  intros s Hs. unfold run_handler.
  pose proof (logged_run_cont k v s Hs) as H.
  destruct (run_cont k v s) as [[w|e] s']; simpl in H.
  - by apply logged_resolve.
  - by apply logged_settle.
Qed.

Lemma logged_all_element_fulfilled agg :
  pres (logged t c) (all_element_fulfilled agg).
Proof.
  intros s Hs. unfold all_element_fulfilled.
  destruct (promises s !! agg) as [ca|] eqn:Hagg; [|done].
  assert (logged t c (with_promises
    <[agg := mkCell (p_state ca) (p_reactions ca) (p_external ca)
               (pred (p_remaining ca))]> s)) as H1.
  { revert Hs. unfold logged. simpl. destruct (decide (agg = t)) as [->|Hne].
    - rewrite Hagg. by rewrite list_lookup_insert_eq by (by eapply lookup_lt_Some).
    - by rewrite list_lookup_insert_ne. }
  unfold mbind, M_bind, modify. destruct (Nat.eqb _ 0); [|done].
  by apply logged_settle.
Qed.

Lemma logged_run_microtask m : pres (logged t c) (run_microtask m).
Proof.
  destruct m as [[k c'|k c'|c'|agg] [v|e]|c' src]; simpl;
    auto using logged_run_handler, logged_all_element_fulfilled,
      logged_settle, logged_subscribe.
Qed.

(** The job that is taken from the queue is the logging job of [t], or the
    logging job of [t] is still queued. *)
Lemma logged_tick i : pres (logged t c) (tick i).
Proof.
  intros s Hs. unfold tick. destruct (microtasks s !! i) as [m|] eqn:Hi; [|done].
  assert (logged t c (with_microtasks (delete i) s) ∨
          ∃ cell err, promises s !! t = Some cell ∧
            p_state cell = Some (Rejected err) ∧
            m = MReaction (RCatch KLogError c) (Rejected err))
    as [H|(cell & err & Ht & Hst & ->)].
  { revert Hs. unfold logged. simpl.
    destruct (promises s !! t) as [cell|] eqn:Ht; [|done].
    destruct (p_state cell) as [[v|err]|] eqn:Hst; try by left.
    intros [H|H]; [|left; by right].
    apply list_elem_of_lookup_1 in H as [j Hj].
    destruct (decide (j = i)) as [->|Hne].
    - right. exists cell, err. rewrite Hi in Hj. by injection Hj as ->.
    - left. left. destruct (decide (j < i)).
      + apply (list_elem_of_lookup_2 _ j). by rewrite list_lookup_delete_lt.
      + apply (list_elem_of_lookup_2 _ (pred j)).
        rewrite list_lookup_delete_ge by lia.
        by replace (S (pred j)) with j by lia. }
  - by apply logged_run_microtask.
  - change (run_microtask (MReaction (RCatch KLogError c) (Rejected err))
             (with_microtasks (delete i) s))
      with (settle c (Fulfilled VUndefined)
             (with_trace (λ l, l ++ [TrConsoleError err])
                (with_microtasks (delete i) s))).
    apply logged_settle. unfold logged. simpl. rewrite Ht, Hst. right.
    apply elem_of_app. right. by apply list_elem_of_singleton.
Qed.

Lemma logged_env_settle p o : pres (logged t c) (env_settle p o).
Proof.
  intros s Hs. unfold env_settle.
  destruct (promises s !! p) as [cp|] eqn:Hp; [|done].
  destruct (p_external cp); [|done].
  destruct o; [by apply logged_resolve|by apply logged_settle].
Qed.

Lemma logged_step ev s : logged t c s → logged t c (step ev s).
Proof.
  intros Hs. unfold step. destruct (is_job ev) eqn:Hev.
  - destruct ev; try discriminate Hev; simpl; unfold mbind, M_bind.
    + pose proof (logged_tick i s Hs). by destruct (tick i s) as [[[]|?] ?].
    + pose proof (logged_env_settle p o s Hs).
      by destruct (env_settle p o s) as [[[]|?] ?].
  - by apply logged_exec_call.
Qed.

Lemma logged_run evs s : logged t c s → logged t c (run evs s).
Proof.
  revert s. induction evs as [|ev evs IH]; intros s Hs; [done|].
  simpl. by apply IH, logged_step.
Qed.
End logged.

(** The promise of [p.then(k)] is pending when [then] returns. *)
Lemma then_pending p k s :
  ∃ s' cell, then_ p k s = (Ret (length (promises s)), s') ∧
    promises s' !! length (promises s) = Some cell ∧ p_state cell = None.
Proof.
  unfold then_.
  rewrite (bind_run _ _ s (length (promises s))
    (with_promises (λ l, l ++ [pending_cell]) s)) by done.
  set (s1 := with_promises (λ l, l ++ [pending_cell]) s).
  assert (promises s1 !! length (promises s) = Some pending_cell) as Hnew.
  { unfold s1. simpl. by rewrite lookup_app_len. }
  unfold subscribe, mbind, M_bind.
  destruct (promises s1 !! p) as [cp|] eqn:Hp; [|by eexists _, _].
  destruct (p_state cp) as [o|] eqn:Ho; [by eexists _, _|].
  simpl. destruct (decide (p = length (promises s))) as [->|Hne].
  - eexists _, _. split; [done|]. cbn [promises with_promises].
    by rewrite list_lookup_insert_eq by (by eapply lookup_lt_Some).
  - eexists _, _. split; [done|]. cbn [promises with_promises].
    by rewrite list_lookup_insert_ne.
Qed.

(** After [t.catch(console.error)] on a pending [t], the logging callback
    is among the reactions of [t]. *)
Lemma catch_attached t s cell :
  promises s !! t = Some cell → p_state cell = None →
  ∃ s', catch_ t KLogError s = (Ret (length (promises s)), s') ∧
    is_Some (promises s' !! t) ∧ promise_state s' t = None ∧
    logged t (length (promises s)) s'.
Proof.
  intros Ht Hst. unfold catch_.
  rewrite (bind_run _ _ s (length (promises s))
    (with_promises (λ l, l ++ [pending_cell]) s)) by done.
  set (s1 := with_promises (λ l, l ++ [pending_cell]) s).
  assert (promises s1 !! t = Some cell) as Ht1.
  { unfold s1. simpl. by apply lookup_app_l_Some. }
  unfold subscribe, mbind, M_bind. rewrite Ht1, Hst. simpl.
  eexists. split; [done|]. unfold promise_state, logged. simpl.
  rewrite list_lookup_insert_eq by (by eapply lookup_lt_Some). simpl.
  split; [done|]. split; [done|]. apply elem_of_app. right.
  by apply list_elem_of_singleton.
Qed.

(** The handlers of one entry: [.then(result => ...)] and then
    [.catch(console.error)]. *)
Lemma entry_handlers r k s :
  ∃ t c s', (t ← then_ r k; catch_ t KLogError) s = (Ret c, s') ∧
    is_Some (promises s' !! t) ∧ promise_state s' t = None ∧ logged t c s'.
Proof.
  destruct (then_pending r k s) as (s1 & cell & E1 & Ht & Hst).
  destruct (catch_attached _ s1 cell Ht Hst) as (s2 & E2 & H1 & H2 & H3).
  exists (length (promises s)), (length (promises s1)), s2.
  by rewrite (bind_run _ _ _ _ _ E1).
Qed.

Lemma Plugin__loadExtensionPoint_logged pl i s c s1 :
  Plugin__loadExtensionPoint pl i s = (Ret c, s1) →
  ∃ t, is_Some (promises s1 !! t) ∧ promise_state s1 t = None ∧ logged t c s1.
Proof.
  unfold Plugin__loadExtensionPoint.
  rewrite (bind_run _ _ s (plugins s !!! pl) s) by done.
  destruct (_ !! i) as [o|]; [|done]. cbv zeta.
  match goal with |- context [loadExtensionPoint ?c] => set (o' := c) end.
  match goal with |- context [upd_plugin pl ?g] => set (f := g) end.
  rewrite (bind_run _ _ s () (with_plugins (alter f pl) s)) by done.
  destruct (loadExtensionPoint o' (with_plugins (alter f pl) s)) as [[r|?] s2] eqn:E2.
  2: { by rewrite (bind_throw _ _ _ _ _ E2). }
  rewrite (bind_run _ _ _ _ _ E2).
  destruct (entry_handlers r (KAddDisposable pl) s2) as (t & c' & s3 & -> & H).
  intros [= <- <-]. by exists t.
Qed.

Lemma Plugin__loadExtension_logged pl i s c s1 :
  Plugin__loadExtension pl i s = (Ret c, s1) →
  ∃ t, is_Some (promises s1 !! t) ∧ promise_state s1 t = None ∧ logged t c s1.
Proof.
  unfold Plugin__loadExtension.
  rewrite (bind_run _ _ s (plugins s !!! pl) s) by done.
  destruct (_ !! i) as [o|]; [|done]. cbv zeta.
  match goal with |- context [loadExtension ?c] => set (o' := c) end.
  match goal with |- context [upd_plugin pl ?g] => set (f := g) end.
  rewrite (bind_run _ _ s () (with_plugins (alter f pl) s)) by done.
  destruct (loadExtension o' (with_plugins (alter f pl) s)) as [[r|?] s2] eqn:E2.
  2: { by rewrite (bind_throw _ _ _ _ _ E2). }
  rewrite (bind_run _ _ _ _ _ E2).
  destruct (entry_handlers r (KAddDisposable pl) s2) as (t & c' & s3 & -> & H).
  intros [= <- <-]. by exists t.
Qed.

Lemma joins_never_rejected (m : M nat) S s c s1 :
  joins m → closed S s → m s = (Ret c, s1) →
  ∀ evs e, promise_state (run evs s1) c ≠ Some (Rejected e).
Proof.
  intros Hm Hs E evs e. destruct (Hm S s Hs) as (S' & _ & Hc & Hr).
  rewrite E in Hc, Hr. simpl in Hc, Hr.
  apply (closed_not_rejected S'); [by apply closed_run|by apply Hr].
Qed.



(** Plugin [duo] end to end: the data file of the first contribution fails
    to load; the error is logged, the receiver has been called with the
    second contribution, no job is left, and the promise of [Plugin.load]
    (promise 21) is fulfilled. *)
Lemma duo_failure_is_logged :
  trace duo_settled =
    [TrImport (Some "duo/package.json") 0; TrConnect 0 0;
     TrImport (Some "duo/index") 8; TrConnect 0 1;
     TrImport (Some "duo/index") 14; TrImport (Some "duo/a.json") 24;
     TrReceiver 0 1 (VContribution 2 VUndefined VUndefined);
     TrConsoleError (VError "404")] ∧
  microtasks duo_settled = [] ∧
  promise_state duo_settled 21 = Some (Fulfilled (VBoundInitialize 0)).
Proof. by vm_compute. Qed.

(** * Further properties *)

(** ** The registries change by five moves *)

Section moves.
Variable direct : bool.

Lemma moves_still {A} (m : M A) :
  (∀ x, pres (λ s, frame s = x) m) → moves direct m.
Proof. intros Hm s. by rewrite (Hm (frame s) s eq_refl). Qed.

Lemma moves_ret {A} (a : A) : moves direct (mret a).
Proof. by intros s. Qed.

Lemma moves_throw {A} e : moves direct (@throw A e).
Proof. by intros s. Qed.

Lemma moves_bind {A B} (m : M A) (f : A → M B) :
  moves direct m → (∀ a, moves direct (f a)) → moves direct (m ≫= f).
Proof.
  intros Hm Hf s. specialize (Hm s). unfold mbind, M_bind.
  destruct (m s) as [[a|e] s1]; simpl in *; [|done].
  etrans; [done|]. apply Hf.
Qed.

Lemma moves_mapM {A B} (f : A → M B) (l : list A) :
  (∀ a, moves direct (f a)) → moves direct (mapM f l).
Proof.
  intros Hf. induction l as [|a l IH]; [apply moves_ret|].
  rewrite mapM_cons. apply moves_bind; [done|]. intros b.
  apply moves_bind; [done|]. intros k. apply moves_ret.
Qed.

Lemma moves_then p k : moves direct (then_ p k).
Proof. apply moves_still. intros x. apply frame_then. Qed.

Lemma moves_catch p k : moves direct (catch_ p k).
Proof.
  apply moves_still. intros x. apply ins_catch; auto with frame.
Qed.

Lemma moves_upd_plugin pl f : moves direct (upd_plugin pl f).
Proof. apply moves_still. intros x s Hs. by apply frame_plugins. Qed.

Lemma moves_get_plugin pl : moves direct (get_plugin pl).
Proof. by intros s. Qed.

Lemma moves_loadExtensionPoint o : moves direct (loadExtensionPoint o).
Proof.
  intros s. rewrite loadExtensionPoint_frame. apply rtc_once, reg_point.
Qed.

Lemma moves_loadExtension o : moves direct (loadExtension o).
Proof.
  intros s. destruct (allExtensionPoints s !! ej_point o) as [p|] eqn:Hp.
  - rewrite (loadExtension_frame_registered s o p Hp).
    by apply rtc_once, (reg_connected _ _ _ _ _ _ (ej_point o) p).
  - rewrite (loadExtension_frame_pending s o Hp).
    by apply rtc_once, reg_waiting.
Qed.

Lemma moves_Plugin_load pl : moves direct (Plugin_load pl).
Proof.
  pose proof moves_then. pose proof moves_catch. pose proof moves_upd_plugin.
  pose proof moves_loadExtensionPoint. pose proof moves_loadExtension.
  assert (∀ ps, moves direct (promise_all ps)).
  { intros ps. apply moves_still. intros x. apply frame_promise_all. }
  unfold Plugin_load, Plugin__loadExtensionPoint, Plugin__loadExtension.
  repeat first
    [ done
    | apply moves_get_plugin
    | apply moves_ret
    | apply moves_throw
    | match goal with |- moves _ (match ?x with _ => _ end) => destruct x end
    | apply moves_mapM; intros ?
    | apply moves_bind; [|intros ?]
    | progress cbv zeta ].
Qed.

Lemma frame_generic_log x ev : generic_event ev = true → pres (λ s, frame s = x) (log ev).
Proof. intros Hev. apply ins_generic_log; auto with frame. Qed.

Lemma moves_ExtensionPoint_dispose p : moves direct (ExtensionPoint_dispose p).
Proof.
  unfold ExtensionPoint_dispose. apply moves_bind; [by intros s|]. intros x.
  apply moves_bind.
  { intros s. apply rtc_once. unfold frame. simpl. apply reg_dispose. }
  intros _. apply moves_still. intros y.
  assert (∀ f, pres (λ s, frame s = y) (upd_point p f)) as Hupd.
  { intros f s Hs. by apply frame_points. }
  apply pres_bind; [apply Hupd|]. intros _.
  apply pres_bind; [|intros _; apply Hupd].
  apply pres_ds_dispose. apply frame_generic_log.
Qed.

Lemma moves_Extension_dispose e : moves direct (Extension_dispose e).
Proof.
  apply moves_still. intros x.
  apply pres_Extension_dispose; intros; first
    [ by apply frame_generic_log
    | intros s Hs; by apply frame_extensions ].
Qed.

Lemma moves_fetchPlugins : moves direct fetchPlugins.
Proof.
  apply moves_still. intros x.
  apply pres_fetchPlugins; intros; first
    [ by apply frame_then
    | by apply ins_catch; auto with frame
    | by apply frame_promise_all
    | by apply ins_new_promise; auto with frame
    | by apply frame_generic_log
    | intros s Hs; by apply frame_available ].
Qed.

Lemma moves_unloadPlugin name : moves direct (unloadPlugin name).
Proof.
  apply moves_still. intros x.
  apply pres_unloadPlugin; intros; first
    [ by apply frame_generic_log
    | intros s Hs; by apply frame_plugins ].
Qed.

Lemma moves_loadPlugin name : moves direct (loadPlugin name).
Proof.
  unfold loadPlugin. apply moves_bind; [by intros s|]. intros s0.
  destruct (js_get _ name) as [plugin|]; [|apply moves_throw].
  apply moves_bind.
  { apply moves_still. intros x s Hs. by apply frame_available. }
  intros _. apply moves_bind.
  { apply moves_still. intros x s Hs. by apply frame_loaded. }
  intros _. destruct plugin; [apply moves_Plugin_load|apply moves_throw].
Qed.

Lemma moves_connect p e : direct = true → moves direct (ExtensionPoint_connect p e).
Proof.
  intros Hd s. rewrite connect_frame. by apply rtc_once, reg_connect.
Qed.

Lemma moves_value {A B} (m : M A) (f : A → B) :
  moves direct m → moves direct (r ← m; mret (f r)).
Proof. intros Hm. apply moves_bind; [done|]. intros a. apply moves_ret. Qed.

(** Every event is a sequence of moves; jobs and the environment make none. *)
Lemma moves_step ev s :
  (is_connect ev = true → direct = true) →
  rtc (reg_step direct) (frame s) (frame (step ev s)).
Proof.
  intros Hd. destruct (is_job ev) eqn:Hev.
  - by rewrite frame_job.
  - unfold step. destruct ev; try discriminate Hev; simpl.
    + apply moves_value, moves_loadExtensionPoint.
    + apply moves_value, moves_loadExtension.
    + apply moves_value, moves_connect. by apply Hd.
    + apply (moves_value _ (λ _, VUndefined)), moves_ExtensionPoint_dispose.
    + apply (moves_value _ (λ _, VUndefined)), moves_Extension_dispose.
    + apply moves_value, moves_fetchPlugins.
    + apply moves_value, moves_loadPlugin.
    + apply (moves_value _ (λ _, VUndefined)), moves_unloadPlugin.
Qed.

Lemma moves_run evs s :
  Forall (λ ev, is_connect ev = true → direct = true) evs →
  rtc (reg_step direct) (frame s) (frame (run evs s)).
Proof.
  revert s. induction evs as [|ev evs IH]; intros s Hall; [done|].
  apply Forall_cons in Hall as [Hev Hall]. simpl.
  etrans; [by apply moves_step|]. by apply IH.
Qed.

(** A property of the registration state that every move keeps holds
    throughout. *)
Lemma moves_invariant (P : Frame → Prop) evs s :
  (∀ f f', reg_step direct f f' → P f → P f') →
  Forall (λ ev, is_connect ev = true → direct = true) evs →
  P (frame s) → P (frame (run evs s)).
Proof.
  intros HP Hall Hs. pose proof (moves_run evs s Hall) as Hrtc.
  induction Hrtc as [|f1 f2 f3 H12 _ IH]; [done|]. apply IH. by eapply HP.
Qed.
End moves.


(** ** No extension waits for a registered point *)

Lemma settled_ids_step direct f f' :
  reg_step direct f f' → settled_ids f → settled_ids f'.
Proof.
  intros Hstep. destruct Hstep as [np ne X Q C id|np ne X Q C id HX
    |np ne X Q C id p HX|np ne X Q C id|np ne X Q C p e _]; simpl; try done.
  - intros H id'. destruct (decide (id = id')) as [->|Hne].
    + right. apply lookup_delete_eq.
    + rewrite lookup_insert_ne, lookup_delete_ne by done. apply H.
  - intros H id'. destruct (decide (id = id')) as [->|Hne]; [by left|].
    rewrite lookup_insert_ne by done. apply H.
  - intros H id'. destruct (H id') as [H1|H1]; [left|by right].
    destruct (decide (id = id')) as [->|Hne].
    + apply lookup_delete_eq.
    + by rewrite lookup_delete_ne.
Qed.

(** X2: in every reachable state, no id has both a registered point and a
    list of waiting extensions. *)
Theorem no_extension_waits_for_registered_point pkgs name evs id :
  let s := run evs (start pkgs name) in
  allExtensionPoints s !! id = None ∨ allExtensions s !! id = None.
Proof.
  intros s.
  assert (settled_ids (frame s)) as H.
  { apply (moves_invariant true settled_ids).
    - apply settled_ids_step.
    - by apply Forall_forall.
    - intros id'. by left. }
  apply H.
Qed.

(** ** Every extension is connected once or waits once *)

Lemma default_Some_elem {A} (o : option (list A)) x :
  x ∈ default [] o → ∃ l, o = Some l ∧ x ∈ l.
Proof. destruct o as [l|]; simpl; [by exists l|]. by intros ?%elem_of_nil. Qed.

Lemma well_placed_step f f' :
  reg_step false f f' → well_placed f → well_placed f'.
Proof.
  intros Hstep. destruct Hstep as [np ne X Q C id|np ne X Q C id HX
    |np ne X Q C id p HX|np ne X Q C id|np ne X Q C p e Hd];
    simpl; try done; intros (W1 & W2 & W3 & W4 & W5).
  - (* a point is registered: its waiting list is connected *)
    assert ((C ++ ((λ e, (np, e)) <$> default [] (Q !! id))).*2 =
            C.*2 ++ default [] (Q !! id)) as ->.
    { rewrite fmap_app. f_equal. rewrite <- list_fmap_compose.
      by rewrite <- (list_fmap_id (default [] (Q !! id))) at 2. }
    split; [|split; [|split; [|split]]].
    + apply NoDup_app. split; [done|]. split.
      * intros e He (l & Hl & Hel)%default_Some_elem. by apply (W4 e id l).
      * destruct (Q !! id) as [l|] eqn:Hl; simpl; [by eapply W2|apply NoDup_nil_2].
    + intros id' l' (Hne & Hl')%lookup_delete_Some. by eapply W2.
    + intros id1 id2 l1 l2 e (_ & H1)%lookup_delete_Some
        (_ & H2)%lookup_delete_Some. by eapply W3.
    + intros e id' l' He (Hne & Hl')%lookup_delete_Some Hel.
      apply elem_of_app in He as [He|(l & Hl & He)%default_Some_elem].
      * by apply (W4 e id' l').
      * by apply Hne, (W3 id id' l l' e).
    + intros e. rewrite W5. split.
      * intros [He|(id' & l' & Hl' & He)].
        -- left. apply elem_of_app. by left.
        -- destruct (decide (id = id')) as [->|Hne].
           ++ left. apply elem_of_app. right. by rewrite Hl'.
           ++ right. exists id', l'. by rewrite lookup_delete_ne.
      * intros [[He|(l & Hl & He)%default_Some_elem]%elem_of_app
               |(id' & l' & (Hne & Hl')%lookup_delete_Some & He)].
        -- by left.
        -- right. by exists id, l.
        -- right. by exists id', l'.
  - (* an extension joins a waiting list *)
    assert (ne ∉ C.*2) as Hfresh1.
    { intros He. assert (ne < ne) by (apply W5; by left). lia. }
    assert (∀ id' l', Q !! id' = Some l' → ne ∉ l') as Hfresh2.
    { intros id' l' Hl' He.
      assert (ne < ne) by (apply W5; right; by exists id', l'). lia. }
    split; [done|]. split; [|split; [|split]].
    + intros id' l' Hl'. destruct (decide (id = id')) as [->|Hne].
      * rewrite lookup_insert_eq in Hl'. injection Hl' as <-.
        apply NoDup_app. split; [|split].
        -- destruct (Q !! id') as [l|] eqn:Hl; simpl; [by eapply W2|apply NoDup_nil_2].
        -- intros e (l & Hl & He)%default_Some_elem ->%list_elem_of_singleton.
           by apply (Hfresh2 id' l).
        -- apply NoDup_singleton.
      * rewrite lookup_insert_ne in Hl' by done. by eapply W2.
    + intros id1 id2 l1 l2 e H1 H2 He1 He2.
      destruct (decide (id1 = id2)) as [|Hne12]; [done|exfalso].
      destruct (decide (id = id1)) as [->|Hne1].
      * rewrite lookup_insert_eq in H1. injection H1 as <-.
        rewrite lookup_insert_ne in H2 by done.
        apply elem_of_app in He1 as [(l & Hl & He)%default_Some_elem
          | ->%list_elem_of_singleton].
        -- by apply Hne12, (W3 id1 id2 l l2 e).
        -- by apply (Hfresh2 id2 l2).
      * rewrite lookup_insert_ne in H1 by done.
        destruct (decide (id = id2)) as [->|Hne2].
        -- rewrite lookup_insert_eq in H2. injection H2 as <-.
           apply elem_of_app in He2 as [(l & Hl & He)%default_Some_elem
             | ->%list_elem_of_singleton].
           ++ by apply Hne12, (W3 id1 id2 l1 l e).
           ++ by apply (Hfresh2 id1 l1).
        -- rewrite lookup_insert_ne in H2 by done.
           by apply Hne12, (W3 id1 id2 l1 l2 e).
    + intros e id' l' He Hl' Hel. destruct (decide (id = id')) as [->|Hne].
      * rewrite lookup_insert_eq in Hl'. injection Hl' as <-.
        apply elem_of_app in Hel as [(l & Hl & Hel)%default_Some_elem
          | ->%list_elem_of_singleton]; [|done].
        by apply (W4 e id' l).
      * rewrite lookup_insert_ne in Hl' by done. by apply (W4 e id' l').
    + intros e. split.
      * intros He. destruct (decide (e = ne)) as [->|Hne].
        -- right. exists id, (default [] (Q !! id) ++ [ne]).
           rewrite lookup_insert_eq. split; [done|].
           apply elem_of_app. right. by apply list_elem_of_singleton.
        -- assert (e < ne) as He' by lia. apply W5 in He'.
           destruct He' as [?|(id' & l' & Hl' & Hel)]; [by left|right].
           destruct (decide (id = id')) as [->|Hne'].
           ++ exists id', (default [] (Q !! id') ++ [ne]).
              rewrite lookup_insert_eq. split; [done|].
              apply elem_of_app. left. by rewrite Hl'.
           ++ exists id', l'. by rewrite lookup_insert_ne.
      * intros [He|(id' & l' & Hl' & Hel)].
        -- assert (e < ne) by (apply W5; by left). lia.
        -- destruct (decide (id = id')) as [->|Hne'].
           ++ rewrite lookup_insert_eq in Hl'. injection Hl' as <-.
              apply elem_of_app in Hel as [(l & Hl & Hel)%default_Some_elem
                | ->%list_elem_of_singleton]; [|lia].
              assert (e < ne) by (apply W5; right; by exists id', l). lia.
           ++ rewrite lookup_insert_ne in Hl' by done.
              assert (e < ne) by (apply W5; right; by exists id', l'). lia.
  - (* an extension is connected at once *)
    assert (ne ∉ C.*2) as Hfresh1.
    { intros He. assert (ne < ne) by (apply W5; by left). lia. }
    assert (∀ id' l', Q !! id' = Some l' → ne ∉ l') as Hfresh2.
    { intros id' l' Hl' He.
      assert (ne < ne) by (apply W5; right; by exists id', l'). lia. }
    rewrite fmap_app. simpl. split; [|split; [done|split; [done|split]]].
    + apply NoDup_app. split; [done|]. split; [|apply NoDup_singleton].
      by intros e He ->%list_elem_of_singleton.
    + intros e id' l' [He| ->%list_elem_of_singleton]%elem_of_app Hl'.
      * by apply (W4 e id' l').
      * by apply (Hfresh2 id' l').
    + intros e. split.
      * intros He. destruct (decide (e = ne)) as [->|Hne].
        -- left. apply elem_of_app. right. by apply list_elem_of_singleton.
        -- assert (e < ne) as He' by lia. apply W5 in He'.
           destruct He' as [?|?]; [left|by right]. apply elem_of_app. by left.
      * intros [[He| ->%list_elem_of_singleton]%elem_of_app|H]; [|lia|].
        -- assert (e < ne) by (apply W5; by left). lia.
        -- assert (e < ne) by (apply W5; by right). lia.
Qed.

(** X3: as long as [connect] is only called by [loadExtensionPoint] and
    [loadExtension], every extension is either passed to [connect] exactly
    once or on exactly one waiting list exactly once, never both, and nothing
    else is connected or waiting. *)
Theorem extensions_connected_or_waiting_once pkgs name evs :
  existsb is_connect evs = false →
  well_placed (frame (run evs (start pkgs name))).
Proof.
  intros Hev. apply (moves_invariant false well_placed).
  - apply well_placed_step.
  - apply Forall_forall. intros ev Hin Hc.
    assert (existsb is_connect evs = true) as Ht; [|congruence].
    apply existsb_exists. exists ev. split; [|done]. by apply list_elem_of_In.
  - simpl. split; [apply NoDup_nil_2|]. split; [done|]. split; [done|].
    split; [done|]. intros e. split; [lia|].
    intros [H|(id & l & H & _)]; [by apply elem_of_nil in H|done].
Qed.

Lemma extensions_connected_or_waiting_once_witness :
  existsb is_connect duo_events = false ∧
  well_placed (frame (run duo_events (start duo_npm ""))).
Proof.
  split; [reflexivity|].
  apply extensions_connected_or_waiting_once. reflexivity.
Defined.

(** ** Which packages [getPluginNames] lists *)

Lemma occurs_at_0 needle s : occurs_at needle s 0 ↔ String.prefix needle s = true.
Proof.
  split; [by intros (t & [= <-] & Ht)|]. intros H. by exists s.
Qed.

Lemma occurs_at_S needle a s i :
  occurs_at needle (String a s) (S i) ↔ occurs_at needle s i.
Proof. done. Qed.

Lemma occurs_at_empty needle i : occurs_at needle EmptyString (S i) ↔ False.
Proof. split; [by intros (t & ? & ?)|done]. Qed.

Lemma index_from_spec n needle s :
  match index_from n needle s with
  | Some k => ∃ i, k = n + i ∧ occurs_at needle s i ∧
                   ∀ j, j < i → ¬ occurs_at needle s j
  | None => ∀ j, ¬ occurs_at needle s j
  end.
Proof.
  revert n. induction s as [|a s IH]; intros n; cbn [index_from].
  - destruct (String.prefix needle "") eqn:Hp.
    + exists 0. split; [lia|]. split; [by apply occurs_at_0|]. lia.
    + intros [|j]; [rewrite occurs_at_0; congruence|intros H; by apply occurs_at_empty in H].
  - destruct (String.prefix needle (String a s)) eqn:Hp.
    + exists 0. split; [lia|]. split; [by apply occurs_at_0|]. lia.
    + specialize (IH (S n)). destruct (index_from (S n) needle s) as [k|].
      * destruct IH as (i & -> & Hi & Hmin). exists (S i).
        split; [lia|]. split; [by apply occurs_at_S|].
        intros [|j] Hj; [rewrite occurs_at_0; congruence|].
        rewrite occurs_at_S. apply Hmin. lia.
      * intros [|j]; [rewrite occurs_at_0; congruence|].
        rewrite occurs_at_S. apply IH.
Qed.

Lemma last_index_from_spec n needle s :
  match last_index_from n needle s with
  | Some k => ∃ i, k = n + i ∧ occurs_at needle s i ∧
                   ∀ j, i < j → ¬ occurs_at needle s j
  | None => ∀ j, ¬ occurs_at needle s j
  end.
Proof.
  revert n. induction s as [|a s IH]; intros n; cbn [last_index_from].
  - destruct (String.prefix needle "") eqn:Hp.
    + exists 0. split; [lia|]. split; [by apply occurs_at_0|].
      intros [|j] Hj; [lia|intros H; by apply occurs_at_empty in H].
    + intros [|j]; [rewrite occurs_at_0; congruence|intros H; by apply occurs_at_empty in H].
  - specialize (IH (S n)). destruct (last_index_from (S n) needle s) as [k|].
    + destruct IH as (i & -> & Hi & Hmax). exists (S i).
      split; [lia|]. split; [by apply occurs_at_S|].
      intros [|j] Hj; [lia|]. rewrite occurs_at_S. apply Hmax. lia.
    + destruct (String.prefix needle (String a s)) eqn:Hp.
      * exists 0. split; [lia|]. split; [by apply occurs_at_0|].
        intros [|j] Hj; [lia|]. rewrite occurs_at_S. apply IH.
      * intros [|j]; [rewrite occurs_at_0; congruence|].
        rewrite occurs_at_S. apply IH.
Qed.

Lemma one_node_modules_spec url :
  one_node_modules url = true ↔ occurs_once_inside "node_modules" url.
Proof.
  unfold one_node_modules.
  pose proof (index_from_spec 0 "node_modules" url) as H1.
  pose proof (last_index_from_spec 0 "node_modules" url) as H2.
  destruct (index_from 0 "node_modules" url) as [i|];
    destruct (last_index_from 0 "node_modules" url) as [j|].
  - destruct H1 as (i' & -> & Hi & Hmin). destruct H2 as (j' & -> & Hj & Hmax).
    simpl. rewrite andb_true_iff, negb_true_iff, Nat.eqb_neq, Nat.eqb_eq.
    split.
    + intros [Hpos ->]. exists j'. split; [lia|]. split; [done|].
      intros k Hk. destruct (decide (k < j')) as [Hlt|Hge].
      * by destruct (Hmin k Hlt).
      * destruct (decide (j' < k)) as [Hgt|?]; [|lia]. by destruct (Hmax k Hgt).
    + intros (k & Hpos & Hk & Huniq).
      rewrite (Huniq i' Hi), (Huniq j' Hj). split; [lia|done].
  - destruct H1 as (i' & _ & Hi & _). by destruct (H2 i').
  - split; [done|]. intros (k & _ & Hk & _). by destruct (H1 k).
  - split; [done|]. intros (k & _ & Hk & _). by destruct (H1 k).
Qed.


(** ** [loadPackage]: a package that cannot be read is logged and skipped *)

Lemma objects_then x p k : pres (λ s, objects s = x) (then_ p k).
Proof. by apply ins_then. Qed.

Lemma objects_catch x p k : pres (λ s, objects s = x) (catch_ p k).
Proof. by apply ins_catch. Qed.

Lemma objects_promise_all x ps : pres (λ s, objects s = x) (promise_all ps).
Proof. by apply ins_all. Qed.

Lemma system_import_eq path s :
  system_import path s =
  (Ret (length (promises s)),
   with_trace (λ t, t ++ [TrImport path (length (promises s))])
     (with_promises (λ l, l ++ [external_cell]) s)).
Proof. done. Qed.

Lemma joins_loadPackage name : joins (loadPackage name).
Proof.
  unfold loadPackage.
  apply joins_bind; [intros S; apply closed_system_import|]. intros i.
  apply joins_bind; [intros S; apply closed_then|]. intros t.
  apply joins_catch.
Qed.

(** X5: in every reachable state, [loadPackage] imports
    [name/package.json], constructs nothing yet, and returns a promise that
    never rejects: it is the [.catch(console.error)] of a promise whose
    rejection is logged. *)
Theorem loadPackage_failure_is_logged pkgs name0 evs0 name :
  let s := run evs0 (start pkgs name0) in
  ∃ c s1 t, loadPackage name s = (Ret c, s1) ∧
    trace s1 =
      trace s ++ [TrImport (Some (name +:+ "/package.json")) (length (promises s))] ∧
    plugins s1 = plugins s ∧
    availablePlugins s1 = availablePlugins s ∧
    is_Some (promises s1 !! t) ∧ promise_state s1 t = None ∧
    ∀ evs, logged t c (run evs s1) ∧
           ∀ e, promise_state (run evs s1) c ≠ Some (Rejected e).
Proof.
  intros s.
  assert (closed (λ _, false) s) as Hs by apply closed_run, closed_start.
  pose proof (λ c s1, joins_never_rejected (loadPackage name) (λ _, false) s
    c s1 (joins_loadPackage name) Hs) as Hnever.
  revert Hnever. unfold loadPackage.
  rewrite (bind_run _ _ _ _ _ (system_import_eq _ s)).
  set (sa := with_trace _ _).
  destruct (entry_handlers (length (promises s)) (KAddPackage name) sa)
    as (t & c & s1 & E & H1 & H2 & H3).
  assert (objects s1 = objects sa) as Hobj.
  { pose proof (pres_bind (λ s', objects s' = objects sa)
      (then_ (length (promises s)) (KAddPackage name))
      (λ t, catch_ t KLogError)) as Hp.
    specialize (Hp (objects_then _ _ _) (λ t, objects_catch _ _ _) sa eq_refl).
    by rewrite E in Hp. }
  rewrite E. intros Hnever. exists c, s1, t. split; [done|].
  unfold objects in Hobj. injection Hobj as _ _ Hpl _ _ Hav _ Htr.
  split; [by rewrite Htr|]. split; [by rewrite Hpl|]. split; [by rewrite Hav|].
  split; [done|]. split; [done|]. intros evs.
  split; [by apply logged_run|]. intros e. by apply (Hnever c s1).
Qed.

(** ** From [addPackage] to [loadPlugin] *)

Lemma maps_Plugin_load pl s :
  availablePlugins (Plugin_load pl s).2 = availablePlugins s ∧
  loadedPlugins (Plugin_load pl s).2 = loadedPlugins s.
Proof.
  assert (pres (λ s', (availablePlugins s', loadedPlugins s') =
                      (availablePlugins s, loadedPlugins s)) (Plugin_load pl)) as H.
  { apply pres_Plugin_load; try done; intros; first
      [ by apply ins_then
      | by apply ins_catch
      | by apply ins_all
      | by apply ins_resolved
      | by apply ins_new_promise
      | by apply ins_loadData
      | by apply ins_loadObject
      | by apply ins_generic_log
      | by apply ins_log
      | by intros ? ? ]. }
  specialize (H s eq_refl). by injection H as -> ->.
Qed.

Lemma listPlugins_spec s :
  ∃ l, listPlugins s = (Ret l, s) ∧
       ∀ name, name ∈ l ↔ is_Some (availablePlugins s !! name).
Proof.
  eexists. split; [reflexivity|]. intros name.
  by rewrite elem_of_elements, elem_of_dom.
Qed.


(** ** [Plugin.load] on a plugin without declared entries *)

Lemma no_entries s pl :
  point_ids s pl = [] → extension_points s pl = [] →
  (pl_extensionPoints (plugins s !!! pl) = None ∨
   pl_extensionPoints (plugins s !!! pl) = Some []) ∧
  (pl_extensions (plugins s !!! pl) = None ∨
   pl_extensions (plugins s !!! pl) = Some []).
Proof.
  unfold point_ids, extension_points. intros H1 H2. split.
  - destruct (pl_extensionPoints _) as [[|??]|]; auto. discriminate H1.
  - destruct (pl_extensions _) as [[|??]|]; auto. discriminate H2.
Qed.

Lemma Plugin_load_nothing s pl :
  point_ids s pl = [] → extension_points s pl = [] →
  let n := length (promises s) in
  ∃ s2, Plugin_load pl s = (Ret (n + 1), s2) ∧ objects s2 = objects s ∧
    promise_state (step (Tick (length (microtasks s))) s2) (n + 1) =
      Some (Fulfilled (VBoundInitialize pl)).
Proof.
  intros H1 H2 n. subst n.
  destruct (no_entries s pl H1 H2) as [Hp He]. clear H1 H2.
  destruct s as [pts exts pls aEP aE av ld npm wn ps q0 tr]. cbn in Hp, He.
  destruct Hp as [Hp|Hp], He as [He|He];
    (eexists; split;
      [call_lit (Plugin_load pl) ltac:(rewrite ?Hp, ?He; cbn [seq default]); reflexivity|];
     split; [reflexivity|];
     step_lit ltac:(rewrite ?Hp, ?He; cbn [seq default]);
     unfold promise_state; by norm idtac).
Qed.

Lemma entries_alter (g : Plugin → Plugin) pl' pl s :
  point_ids (with_plugins (alter g pl') s) pl =
    (if decide (pl = pl') then
       pj_id <$> default [] (pl_extensionPoints (default inhabitant (g <$> plugins s !! pl)))
     else point_ids s pl) ∧
  extension_points (with_plugins (alter g pl') s) pl =
    (if decide (pl = pl') then
       ej_point <$> default [] (pl_extensions (default inhabitant (g <$> plugins s !! pl)))
     else extension_points s pl).
Proof.
  unfold point_ids, extension_points. simpl.
  rewrite (list_lookup_total_alt (alter g pl' (plugins s))).
  destruct (decide (pl = pl')) as [->|Hne].
  - by rewrite list_lookup_alter_eq.
  - rewrite list_lookup_alter_ne by done.
    by rewrite <- (list_lookup_total_alt (plugins s)).
Qed.

(** Writes to a plugin that keep its two lists. *)
Lemma entries_keep (g : Plugin → Plugin) pl' pl s :
  (∀ x, pl_extensionPoints (g x) = pl_extensionPoints x) →
  (∀ x, pl_extensions (g x) = pl_extensions x) →
  point_ids (with_plugins (alter g pl') s) pl = point_ids s pl ∧
  extension_points (with_plugins (alter g pl') s) pl = extension_points s pl.
Proof.
  intros H1 H2. destruct (entries_alter g pl' pl s) as [-> ->].
  destruct (decide (pl = pl')) as [->|Hne]; [|done].
  unfold point_ids, extension_points. rewrite list_lookup_total_alt.
  destruct (plugins s !! pl') as [x|]; simpl; [|done]. by rewrite H1, H2.
Qed.

Lemma entries_log ev pl s :
  point_ids (log ev s).2 pl = point_ids s pl ∧
  extension_points (log ev s).2 pl = extension_points s pl.
Proof. done. Qed.

Lemma Plugin_dispose_entries pl s :
  point_ids (Plugin_dispose pl s).2 pl = [] ∧
  extension_points (Plugin_dispose pl s).2 pl = [].
Proof.
  unfold Plugin_dispose.
  rewrite (bind_run _ _ s () (with_plugins (alter (set_pl_extensions None) pl) s))
    by done.
  set (sa := with_plugins _ s).
  rewrite (bind_run _ _ sa ()
    (with_plugins (alter (set_pl_extensionPoints None) pl) sa)) by done.
  set (sb := with_plugins _ sa).
  assert (point_ids sb pl = [] ∧ extension_points sb pl = []) as Hb.
  { unfold sb, sa.
    destruct (entries_alter (set_pl_extensionPoints None) pl pl
      (with_plugins (alter (set_pl_extensions None) pl) s)) as [E1 E2].
    rewrite E1, E2, !decide_True by done. cbn [plugins with_plugins].
    rewrite list_lookup_alter_eq. by destruct (plugins s !! pl). }
  revert Hb. generalize sb. clear sa sb. intros sb Hb.
  set (I := λ s', point_ids s' pl = [] ∧ extension_points s' pl = []).
  change (I (((get_plugin pl ≫= λ x, ds_dispose (pl_disposables x) ≫= λ _,
    upd_plugin pl (set_pl_disposables ds_after_dispose)) sb).2)).
  apply (pres_bind I); [by intros ?| |done]. intros x.
  apply pres_bind.
  - apply pres_ds_dispose. intros ev _ s' Hs'. unfold I.
    by destruct (entries_log ev pl s') as [-> ->].
  - intros _ s' Hs'. unfold I, upd_plugin, modify. simpl.
    by destruct (entries_keep (set_pl_disposables ds_after_dispose) pl pl s')
      as [-> ->].
Qed.

Lemma unloadPlugin_maps name s :
  availablePlugins (unloadPlugin name s).2 = availablePlugins s ∧
  loadedPlugins (unloadPlugin name s).2 = loadedPlugins s.
Proof.
  assert (pres (λ s', (availablePlugins s', loadedPlugins s') =
                      (availablePlugins s, loadedPlugins s)) (unloadPlugin name))
    as H.
  { apply pres_unloadPlugin; intros; first
      [ by apply ins_generic_log | by intros ? ? ]. }
  specialize (H s eq_refl). by injection H as -> ->.
Qed.

Lemma frame_Plugin_dispose pl s : frame (Plugin_dispose pl s).2 = frame s.
Proof.
  apply (pres_Plugin_dispose (λ s', frame s' = frame s)); try done; intros;
    first [ by apply frame_generic_log
          | intros s' Hs'; by apply frame_plugins ].
Qed.

(** X7: [Plugin.dispose] leaves the registries alone and [unloadPlugin]
    leaves both plugin maps as they are; a [load] of the disposed plugin
    registers nothing, and its promise is fulfilled by the next job. *)
Theorem load_after_dispose s pl name :
  let s1 := (Plugin_dispose pl s).2 in
  let n := length (promises s1) in
  frame s1 = frame s ∧
  availablePlugins (unloadPlugin name s).2 = availablePlugins s ∧
  loadedPlugins (unloadPlugin name s).2 = loadedPlugins s ∧
  ∃ s2, Plugin_load pl s1 = (Ret (n + 1), s2) ∧ objects s2 = objects s1 ∧
    promise_state (step (Tick (length (microtasks s1))) s2) (n + 1) =
      Some (Fulfilled (VBoundInitialize pl)).
Proof.
  intros s1 n. split; [apply frame_Plugin_dispose|].
  destruct (unloadPlugin_maps name s) as [-> ->]. split; [done|]. split; [done|].
  destruct (Plugin_dispose_entries pl s) as [H1 H2].
  apply (Plugin_load_nothing s1 pl H1 H2).
Qed.

(** ** [Plugin._initialize] *)

Lemma joins_promise_resolve v : joins (promise_resolve v).
Proof.
  intros S s Hs. exists (add_member S (length (promises s))).
  split; [apply extends_add|]. split.
  - by apply (closed_new_member S (settled_cell (Fulfilled v)) s Hs).
  - intros c [= <-]. apply add_member_new.
Qed.

Lemma joins_Plugin__initialize pl : joins (Plugin__initialize pl).
Proof.
  unfold Plugin__initialize.
  apply joins_bind; [intros S; apply closed_upd_plugin|]. intros _.
  apply joins_bind; [intros S; apply closed_upd_plugin|]. intros _.
  apply joins_bind; [intros S; by apply closed_other|]. intros x.
  destruct (truthy (pl_initializer x)); [|apply joins_promise_resolve].
  apply joins_bind; [intros S; apply closed_system_import|]. intros i.
  apply joins_bind; [intros S; apply closed_then|]. intros t.
  apply joins_catch.
Qed.

Lemma initializer_alter (g1 g2 : Plugin → Plugin) (pl : nat) (l : list Plugin) :
  (∀ x, pl_initializer (g1 x) = pl_initializer x) →
  (∀ x, pl_initializer (g2 x) = pl_initializer x) →
  (∀ x, pl_module (g1 x) = pl_module x) →
  (∀ x, pl_module (g2 x) = pl_module x) →
  pl_initializer (alter g2 pl (alter g1 pl l) !!! pl) = pl_initializer (l !!! pl) ∧
  pl_module (alter g2 pl (alter g1 pl l) !!! pl) = pl_module (l !!! pl).
Proof.
  intros H1 H2 H3 H4. rewrite !list_lookup_total_alt, !list_lookup_alter_eq.
  destruct (l !! pl) as [x|]; simpl; [|done]. by rewrite H2, H1, H4, H3.
Qed.

(** X8: in every reachable state, [Plugin._initialize] empties both
    declared lists, imports the module of the plugin exactly when an
    initializer is declared, leaves the registries alone and returns a
    promise that never rejects; a [load] made afterwards registers
    nothing. *)
Theorem Plugin__initialize_empties_lists pkgs name0 evs0 pl :
  let s := run evs0 (start pkgs name0) in
  let x := plugins s !!! pl in
  ∃ r s1, Plugin__initialize pl s = (Ret r, s1) ∧
    point_ids s1 pl = [] ∧ extension_points s1 pl = [] ∧
    trace s1 =
      trace s ++
      (if truthy (pl_initializer x)
       then [TrImport (Some (pl_module x)) (length (promises s))] else []) ∧
    frame s1 = frame s ∧
    (∀ evs e, promise_state (run evs s1) r ≠ Some (Rejected e)) ∧
    ∃ s2, Plugin_load pl s1 = (Ret (length (promises s1) + 1), s2) ∧
          objects s2 = objects s1.
Proof.
  intros s x.
  assert (closed (λ _, false) s) as Hs by apply closed_run, closed_start.
  pose proof (λ c s1, joins_never_rejected (Plugin__initialize pl) (λ _, false) s
    c s1 (joins_Plugin__initialize pl) Hs) as Hnever.
  revert Hnever. unfold Plugin__initialize.
  set (g1 := set_pl_extensionPoints (Some [])).
  set (g2 := set_pl_extensions (Some [])).
  rewrite (bind_run _ _ s () (with_plugins (alter g1 pl) s)) by done.
  rewrite (bind_run _ _ _ ()
    (with_plugins (alter g2 pl) (with_plugins (alter g1 pl) s))) by done.
  set (sb := with_plugins (alter g2 pl) _).
  rewrite (bind_run _ _ sb (plugins sb !!! pl) sb) by done.
  assert (point_ids sb pl = [] ∧ extension_points sb pl = []) as [Hb1 Hb2].
  { unfold sb. destruct (entries_alter g2 pl pl (with_plugins (alter g1 pl) s))
      as [E1 E2].
    rewrite E1, E2, !decide_True by done. cbn [plugins with_plugins].
    rewrite list_lookup_alter_eq. by destruct (plugins s !! pl). }
  destruct (initializer_alter g1 g2 pl (plugins s)) as [Hi Hm]; try done.
  change (alter g2 pl (alter g1 pl (plugins s))) with (plugins sb) in Hi, Hm.
  rewrite Hi, Hm. fold x.
  assert (frame sb = frame s) as Hfb by done.
  assert (trace sb = trace s) as Htb by done.
  assert (promises sb = promises s) as Hpb by done.
  assert (∀ s1, objects s1 = objects sb →
    point_ids s1 pl = [] ∧ extension_points s1 pl = [] ∧ frame s1 = frame s ∧
    trace s1 = trace s) as Hobj.
  { intros s1 Hs1. unfold objects in Hs1.
    injection Hs1 as Ha Hb Hc Hd He Hf Hg Hh.
    unfold point_ids, extension_points, frame in *.
    by rewrite Ha, Hb, Hc, Hd, He, Hh. }
  destruct (truthy (pl_initializer x)).
  - rewrite (bind_run _ _ _ _ _ (system_import_eq _ sb)).
    set (sc := with_trace _ _).
    destruct (entry_handlers (length (promises sb)) (KPluginInit pl) sc)
      as (t & c & s1 & E & _).
    assert (objects s1 = objects sc) as Hsc.
    { pose proof (pres_bind (λ s', objects s' = objects sc)
        (then_ (length (promises sb)) (KPluginInit pl))
        (λ t, catch_ t KLogError)) as Hp.
      specialize (Hp (objects_then _ _ _) (λ t, objects_catch _ _ _) sc eq_refl).
      by rewrite E in Hp. }
    rewrite E. intros Hnever. exists c, s1.
    assert (point_ids s1 pl = [] ∧ extension_points s1 pl = [] ∧
            frame s1 = frame s ∧ trace s1 = trace sc) as (H1 & H2 & H3 & H4).
    { unfold objects in Hsc. injection Hsc as Ha Hb Hc Hd He Hf Hg Hh.
      unfold point_ids, extension_points, frame in *.
      rewrite Ha, Hb, Hc, Hd, He, Hh. split; [done|]. split; [done|].
      split; [|done]. unfold sc. simpl. rewrite connects_snoc, app_nil_r.
      done. }
    split; [done|]. split; [done|]. split; [done|].
    split; [by rewrite H4, <- Hpb|]. split; [done|].
    split; [by apply Hnever|].
    destruct (Plugin_load_nothing s1 pl H1 H2) as (s2 & E2 & Ho & _).
    by exists s2.
  - intros Hnever. eexists _, _. split; [reflexivity|].
    set (s1 := (promise_resolve VUndefined sb).2).
    destruct (Hobj s1 eq_refl) as (H1 & H2 & H3 & H4).
    split; [done|]. split; [done|]. split; [by rewrite app_nil_r|].
    split; [done|]. split; [by apply Hnever|].
    destruct (Plugin_load_nothing s1 pl H1 H2) as (s2 & E2 & Ho & _).
    by exists s2.
Qed.

(** ** [ExtensionPoint.dispose] *)

Lemma ExtensionPoint_dispose_frame p s :
  frame (ExtensionPoint_dispose p s).2 =
  (length (points s), length (extensions s),
   delete (ep_id (points s !!! p)) (allExtensionPoints s),
   allExtensions s, connects (trace s)).
Proof.
  unfold ExtensionPoint_dispose.
  rewrite (bind_run _ _ s (points s !!! p) s) by done.
  set (id := ep_id (points s !!! p)).
  rewrite (bind_run _ _ s () (with_allExtensionPoints (delete id) s)) by done.
  set (sa := with_allExtensionPoints _ s).
  change (length (points s), length (extensions s), delete id (allExtensionPoints s),
          allExtensions s, connects (trace s)) with (frame sa).
  assert (∀ f, pres (λ s', frame s' = frame sa) (upd_point p f)) as Hupd.
  { intros f s' Hs'. by apply frame_points. }
  apply (pres_bind (λ s', frame s' = frame sa)); [apply Hupd| |done]. intros _.
  apply pres_bind; [|intros _; apply Hupd].
  apply pres_ds_dispose. intros ev Hev. by apply frame_generic_log.
Qed.

Lemma ExtensionPoint_dispose_receiver p s :
  ep_receiverFunc (points (ExtensionPoint_dispose p s).2 !!! p) = None.
Proof.
  unfold ExtensionPoint_dispose.
  rewrite (bind_run _ _ s (points s !!! p) s) by done.
  rewrite (bind_run _ _ s ()
    (with_allExtensionPoints (delete (ep_id (points s !!! p))) s)) by done.
  set (sa := with_allExtensionPoints _ s).
  rewrite (bind_run _ _ sa ()
    (with_points (alter (set_ep_receiverFunc None) p) sa)) by done.
  set (sb := with_points _ sa).
  set (I := λ s', ep_receiverFunc (points s' !!! p) = None).
  assert (I sb) as Hb.
  { unfold I, sb. simpl. rewrite list_lookup_total_alt, list_lookup_alter_eq.
    by destruct (points s !! p). }
  revert Hb. generalize sb. clear sa sb. intros sb Hb.
  apply (pres_bind I); [|intros _|done].
  - apply pres_ds_dispose. intros ev Hev s' Hs'. exact Hs'.
  - intros s' Hs'. unfold I, upd_point, modify in *. simpl.
    rewrite list_lookup_total_alt, list_lookup_alter_eq.
    rewrite list_lookup_total_alt in Hs'. by destruct (points s' !! p).
Qed.

(** X9: [ExtensionPoint.dispose] removes the registration of the id of
    the point and forgets the receiver; an extension for that id loaded
    afterwards is not connected: it is put on the waiting list and its
    promise is already fulfilled. *)
Theorem loadExtension_after_point_dispose s p loader data config module_ init :
  let id := ep_id (points s !!! p) in
  let o := mkExtJSON id loader data config module_ init in
  let s1 := (ExtensionPoint_dispose p s).2 in
  let e := length (extensions s) in
  allExtensionPoints s1 !! id = None ∧
  ep_receiverFunc (points s1 !!! p) = None ∧
  ∃ r s2, loadExtension o s1 = (Ret r, s2) ∧
    promise_state s2 r = Some (Fulfilled (VExtension e)) ∧
    frame s2 =
      (length (points s), S e, delete id (allExtensionPoints s),
       <[id := default [] (allExtensions s !! id) ++ [e]]> (allExtensions s),
       connects (trace s)).
Proof.
  intros id o s1 e.
  pose proof (ExtensionPoint_dispose_frame p s) as Hf. fold id s1 in Hf.
  unfold frame in Hf. injection Hf as Hpts Hexts Hx Hq Hc.
  assert (allExtensionPoints s1 !! ej_point o = None) as Hnone.
  { simpl. rewrite Hx. apply lookup_delete_eq. }
  split; [done|]. split; [apply ExtensionPoint_dispose_receiver|].
  pose proof (loadExtension_frame_pending s1 o Hnone) as Hf2.
  destruct (loadExtension o s1) as [r s2] eqn:E.
  rewrite (loadExtension_pending s1 o Hnone) in E. injection E as <- <-.
  eexists _, _. split; [reflexivity|]. split.
  - unfold promise_state. simpl. rewrite lookup_app_len. simpl.
    by rewrite Hexts.
  - etrans; [exact Hf2|]. simpl. by rewrite Hpts, Hexts, Hx, Hq, Hc.
Qed.

(** ** A module without the receiver *)

(** X10: when the module of an uninitialized point arrives without the
    receiver, the promise of [connect] rejects with a TypeError; the point,
    the extensions and the trace stay as they were after the call, so the
    extension is not loaded and the point is not initialized. *)
Theorem connect_receiver_missing s p e ms :
  ep_initialized (points s !!! p) = false →
  assoc (ep_receiver (points s !!! p)) ms = MAbsent →
  let n := length (promises s) in
  let q := length (microtasks s) in
  let s1 := (ExtensionPoint_connect p e s).2 in
  let s2 := run [Settle n (Fulfilled (VModule ms)); Tick q; Tick q] s1 in
  (ExtensionPoint_connect p e s).1 = Ret (n + 2) ∧
  promise_state s2 (n + 2) = Some (Rejected TypeError) ∧
  points s2 = points s ∧ extensions s2 = extensions s ∧
  trace s2 = trace s1 ∧ microtasks s2 = microtasks s.
Proof.
  intros Hflag Hrecv n q s1 s2. subst n q s1 s2.
  destruct s as [pts exts pls aEP aE av ld npm wn ps q0 tr].
  cbn in Hflag, Hrecv.
  call_lit (ExtensionPoint_connect p e) ltac:(rewrite ?Hflag, ?Hrecv).
  split; [done|]. unfold run, foldl.
  do 3 step_lit ltac:(rewrite ?Hflag, ?Hrecv).
  unfold promise_state. norm idtac. by rewrite app_nil_r.
Qed.

Lemma connect_receiver_missing_witness :
  let s := point_registered in
  let n := length (promises s) in
  let q := length (microtasks s) in
  let s1 := (ExtensionPoint_connect 0 0 s).2 in
  let s2 := run [Settle n (Fulfilled (VModule [])); Tick q; Tick q] s1 in
  (ep_initialized (points s !!! 0) = false ∧
   assoc (ep_receiver (points s !!! 0)) [] = MAbsent) ∧
  (ExtensionPoint_connect 0 0 s).1 = Ret (n + 2) ∧
  promise_state s2 (n + 2) = Some (Rejected TypeError) ∧
  points s2 = points s ∧ extensions s2 = extensions s ∧
  trace s2 = trace s1 ∧ microtasks s2 = microtasks s.
Proof.
  intros s n q s1 s2. split; [by vm_compute|].
  apply (connect_receiver_missing point_registered 0 0 []);
    vm_compute; reflexivity.
Defined.

(** ** What [fetchPlugins] asks the loader for *)

Lemma loadPackage_eq name s :
  let n := length (promises s) in
  loadPackage name s =
  (Ret (n + 2),
   with_trace (λ t, t ++ [TrImport (Some (name +:+ "/package.json")) n])
     (with_promises (λ l, l ++
        [mkCell None [RThen (KAddPackage name) (n + 1)] true 0;
         mkCell None [RCatch KLogError (n + 2)] false 0;
         pending_cell]) s)).
Proof.
  intros n. subst n.
  destruct s as [pts exts pls aEP aE av ld npm wn ps q0 tr].
  call_lit (loadPackage name) idtac. done.
Qed.

Lemma mapM_loadPackage names s :
  ∃ cs s1, mapM loadPackage names s = (Ret cs, s1) ∧
    trace s1 =
      trace s ++
      imap (λ k name,
        TrImport (Some (name +:+ "/package.json")) (length (promises s) + 3 * k))
        names ∧
    length (promises s1) = length (promises s) + 3 * length names ∧
    (points s1, extensions s1, plugins s1, allExtensionPoints s1,
     allExtensions s1, availablePlugins s1, loadedPlugins s1, microtasks s1) =
    (points s, extensions s, plugins s, allExtensionPoints s,
     allExtensions s, availablePlugins s, loadedPlugins s, microtasks s).
Proof.
  revert s. induction names as [|name names IH]; intros s.
  - exists [], s. split; [done|]. split; [by rewrite app_nil_r|].
    split; [simpl; lia|done].
  - rewrite mapM_cons. rewrite (bind_run _ _ _ _ _ (loadPackage_eq name s)).
    set (s0 := with_trace _ _).
    destruct (IH s0) as (cs & s1 & E & Htr & Hlen & Hrest).
    rewrite (bind_run _ _ _ _ _ E). eexists _, s1. split; [reflexivity|].
    assert (length (promises s0) = length (promises s) + 3) as Hl0.
    { unfold s0. simpl. rewrite length_app. simpl. lia. }
    split; [|split; [|done]].
    + rewrite Hl0 in Htr. rewrite Htr. unfold s0. cbn [trace with_trace].
      rewrite <- app_assoc. f_equal. cbn [imap app]. rewrite Nat.add_0_r.
      f_equal. apply imap_ext. intros k x _. unfold compose.
      replace (length (promises s) + 3 + 3 * k)
        with (length (promises s) + 3 * S k) by lia. done.
    + rewrite Hlen, Hl0. simpl. lia.
Qed.

Lemma getPluginNames_returns s : ∃ names, getPluginNames s = (Ret names, s).
Proof. by eexists. Qed.

(** X11: [fetchPlugins] constructs nothing by itself.  With no available
    plugin it imports [name/package.json] for each name of [getPluginNames],
    in order, and nothing else; otherwise it deletes and re-imports
    [package.json!npm] and imports no package before that arrives. *)
Theorem fetchPlugins_requests s :
  let n := length (promises s) in
  ∃ names r s1,
    getPluginNames s = (Ret names, s) ∧ fetchPlugins s = (Ret r, s1) ∧
    (points s1, extensions s1, plugins s1, allExtensionPoints s1,
     allExtensions s1, availablePlugins s1, loadedPlugins s1) =
    (points s, extensions s, plugins s, allExtensionPoints s,
     allExtensions s, availablePlugins s, loadedPlugins s) ∧
    trace s1 =
      trace s ++
      (if bool_decide (availablePlugins s = ∅)
       then imap (λ k name,
              TrImport (Some (name +:+ "/package.json")) (n + 3 * k)) names
       else [TrSystemDelete "package.json!npm";
             TrImport (Some "package.json!npm") n]).
Proof.
  intros n. subst n. destruct (getPluginNames_returns s) as [names Hnames].
  exists names. unfold fetchPlugins.
  rewrite (bind_run _ _ s s s) by done.
  destruct (decide (availablePlugins s = ∅)) as [Hempty|Hne].
  - rewrite (bool_decide_eq_false_2 (availablePlugins s ≠ ∅)) by (by intros []).
    rewrite (bool_decide_eq_true_2 _ Hempty).
    assert (with_availablePlugins (λ _, ∅) s = s) as Hs0.
    { destruct s. simpl in Hempty. by subst. }
    rewrite (bind_run _ _ s () s) by (by rewrite <- Hs0 at 2).
    unfold gatherPlugins. rewrite (bind_run _ _ _ _ _ Hnames).
    destruct (mapM_loadPackage names s) as (cs & s1 & E & Htr & _ & Hrest).
    rewrite (bind_run _ _ _ _ _ E).
    destruct (returns_promise_all cs s1) as [a Ha].
    pose proof (objects_promise_all _ cs s1 eq_refl) as Ho1.
    destruct (promise_all cs s1) as [[a'|?] s2] eqn:E2; [|done].
    rewrite (bind_run _ _ _ _ _ E2). simpl in Ho1.
    destruct (returns_then a' (KReturn VUndefined) s2) as [r Hr].
    pose proof (objects_then _ a' (KReturn VUndefined) s2 eq_refl) as Ho2.
    destruct (then_ a' (KReturn VUndefined) s2) as [[r'|?] s3] eqn:E3; [|done].
    simpl in Ho2. exists r', s3. split; [done|]. split; [done|].
    rewrite Ho1 in Ho2. unfold objects in Ho2.
    injection Ho2 as -> -> -> -> -> -> -> ->.
    injection Hrest as -> -> -> -> -> -> -> _. done.
  - rewrite (bool_decide_eq_true_2 (availablePlugins s ≠ ∅)) by done.
    rewrite (bool_decide_eq_false_2 _ Hne).
    destruct s as [pts exts pls aEP aE av ld npm wn ps q0 tr].
    eexists _, _. split; [done|]. split; [meval idtac|].
    split; [reflexivity|]. by norm idtac.
Qed.

(** ** The outcomes of [loadPackage] *)


(** ** A connect that succeeds *)

Lemma alter_alter {A} (f g : A → A) (l : list A) i :
  alter g i (alter f i l) = alter (g ∘ f) i l.
Proof.
  revert i. induction l as [|a l IH]; intros [|i]; simpl; try done.
  f_equal. apply IH.
Qed.

(** Reads of the point and of the extension after writes to them. *)
Ltac object_rw Hp He :=
  rewrite ?alter_alter, ?(lookup_total_alter_same _ _ _ _ Hp),
    ?(lookup_total_alter_same _ _ _ _ He),
    ?(list_lookup_total_correct _ _ _ Hp), ?(list_lookup_total_correct _ _ _ He);
  cbn [set_ep_initialized set_ep_receiverFunc set_ep_disposables
       set_ex_extension set_ex_disposables
       ep_id ep_receiver ep_module ep_initializer ep_initialized
       ep_receiverFunc ep_disposables
       ex_point ex_loader ex_module ex_data ex_initializer ex_extension
       ex_disposables
       set_pl_extensionPoints set_pl_extensions set_pl_disposables
       pl_name pl_module pl_initializer pl_extensionPoints pl_extensions
       pl_disposables compose ds_items ds_disposed];
  try unfold ds_add.

(** X13: a [connect] that succeeds.  For an uninitialized point without
    initializer, whose module exports the receiver, and an extension
    without data, loader and initializer: once the module has arrived and
    the jobs have run, the receiver has been called once with the
    contribution of the extension, the returned disposable is kept by the
    point, the point is initialized, the extension has given up its
    contribution, and the promise of [connect] is fulfilled. *)
Theorem connect_delivers s p e xp xe c ms d :
  points s !! p = Some xp → extensions s !! e = Some xe →
  ep_initialized xp = false → truthy (ep_initializer xp) = false →
  ds_disposed (ep_disposables xp) = false →
  assoc (ep_receiver xp) ms = MReturns (VDisposable d) →
  ex_extension xe = Some c →
  truthy (ex_data xe) = false → truthy (ex_loader xe) = false →
  truthy (ex_initializer xe) = false →
  let n := length (promises s) in
  let q := length (microtasks s) in
  let s1 := (ExtensionPoint_connect p e s).2 in
  let s2 := run (Settle n (Fulfilled (VModule ms)) :: replicate 13 (Tick q)) s1 in
  (ExtensionPoint_connect p e s).1 = Ret (n + 2) ∧
  promise_state s2 (n + 2) = Some (Fulfilled VUndefined) ∧
  trace s2 = trace s ++
    [TrConnect p e; TrImport (ep_module xp) n;
     TrReceiver p e (VContribution (c_config c) (c_data c) (c_object c))] ∧
  microtasks s2 = microtasks s ∧
  ep_initialized (points s2 !!! p) = true ∧
  ep_receiverFunc (points s2 !!! p) = Some (MReturns (VDisposable d)) ∧
  ds_items (ep_disposables (points s2 !!! p)) =
    ds_items (ep_disposables xp) ++ [VDisposable d] ∧
  ex_extension (extensions s2 !!! e) = None.
Proof.
  intros Hp He Hflag Hinit Hdisp Hrecv Hc Hd Hl Hi n q s1 s2. subst n q s1 s2.
  destruct s as [pts exts pls aEP aE av ld npm wn ps q0 tr].
  cbn in Hp, He.
  call_lit (ExtensionPoint_connect p e)
    ltac:(object_rw Hp He;
          rewrite ?Hflag, ?Hinit, ?Hdisp, ?Hrecv, ?Hc, ?Hd, ?Hl, ?Hi).
  split; [done|]. unfold run, replicate, foldl.
  do 14 (step_lit ltac:(object_rw Hp He;
          rewrite ?Hflag, ?Hinit, ?Hdisp, ?Hrecv, ?Hc, ?Hd, ?Hl, ?Hi)).
  unfold promise_state. norm idtac. by rewrite app_nil_r.
Qed.

Lemma connect_delivers_witness :
  let s := waiting_pair in
  let xp := mkExtensionPoint "foo:point" "recv" (Some "foo/index") None false
              None new_DisposableSet in
  let xe := mkExtension "bar:point" None None None None
              (Some (mkContribution 7 VUndefined VUndefined))
              new_DisposableSet in
  let c := mkContribution 7 VUndefined VUndefined in
  let ms := [("recv", MReturns (VDisposable 1))] in
  let n := length (promises s) in
  let q := length (microtasks s) in
  let s1 := (ExtensionPoint_connect 0 0 s).2 in
  let s2 := run (Settle n (Fulfilled (VModule ms)) :: replicate 13 (Tick q)) s1 in
  (points s !! 0 = Some xp ∧ extensions s !! 0 = Some xe ∧
   ep_initialized xp = false ∧ truthy (ep_initializer xp) = false ∧
   ds_disposed (ep_disposables xp) = false ∧
   assoc (ep_receiver xp) ms = MReturns (VDisposable 1) ∧
   ex_extension xe = Some c ∧
   truthy (ex_data xe) = false ∧ truthy (ex_loader xe) = false ∧
   truthy (ex_initializer xe) = false) ∧
  (ExtensionPoint_connect 0 0 s).1 = Ret (n + 2) ∧
  promise_state s2 (n + 2) = Some (Fulfilled VUndefined) ∧
  trace s2 = trace s ++
    [TrConnect 0 0; TrImport (ep_module xp) n;
     TrReceiver 0 0 (VContribution (c_config c) (c_data c) (c_object c))] ∧
  microtasks s2 = microtasks s ∧
  ep_initialized (points s2 !!! 0) = true ∧
  ep_receiverFunc (points s2 !!! 0) = Some (MReturns (VDisposable 1)) ∧
  ds_items (ep_disposables (points s2 !!! 0)) =
    ds_items (ep_disposables xp) ++ [VDisposable 1] ∧
  ex_extension (extensions s2 !!! 0) = None.
Proof.
  intros s xp xe c ms n q s1 s2.
  split; [by vm_compute|].
  apply (connect_delivers waiting_pair 0 0 xp xe c ms 1); by vm_compute.
Defined.

(** ** [Extension.dispose] *)

Lemma load_without_contribution s e x :
  extensions s !! e = Some x → ex_extension x = None →
  truthy (ex_data x) = false → truthy (ex_loader x) = false →
  let n := length (promises s) in
  let q := length (microtasks s) in
  (Extension_load e s).1 = Ret (n + 3) ∧
  promise_state (run [Tick q; Tick q; Tick q] (Extension_load e s).2) (n + 3) =
    Some (Fulfilled VNull).
Proof.
  intros Hx Hc Hd Hl n q. subst n q.
  destruct s as [pts exts pls aEP aE av ld npm wn ps q0 tr].
  cbn in Hx. pose proof (list_lookup_total_correct _ _ _ Hx) as Hx'.
  call_lit (Extension_load e) ltac:(rewrite ?Hx', ?Hd, ?Hl, ?Hc).
  split; [done|]. unfold run, foldl.
  do 3 step_lit ltac:(rewrite ?Hx', ?Hd, ?Hl, ?Hc).
  unfold promise_state. by norm idtac.
Qed.

Lemma Extension_dispose_extension e x s :
  extensions s !! e = Some x →
  ∃ x1, extensions (Extension_dispose e s).2 !! e = Some x1 ∧
    ex_extension x1 = None ∧ ex_data x1 = ex_data x ∧ ex_loader x1 = ex_loader x.
Proof.
  intros Hx. unfold Extension_dispose.
  rewrite (bind_run _ _ s ()
    (with_extensions (alter (set_ex_extension None) e) s)) by done.
  set (sa := with_extensions _ s).
  set (I := λ s', ∃ x1, extensions s' !! e = Some x1 ∧
    ex_extension x1 = None ∧ ex_data x1 = ex_data x ∧ ex_loader x1 = ex_loader x).
  assert (I sa) as Ha.
  { exists (set_ex_extension None x). unfold sa. simpl.
    by rewrite list_lookup_alter_eq, Hx. }
  revert Ha. generalize sa. clear sa. intros sa Ha.
  apply (pres_bind I); [by intros ?| |done]. intros y.
  apply pres_bind.
  - apply pres_ds_dispose. intros ev Hev s' Hs'. exact Hs'.
  - intros _ s' (x1 & H1 & H2 & H3 & H4).
    exists (set_ex_disposables ds_after_dispose x1). unfold upd_extension, modify.
    simpl. by rewrite list_lookup_alter_eq, H1.
Qed.

(** X14: [Extension.dispose] leaves the registries alone (a waiting
    extension keeps waiting) and drops the contribution: a [load] of an
    extension without data and loader made afterwards yields [null]. *)
Theorem load_after_Extension_dispose s e x :
  extensions s !! e = Some x →
  truthy (ex_data x) = false → truthy (ex_loader x) = false →
  let s1 := (Extension_dispose e s).2 in
  let n := length (promises s1) in
  let q := length (microtasks s1) in
  frame s1 = frame s ∧
  ex_extension (extensions s1 !!! e) = None ∧
  (Extension_load e s1).1 = Ret (n + 3) ∧
  promise_state (run [Tick q; Tick q; Tick q] (Extension_load e s1).2) (n + 3) =
    Some (Fulfilled VNull).
Proof.
  intros Hx Hd Hl s1 n q.
  destruct (Extension_dispose_extension e x s Hx) as (x1 & H1 & H2 & H3 & H4).
  fold s1 in H1. split.
  { apply (pres_Extension_dispose (λ s', frame s' = frame s)); try done; intros;
      first [ by apply frame_generic_log
            | intros s' Hs'; by apply frame_extensions ]. }
  split; [by rewrite (list_lookup_total_correct _ _ _ H1)|].
  apply (load_without_contribution s1 e x1); [done|done| |].
  - by rewrite H3.
  - by rewrite H4.
Qed.

Lemma load_after_Extension_dispose_witness :
  let s := waiting_pair in
  let x := mkExtension "bar:point" None None None None
             (Some (mkContribution 7 VUndefined VUndefined))
             new_DisposableSet in
  let s1 := (Extension_dispose 0 s).2 in
  let n := length (promises s1) in
  let q := length (microtasks s1) in
  (extensions s !! 0 = Some x ∧
   truthy (ex_data x) = false ∧ truthy (ex_loader x) = false) ∧
  frame s1 = frame s ∧
  ex_extension (extensions s1 !!! 0) = None ∧
  (Extension_load 0 s1).1 = Ret (n + 3) ∧
  promise_state (run [Tick q; Tick q; Tick q] (Extension_load 0 s1).2) (n + 3) =
    Some (Fulfilled VNull).
Proof.
  intros s x s1 n q. split; [by vm_compute|].
  apply (load_after_Extension_dispose waiting_pair 0 x); by vm_compute.
Defined.

(** ** Initializers that succeed *)

(** X15: [Extension.initialize] with an initializer: the contribution is
    dropped, the module is imported, the initializer is called once when the
    module arrives, and when its promise is fulfilled with a disposable the
    extension keeps it and the promise of [initialize] is fulfilled. *)
Theorem Extension_initialize_runs s e xe ms d :
  extensions s !! e = Some xe →
  truthy (ex_initializer xe) = true →
  assoc (to_str (ex_initializer xe)) ms = MAsync →
  ds_disposed (ex_disposables xe) = false →
  let n := length (promises s) in
  let q := length (microtasks s) in
  let s1 := (Extension_initialize e s).2 in
  let s2 := run [Settle n (Fulfilled (VModule ms)); Tick q; Tick q;
                 Settle (n + 2) (Fulfilled (VDisposable d)); Tick q; Tick q] s1 in
  (Extension_initialize e s).1 = Ret (n + 1) ∧
  trace s2 = trace s ++ [TrImport (ex_module xe) n; TrExtInitializer e] ∧
  promise_state s2 (n + 1) = Some (Fulfilled VUndefined) ∧
  microtasks s2 = microtasks s ∧
  ex_extension (extensions s2 !!! e) = None ∧
  ds_items (ex_disposables (extensions s2 !!! e)) =
    ds_items (ex_disposables xe) ++ [VDisposable d].
Proof.
  intros He Hi Hm Hdisp n q s1 s2. subst n q s1 s2.
  destruct s as [pts exts pls aEP aE av ld npm wn ps q0 tr].
  cbn in He.
  call_lit (Extension_initialize e)
    ltac:(object_rw He He; rewrite ?Hi, ?Hm, ?Hdisp).
  split; [done|]. unfold run, foldl.
  do 6 (step_lit ltac:(object_rw He He; rewrite ?Hi, ?Hm, ?Hdisp)).
  unfold promise_state. norm idtac. by rewrite app_nil_r.
Qed.

Lemma Extension_initialize_runs_witness :
  let s := waiting_initializer in
  let xe := mkExtension "bar:point" None (Some "bar/index") None (Some "start")
              (Some (mkContribution 7 VUndefined VUndefined))
              new_DisposableSet in
  let ms := [("start", MAsync)] in
  let n := length (promises s) in
  let q := length (microtasks s) in
  let s1 := (Extension_initialize 0 s).2 in
  let s2 := run [Settle n (Fulfilled (VModule ms)); Tick q; Tick q;
                 Settle (n + 2) (Fulfilled (VDisposable 1)); Tick q; Tick q] s1 in
  (extensions s !! 0 = Some xe ∧
   truthy (ex_initializer xe) = true ∧
   assoc (to_str (ex_initializer xe)) ms = MAsync ∧
   ds_disposed (ex_disposables xe) = false) ∧
  (Extension_initialize 0 s).1 = Ret (n + 1) ∧
  trace s2 = trace s ++ [TrImport (ex_module xe) n; TrExtInitializer 0] ∧
  promise_state s2 (n + 1) = Some (Fulfilled VUndefined) ∧
  microtasks s2 = microtasks s ∧
  ex_extension (extensions s2 !!! 0) = None ∧
  ds_items (ex_disposables (extensions s2 !!! 0)) =
    ds_items (ex_disposables xe) ++ [VDisposable 1].
Proof.
  intros s xe ms n q s1 s2. split; [by vm_compute|].
  apply (Extension_initialize_runs waiting_initializer 0 xe ms 1); by vm_compute.
Defined.

(** X16: [ExtensionPoint._initialize] with an initializer: the flag is set
    by the call itself, the module is imported, the initializer is called
    once when the module arrives, and when its promise is fulfilled with a
    disposable the point keeps it and the promise of [_initialize] is
    fulfilled; a second [_initialize] imports nothing and returns a fulfilled
    promise. *)
Theorem ExtensionPoint__initialize_runs s p xp ms d :
  points s !! p = Some xp →
  ep_initialized xp = false →
  truthy (ep_initializer xp) = true →
  assoc (to_str (ep_initializer xp)) ms = MAsync →
  ds_disposed (ep_disposables xp) = false →
  let n := length (promises s) in
  let q := length (microtasks s) in
  let s1 := (ExtensionPoint__initialize p s).2 in
  let s2 := run [Settle n (Fulfilled (VModule ms)); Tick q; Tick q;
                 Settle (n + 2) (Fulfilled (VDisposable d)); Tick q; Tick q] s1 in
  (ExtensionPoint__initialize p s).1 = Ret (n + 1) ∧
  ep_initialized (points s1 !!! p) = true ∧
  trace s2 = trace s ++ [TrImport (ep_module xp) n; TrPointInitializer p] ∧
  promise_state s2 (n + 1) = Some (Fulfilled VUndefined) ∧
  microtasks s2 = microtasks s ∧
  ds_items (ep_disposables (points s2 !!! p)) =
    ds_items (ep_disposables xp) ++ [VDisposable d] ∧
  (ExtensionPoint__initialize p s2).1 = Ret (length (promises s2)) ∧
  trace (ExtensionPoint__initialize p s2).2 = trace s2 ∧
  promise_state (ExtensionPoint__initialize p s2).2 (length (promises s2)) =
    Some (Fulfilled VUndefined).
Proof.
  intros Hp Hflag Hi Hm Hdisp n q s1 s2. subst n q s1 s2.
  destruct s as [pts exts pls aEP aE av ld npm wn ps q0 tr].
  cbn in Hp.
  call_lit (ExtensionPoint__initialize p)
    ltac:(object_rw Hp Hp; rewrite ?Hflag, ?Hi, ?Hm, ?Hdisp).
  split; [done|]. split; [done|]. unfold run, foldl.
  do 6 (step_lit ltac:(object_rw Hp Hp; rewrite ?Hflag, ?Hi, ?Hm, ?Hdisp)).
  call_lit (ExtensionPoint__initialize p)
    ltac:(object_rw Hp Hp; rewrite ?Hflag, ?Hi, ?Hm, ?Hdisp).
  unfold promise_state, new_promise. norm idtac. rewrite !app_nil_r.
  by repeat (split; [done|]).
Qed.

Lemma ExtensionPoint__initialize_runs_witness :
  let s := point_registered in
  let xp := mkExtensionPoint "foo:point" "recv" (Some "foo/index") (Some "init")
              false None new_DisposableSet in
  let ms := [("recv", MReturns (VDisposable 1)); ("init", MAsync)] in
  let n := length (promises s) in
  let q := length (microtasks s) in
  let s1 := (ExtensionPoint__initialize 0 s).2 in
  let s2 := run [Settle n (Fulfilled (VModule ms)); Tick q; Tick q;
                 Settle (n + 2) (Fulfilled (VDisposable 2)); Tick q; Tick q] s1 in
  (points s !! 0 = Some xp ∧
   ep_initialized xp = false ∧
   truthy (ep_initializer xp) = true ∧
   assoc (to_str (ep_initializer xp)) ms = MAsync ∧
   ds_disposed (ep_disposables xp) = false) ∧
  (ExtensionPoint__initialize 0 s).1 = Ret (n + 1) ∧
  ep_initialized (points s1 !!! 0) = true ∧
  trace s2 = trace s ++ [TrImport (ep_module xp) n; TrPointInitializer 0] ∧
  promise_state s2 (n + 1) = Some (Fulfilled VUndefined) ∧
  microtasks s2 = microtasks s ∧
  ds_items (ep_disposables (points s2 !!! 0)) =
    ds_items (ep_disposables xp) ++ [VDisposable 2] ∧
  (ExtensionPoint__initialize 0 s2).1 = Ret (length (promises s2)) ∧
  trace (ExtensionPoint__initialize 0 s2).2 = trace s2 ∧
  promise_state (ExtensionPoint__initialize 0 s2).2 (length (promises s2)) =
    Some (Fulfilled VUndefined).
Proof.
  intros s xp ms n q s1 s2. split; [by vm_compute|].
  apply (ExtensionPoint__initialize_runs point_registered 0 xp ms 2);
    by vm_compute.
Defined.

(** X17: the callback of [Plugin._initialize]: when the module arrives,
    the initializer is called and the disposable it returns is kept by the
    plugin; if the module does not export the initializer, the TypeError is
    logged and nothing is kept.  The promise is fulfilled either way. *)
Theorem Plugin__initialize_runs s pl x ms d (exported : bool) :
  plugins s !! pl = Some x →
  truthy (pl_initializer x) = true →
  ds_disposed (pl_disposables x) = false →
  assoc (to_str (pl_initializer x)) ms =
    (if exported then MReturns (VDisposable d) else MAbsent) →
  let n := length (promises s) in
  let q := length (microtasks s) in
  let s1 := (Plugin__initialize pl s).2 in
  let s2 := run [Settle n (Fulfilled (VModule ms)); Tick q; Tick q] s1 in
  (Plugin__initialize pl s).1 = Ret (n + 2) ∧
  trace s2 =
    trace s ++
    [TrImport (Some (pl_module x)) n;
     if exported then TrPluginInitializer pl else TrConsoleError TypeError] ∧
  promise_state s2 (n + 2) = Some (Fulfilled VUndefined) ∧
  microtasks s2 = microtasks s ∧
  ds_items (pl_disposables (plugins s2 !!! pl)) =
    ds_items (pl_disposables x) ++ (if exported then [VDisposable d] else []).
Proof.
  intros Hx Hi Hdisp Hm n q s1 s2. subst n q s1 s2.
  destruct s as [pts exts pls aEP aE av ld npm wn ps q0 tr].
  cbn in Hx.
  call_lit (Plugin__initialize pl)
    ltac:(object_rw Hx Hx; rewrite ?Hi, ?Hdisp).
  split; [done|]. unfold run, foldl.
  destruct exported.
  - do 3 (step_lit ltac:(object_rw Hx Hx; rewrite ?Hi, ?Hm, ?Hdisp)).
    unfold promise_state. norm idtac. by rewrite app_nil_r.
  - do 3 (step_lit ltac:(object_rw Hx Hx; rewrite ?Hi, ?Hm, ?Hdisp)).
    unfold promise_state. norm idtac. by rewrite !app_nil_r.
Qed.

Lemma Plugin__initialize_runs_witness :
  let s := foo_fetched in
  let x := mkPlugin "foo" "foo/index" (Some "init") (Some [foo_point])
             (Some [foo_extension]) new_DisposableSet in
  let ms := [("init", MReturns (VDisposable 1))] in
  let n := length (promises s) in
  let q := length (microtasks s) in
  let s1 := (Plugin__initialize 0 s).2 in
  let s2 := run [Settle n (Fulfilled (VModule ms)); Tick q; Tick q] s1 in
  (plugins s !! 0 = Some x ∧
   truthy (pl_initializer x) = true ∧
   ds_disposed (pl_disposables x) = false ∧
   assoc (to_str (pl_initializer x)) ms = MReturns (VDisposable 1)) ∧
  (Plugin__initialize 0 s).1 = Ret (n + 2) ∧
  trace s2 =
    trace s ++
    [TrImport (Some (pl_module x)) n;
     if true then TrPluginInitializer 0 else TrConsoleError TypeError] ∧
  promise_state s2 (n + 2) = Some (Fulfilled VUndefined) ∧
  microtasks s2 = microtasks s ∧
  ds_items (pl_disposables (plugins s2 !!! 0)) =
    ds_items (pl_disposables x) ++ (if true then [VDisposable 1] else []).
Proof.
  intros s x ms n q s1 s2. split; [by vm_compute|].
  apply (Plugin__initialize_runs foo_fetched 0 x ms 1 true); by vm_compute.
Defined.
